(** * Page-result merging and transfer-in reconciliation

    A shallow embedding of two pieces of the warehouse front end:

    - [mergePageResults] of [src/app/[company]/inward/new/page.tsx], which
      folds the per-page extraction results of a PDF into purchase orders;
    - the reconciliation state of the transfer-in page
      [src/app/[company]/transfer/transferIn/page.tsx]: the acknowledged and
      issued maps, the handlers that update them, the confirm gate, the
      confirm payload and the transfer-number scanner.

    The first part of the file holds the definitions, the second part the
    lemmas and theorems about them. *)

From Stdlib Require Import ZArith NArith List String Ascii Bool Lia DecimalN.
From stdpp Require Import base option list gmap fin_maps.

Set Default Proof Using "Type".
Open Scope Z_scope.
Open Scope nat_scope.

(* ===================================================================== *)
(** * Part I. Definitions                                                 *)
(* ===================================================================== *)

(** ** JavaScript values the two programs rely on *)

Module JS.

(** A JavaScript string is a sequence of UTF-16 code units. *)
Abbreviation jsstring := (list N).

(** [js "PO1"] is the string whose code units are the characters of the
    literal. *)
Definition js (s : string) : jsstring :=
  map N_of_ascii (list_ascii_of_string s).

(** WhiteSpace and LineTerminator code points of ECMAScript, the ones
    [String.prototype.trim] strips. *)
Definition isWhiteSpace (c : N) : bool :=
  ((9 <=? c) && (c <=? 13) || (c =? 32) || (c =? 160) || (c =? 5760)
   || (8192 <=? c) && (c <=? 8202) || (c =? 8232) || (c =? 8233)
   || (c =? 8239) || (c =? 8287) || (c =? 12288) || (c =? 65279))%N.

Fixpoint trimStart (s : jsstring) : jsstring :=
  match s with
  | c :: s' => if isWhiteSpace c then trimStart s' else s
  | [] => []
  end.

Definition trimEnd (s : jsstring) : jsstring := rev (trimStart (rev s)).

(** [s.trim()] *)
Definition trim (s : jsstring) : jsstring := trimEnd (trimStart s).

(** A JavaScript number.  A finite number is kept as the decimal numeral it
    was read from, [(-1)^neg * m * 10^e]; the program never does arithmetic
    on these values, it only tests and copies them. *)
Inductive number : Type :=
  | NaN
  | Infinity (neg : bool)
  | Dec (neg : bool) (m : N) (e : Z).

Global Instance number_eq_dec : EqDecision number.
Proof. solve_decision. Defined.

(** The decimal [m * 10^e] becomes the double [0] when [m = 0] or when it is
    at most [2^-1075], half the least positive double. *)
Definition rounds_to_zero (m : N) (e : Z) : bool :=
  ((m =? 0)%N
   || (e <? 0)%Z && (Z.of_N m * 2 ^ 1075 <=? 10 ^ (- e))%Z).

Definition isNaN (n : number) : bool :=
  match n with NaN => true | _ => false end.

(** ToBoolean on the kinds of value the programs test. *)
Definition truthy_number (n : number) : bool :=
  match n with
  | NaN => false
  | Infinity _ => true
  | Dec _ m e => negb (rounds_to_zero m e)
  end.

Definition truthy_string (s : jsstring) : bool :=
  match s with [] => false | _ => true end.

(** A property typed [string | null | undefined]: [None] stands for both
    [null] and [undefined], which the programs never tell apart. *)
Definition truthy_ostring (v : option jsstring) : bool :=
  match v with Some s => truthy_string s | None => false end.

Definition truthy_onumber (v : option number) : bool :=
  match v with Some n => truthy_number n | None => false end.

(** Names that every plain object inherits from [Object.prototype]; the
    [in] operator answers [true] for them on any object literal. *)
Definition objectPrototypeKeys : list jsstring :=
  map js [ "constructor"; "__defineGetter__"; "__defineSetter__";
           "hasOwnProperty"; "__lookupGetter__"; "__lookupSetter__";
           "isPrototypeOf"; "propertyIsEnumerable"; "toString"; "valueOf";
           "__proto__"; "toLocaleString" ]%string.

Definition inObjectPrototype (k : jsstring) : bool :=
  bool_decide (k ∈ objectPrototypeKeys).

(** *** Numerals *)

Definition is_digit (c : N) : bool := ((48 <=? c) && (c <=? 57))%N.

(** Reads decimal digits: their value (continuing [acc]), how many there
    were (continuing [n]) and what follows them. *)
Fixpoint read_digits (s : jsstring) (acc : N) (n : nat)
  : N * nat * jsstring :=
  match s with
  | c :: s' =>
      if is_digit c then read_digits s' (acc * 10 + (c - 48))%N (S n)
      else (acc, n, s)
  | [] => (acc, n, [])
  end.

Definition read_sign (s : jsstring) : bool * jsstring :=
  match s with
  | 43%N :: t => (false, t)
  | 45%N :: t => (true, t)
  | _ => (false, s)
  end.

(** ExponentPart, when it is well formed; otherwise nothing is consumed. *)
Definition read_exponent (s : jsstring) : Z * jsstring :=
  match s with
  | c :: s1 =>
      if ((c =? 101) || (c =? 69))%N then
        let '(neg, s2) := read_sign s1 in
        let '(v, n, s3) := read_digits s2 0%N 0%nat in
        if (n =? 0)%nat then (0%Z, s)
        else ((if neg then - Z.of_N v else Z.of_N v)%Z, s3)
      else (0%Z, s)
  | [] => (0%Z, s)
  end.

(** The longest prefix that is a StrUnsignedDecimalLiteral other than
    [Infinity]: mantissa, exponent and the rest of the string. *)
Definition read_unsigned_decimal (s : jsstring) : option (N * Z * jsstring) :=
  let '(ip, ni, s1) := read_digits s 0%N 0%nat in
  match s1 with
  | 46%N :: s2 =>
      let '(fp, nf, s3) := read_digits s2 0%N 0%nat in
      if ((ni =? 0) && (nf =? 0))%nat then None
      else
        let '(x, s4) := read_exponent s3 in
        Some ((ip * 10 ^ N.of_nat nf + fp)%N, (x - Z.of_nat nf)%Z, s4)
  | _ =>
      if (ni =? 0)%nat then None
      else let '(x, s4) := read_exponent s1 in Some (ip, x, s4)
  end.

Fixpoint strip_prefix (p s : jsstring) : option jsstring :=
  match p, s with
  | [], _ => Some s
  | a :: p', b :: s' => if (a =? b)%N then strip_prefix p' s' else None
  | _ :: _, [] => None
  end.

(** [parseFloat(s)] *)
Definition parseFloat (s : jsstring) : number :=
  let '(neg, s1) := read_sign (trimStart s) in
  match strip_prefix (js "Infinity") s1 with
  | Some _ => Infinity neg
  | None =>
      match read_unsigned_decimal s1 with
      | Some (m, e, _) => Dec neg m e
      | None => NaN
      end
  end.

(** *** Numbers as text *)

Fixpoint uint_to_js (d : Decimal.uint) : jsstring :=
  match d with
  | Decimal.Nil => []
  | Decimal.D0 d' => 48%N :: uint_to_js d'
  | Decimal.D1 d' => 49%N :: uint_to_js d'
  | Decimal.D2 d' => 50%N :: uint_to_js d'
  | Decimal.D3 d' => 51%N :: uint_to_js d'
  | Decimal.D4 d' => 52%N :: uint_to_js d'
  | Decimal.D5 d' => 53%N :: uint_to_js d'
  | Decimal.D6 d' => 54%N :: uint_to_js d'
  | Decimal.D7 d' => 55%N :: uint_to_js d'
  | Decimal.D8 d' => 56%N :: uint_to_js d'
  | Decimal.D9 d' => 57%N :: uint_to_js d'
  end.

(** The decimal digits of a natural number, as in a template literal
    [`${n}`] for an array index or a count. *)
Definition decimal (n : N) : jsstring := uint_to_js (N.to_uint n).

(** The decimal [m * 10^e] is at least [2^1024 - 2^970] and so becomes the
    double [Infinity]. *)
Definition rounds_to_infinity (m : N) (e : Z) : bool :=
  ((2 ^ 1024 - 2 ^ 970) * 10 ^ Z.max (- e) 0
   <=? Z.of_N m * 10 ^ Z.max e 0)%Z.

Fixpoint strip_zeros (s : jsstring) : jsstring :=
  match s with
  | 48%N :: s' => strip_zeros s'
  | _ => s
  end.

Definition zeros (n : nat) : jsstring := repeat 48%N n.

(** Number::toString for a finite non-zero value whose digits, without
    trailing zeros, are [ds] and whose decimal point stands after [n] of
    them. *)
Definition number_body (ds : jsstring) (n : Z) : jsstring :=
  let k := Z.of_nat (length ds) in
  if ((k <=? n) && (n <=? 21))%Z then
    ds ++ zeros (Z.to_nat (n - k))
  else if ((0 <? n) && (n <=? 21))%Z then
    take (Z.to_nat n) ds ++ js "." ++ drop (Z.to_nat n) ds
  else if ((-6 <? n) && (n <=? 0))%Z then
    js "0." ++ zeros (Z.to_nat (- n)) ++ ds
  else
    let x := (n - 1)%Z in
    let tail := js "e" ++ (if (x <? 0)%Z then js "-" else js "+")
                ++ decimal (Z.abs_N x) in
    match ds with
    | [d] => [d] ++ tail
    | d :: rest => [d] ++ js "." ++ rest ++ tail
    | [] => tail
    end.

(** [String(n)] for a number.  It is exact as long as the numeral the
    number was read from has at most fifteen significant digits. *)
Definition Number_toString (x : number) : jsstring :=
  match x with
  | NaN => js "NaN"
  | Infinity neg => if neg then js "-Infinity" else js "Infinity"
  | Dec neg m e =>
      if rounds_to_zero m e then js "0"
      else if rounds_to_infinity m e then
        (if neg then js "-Infinity" else js "Infinity")
      else
        let all := decimal m in
        let ds := rev (strip_zeros (rev all)) in
        let n := (Z.of_nat (length all) + e)%Z in
        (if neg then js "-" else []) ++ number_body ds n
  end.

(** *** Text as numbers *)

Definition digit_value (radix : N) (c : N) : option N :=
  let v :=
    if ((48 <=? c) && (c <=? 57))%N then Some (c - 48)%N
    else if ((97 <=? c) && (c <=? 102))%N then Some (c - 87)%N
    else if ((65 <=? c) && (c <=? 70))%N then Some (c - 55)%N
    else None in
  match v with
  | Some d => if (d <? radix)%N then Some d else None
  | None => None
  end.

(** A whole string of digits in the given radix, at least one. *)
Fixpoint read_radix (radix : N) (s : jsstring) (acc : N) : option N :=
  match s with
  | [] => Some acc
  | c :: s' =>
      match digit_value radix c with
      | Some d => read_radix radix s' (acc * radix + d)%N
      | None => None
      end
  end.

Definition non_decimal_radix (c : N) : option N :=
  if ((c =? 120) || (c =? 88))%N then Some 16%N
  else if ((c =? 111) || (c =? 79))%N then Some 8%N
  else if ((c =? 98) || (c =? 66))%N then Some 2%N
  else None.

(** StringToNumber, the conversion [Number(s)] applies to a string. *)
Definition StringToNumber (s : jsstring) : number :=
  let t := trim s in
  match t with
  | [] => Dec false 0 0
  | 48%N :: c :: (_ :: _) as ds =>
      match non_decimal_radix c with
      | Some radix =>
          match read_radix radix ds 0%N with
          | Some v => Dec false v 0
          | None => NaN
          end
      | None =>
          match read_unsigned_decimal t with
          | Some (m, e, []) => Dec false m e
          | _ => NaN
          end
      end
  | _ =>
      let '(neg, t1) := read_sign t in
      if bool_decide (t1 = js "Infinity") then Infinity neg
      else
        match read_unsigned_decimal t1 with
        | Some (m, e, []) => Dec neg m e
        | _ => NaN
        end
  end.

(** *** Scalar values of unknown type *)

Inductive scalar : Type :=
  | SUndefined
  | SNull
  | SBool (b : bool)
  | SNum (n : number)
  | SStr (s : jsstring).

Global Instance scalar_eq_dec : EqDecision scalar.
Proof. solve_decision. Defined.

Definition truthy (v : scalar) : bool :=
  match v with
  | SUndefined | SNull => false
  | SBool b => b
  | SNum n => truthy_number n
  | SStr s => truthy_string s
  end.

(** [a || b] *)
Definition or_else (a b : scalar) : scalar := if truthy a then a else b.

(** [String(v)] *)
Definition String_ (v : scalar) : jsstring :=
  match v with
  | SUndefined => js "undefined"
  | SNull => js "null"
  | SBool true => js "true"
  | SBool false => js "false"
  | SNum n => Number_toString n
  | SStr s => s
  end.

(** [Number(v)] *)
Definition Number_ (v : scalar) : number :=
  match v with
  | SUndefined => NaN
  | SNull => Dec false 0 0
  | SBool true => Dec false 1 0
  | SBool false => Dec false 0 0
  | SNum n => n
  | SStr s => StringToNumber s
  end.

(** An integer as a number. *)
Definition number_of_Z (z : Z) : number := Dec (z <? 0)%Z (Z.abs_N z) 0.

(** *** JSON *)

#[local] Set Warnings "-register-all".

Inductive json : Type :=
  | JNull
  | JBool (b : bool)
  | JNum (n : number)
  | JStr (s : jsstring)
  | JArr (items : list json)
  | JObj (members : list (jsstring * json)).

Definition is_json_ws (c : N) : bool :=
  ((c =? 32) || (c =? 9) || (c =? 10) || (c =? 13))%N.

Fixpoint skip_ws (s : jsstring) : jsstring :=
  match s with
  | c :: s' => if is_json_ws c then skip_ws s' else s
  | [] => []
  end.

Definition hex4 (a b c d : N) : option N :=
  match digit_value 16 a, digit_value 16 b, digit_value 16 c,
        digit_value 16 d with
  | Some x, Some y, Some z, Some w =>
      Some (((x * 16 + y) * 16 + z) * 16 + w)%N
  | _, _, _, _ => None
  end.

(** The characters of a JSON string after its opening quote, up to the
    closing one; [acc] holds, reversed, the code units read so far. *)
Fixpoint parse_chars (s : jsstring) (acc : jsstring)
  : option (jsstring * jsstring) :=
  match s with
  | [] => None
  | c :: rest =>
      if (c =? 34)%N then Some (rev acc, rest)
      else if (c =? 92)%N then
        match rest with
        | [] => None
        | e :: r =>
            if (e =? 34)%N then parse_chars r (34%N :: acc)
            else if (e =? 92)%N then parse_chars r (92%N :: acc)
            else if (e =? 47)%N then parse_chars r (47%N :: acc)
            else if (e =? 98)%N then parse_chars r (8%N :: acc)
            else if (e =? 102)%N then parse_chars r (12%N :: acc)
            else if (e =? 110)%N then parse_chars r (10%N :: acc)
            else if (e =? 114)%N then parse_chars r (13%N :: acc)
            else if (e =? 116)%N then parse_chars r (9%N :: acc)
            else if (e =? 117)%N then
              match r with
              | a :: b :: c' :: d :: r' =>
                  match hex4 a b c' d with
                  | Some u => parse_chars r' (u :: acc)
                  | None => None
                  end
              | _ => None
              end
            else None
        end
      else if (c <? 32)%N then None
      else parse_chars rest (c :: acc)
  end.

(** The digits after the point of a JSON number, at least one. *)
Definition parse_json_fraction (ip : N) (s : jsstring)
  : option (N * Z * jsstring) :=
  match s with
  | c :: s3 =>
      if (c =? 46)%N then
        let '(fp, nf, s4) := read_digits s3 0%N 0%nat in
        if (nf =? 0)%nat then None
        else Some ((ip * 10 ^ N.of_nat nf + fp)%N, (- Z.of_nat nf)%Z, s4)
      else Some (ip, 0%Z, s)
  | [] => Some (ip, 0%Z, s)
  end.

(** The exponent of a JSON number, with at least one digit. *)
Definition parse_json_exponent (s : jsstring) : option (Z * jsstring) :=
  match s with
  | c :: s5 =>
      if ((c =? 101) || (c =? 69))%N then
        let '(eneg, s6) := read_sign s5 in
        let '(v, n, s7) := read_digits s6 0%N 0%nat in
        if (n =? 0)%nat then None
        else Some ((if eneg then - Z.of_N v else Z.of_N v)%Z, s7)
      else Some (0%Z, s)
  | [] => Some (0%Z, s)
  end.

(** A JSON number: an optional minus sign; then a single zero, or a
    non-zero digit and further digits; then optionally a point and at least
    one digit; then optionally an exponent with at least one digit. *)
Definition parse_json_number (s : jsstring) : option (number * jsstring) :=
  let '(neg, s1) :=
    match s with
    | c :: t => if (c =? 45)%N then (true, t) else (false, s)
    | [] => (false, s)
    end in
  let int_part :=
    match s1 with
    | c :: s2 =>
        if (c =? 48)%N then Some (0%N, s2)
        else if is_digit c then
          let '(ip, _, s2') := read_digits s1 0%N 0%nat in Some (ip, s2')
        else None
    | [] => None
    end in
  match int_part with
  | None => None
  | Some (ip, s2) =>
      match parse_json_fraction ip s2 with
      | None => None
      | Some (m, e, s4) =>
          match parse_json_exponent s4 with
          | None => None
          | Some (x, s7) => Some (Dec neg m (e + x)%Z, s7)
          end
      end
  end.

(** A literal name after its first letter. *)
Definition parse_literal (rest_of_name : string) (v : json) (r : jsstring)
  : option (json * jsstring) :=
  match strip_prefix (js rest_of_name) r with
  | Some r' => Some (v, r')
  | None => None
  end.

(** One level of a value: [elements] and [members] read what follows the
    bracket of a non-empty array and the brace of a non-empty object. *)
Definition value_step
    (elements : jsstring → list json → option (json * jsstring))
    (members : jsstring → list (jsstring * json) → option (json * jsstring))
    (s : jsstring) : option (json * jsstring) :=
  match skip_ws s with
  | [] => None
  | c :: r =>
      if (c =? 110)%N then parse_literal "ull" JNull r
      else if (c =? 116)%N then parse_literal "rue" (JBool true) r
      else if (c =? 102)%N then parse_literal "alse" (JBool false) r
      else if (c =? 34)%N then
        match parse_chars r [] with
        | Some (str, r') => Some (JStr str, r')
        | None => None
        end
      else if (c =? 91)%N then
        match skip_ws r with
        | [] => None
        | c' :: r' =>
            if (c' =? 93)%N then Some (JArr [], r') else elements r []
        end
      else if (c =? 123)%N then
        match skip_ws r with
        | [] => None
        | c' :: r' =>
            if (c' =? 125)%N then Some (JObj [], r') else members r []
        end
      else
        match parse_json_number (c :: r) with
        | Some (n, r') => Some (JNum n, r')
        | None => None
        end
  end.

(** One element of an array and what follows it: a comma and the further
    elements, or the closing bracket. *)
Definition elements_step
    (value : jsstring → option (json * jsstring))
    (elements : jsstring → list json → option (json * jsstring))
    (s : jsstring) (acc : list json) : option (json * jsstring) :=
  match value s with
  | Some (v, r) =>
      match skip_ws r with
      | [] => None
      | c :: r' =>
          if (c =? 44)%N then elements r' (v :: acc)
          else if (c =? 93)%N then Some (JArr (rev (v :: acc)), r')
          else None
      end
  | None => None
  end.

(** One member of an object and what follows it. *)
Definition members_step
    (value : jsstring → option (json * jsstring))
    (members : jsstring → list (jsstring * json) → option (json * jsstring))
    (s : jsstring) (acc : list (jsstring * json))
  : option (json * jsstring) :=
  match skip_ws s with
  | [] => None
  | q :: r =>
      if (q =? 34)%N then
        match parse_chars r [] with
        | Some (key, r1) =>
            match skip_ws r1 with
            | [] => None
            | c :: r2 =>
                if (c =? 58)%N then
                  match value r2 with
                  | Some (v, r3) =>
                      match skip_ws r3 with
                      | [] => None
                      | c' :: r4 =>
                          if (c' =? 44)%N then members r4 ((key, v) :: acc)
                          else if (c' =? 125)%N then
                            Some (JObj (rev ((key, v) :: acc)), r4)
                          else None
                      end
                  | None => None
                  end
                else None
            end
        | None => None
        end
      else None
  end.

(** A value, the elements of an array, the members of an object.  [fuel]
    bounds the number of nested calls. *)
Fixpoint parse_value (fuel : nat) (s : jsstring) : option (json * jsstring) :=
  match fuel with
  | O => None
  | S fuel' => value_step (parse_elements fuel') (parse_members fuel') s
  end
with parse_elements (fuel : nat) (s : jsstring) (acc : list json)
  : option (json * jsstring) :=
  match fuel with
  | O => None
  | S fuel' =>
      elements_step (parse_value fuel') (parse_elements fuel') s acc
  end
with parse_members (fuel : nat) (s : jsstring) (acc : list (jsstring * json))
  : option (json * jsstring) :=
  match fuel with
  | O => None
  | S fuel' => members_step (parse_value fuel') (parse_members fuel') s acc
  end.

(** [JSON.parse(s)]; [None] when it throws. *)
Definition JSON_parse (s : jsstring) : option json :=
  match parse_value (2 * length s + 2) s with
  | Some (v, r) => match skip_ws r with [] => Some v | _ => None end
  | None => None
  end.

(** The member of an object with the given name; the last one when the
    text repeated the name. *)
Fixpoint member (k : jsstring) (ms : list (jsstring * json)) : option json :=
  match ms with
  | [] => None
  | (k', v) :: ms' =>
      match member k ms' with
      | Some v' => Some v'
      | None => if bool_decide (k' = k) then Some v else None
      end
  end.

(** What reading a property of a parsed value gives. *)
Inductive read_result : Type :=
  | Threw
  | Undefined
  | Value (v : json).

(** [v.k] for a name [k] that no prototype defines. *)
Definition get_property (v : json) (k : jsstring) : read_result :=
  match v with
  | JNull => Threw
  | JObj ms => match member k ms with Some x => Value x | None => Undefined end
  | _ => Undefined
  end.

Definition truthy_json (v : json) : bool :=
  match v with
  | JNull => false
  | JBool b => b
  | JNum n => truthy_number n
  | JStr s => truthy_string s
  | JArr _ | JObj _ => true
  end.

Definition truthy_read (r : read_result) : bool :=
  match r with
  | Value v => truthy_json v
  | _ => false
  end.

(** The code unit of the double quote. *)
Definition dquote : jsstring := [34%N].

End JS.

(** ** The page merger *)

Module PageMerger.
Import JS.

(** *** Purchase orders and the fill loop *)

Section Fields.

(** What the [articles] property holds: a list of line items when records
    are read as values, a reference to an array when they live in a store. *)
Variable X : Type.

(** Modelled from the spec: the record types [POExtractResponse] and
    [PageExtractResponse] are declared in [@/types/inward], outside the
    sources at hand.  A purchase order has an optional [po_number], six
    optional text fields, four optional numeric fields and its articles. *)
Record POExtractResponse : Type := mkPO {
  po_number : option jsstring;
  supplier_name : option jsstring;
  customer_name : option jsstring;
  source_location : option jsstring;
  destination_location : option jsstring;
  purchased_by : option jsstring;
  currency : option jsstring;
  total_amount : option number;
  tax_amount : option number;
  discount_amount : option number;
  po_quantity : option number;
  articles : X
}.

(** [keyof POExtractResponse], as far as [fillFields] uses it. *)
Inductive field : Type :=
  | f_supplier_name | f_customer_name | f_source_location
  | f_destination_location | f_purchased_by | f_currency
  | f_total_amount | f_tax_amount | f_discount_amount | f_po_quantity.

Global Instance field_eq_dec : EqDecision field.
Proof. solve_decision. Defined.

Definition fillFields : list field :=
  [ f_supplier_name; f_customer_name; f_source_location;
    f_destination_location; f_purchased_by; f_currency;
    f_total_amount; f_tax_amount; f_discount_amount; f_po_quantity ].

(** The value of a fill field: text or number, each possibly absent. *)
Inductive field_value : Type :=
  | FText (v : option jsstring)
  | FNumber (v : option number).

(** [po[f]] *)
Definition get_field (f : field) (po : POExtractResponse) : field_value :=
  match f with
  | f_supplier_name => FText (supplier_name po)
  | f_customer_name => FText (customer_name po)
  | f_source_location => FText (source_location po)
  | f_destination_location => FText (destination_location po)
  | f_purchased_by => FText (purchased_by po)
  | f_currency => FText (currency po)
  | f_total_amount => FNumber (total_amount po)
  | f_tax_amount => FNumber (tax_amount po)
  | f_discount_amount => FNumber (discount_amount po)
  | f_po_quantity => FNumber (po_quantity po)
  end.

Definition truthy_value (v : field_value) : bool :=
  match v with
  | FText s => truthy_ostring s
  | FNumber n => truthy_onumber n
  end.

(** What the loop leaves in a field: the entry's value when the record's
    was falsy and the entry's is truthy, the record's own value otherwise. *)
Definition filled_value (ve vp : field_value) : field_value :=
  if negb (truthy_value ve) && truthy_value vp then vp else ve.

(** [existing[f] = po[f]] *)
Definition assign_field (f : field) (existing po : POExtractResponse)
  : POExtractResponse :=
  let e := existing in
  match f with
  | f_supplier_name =>
      mkPO (po_number e) (supplier_name po) (customer_name e)
        (source_location e) (destination_location e) (purchased_by e)
        (currency e) (total_amount e) (tax_amount e) (discount_amount e)
        (po_quantity e) (articles e)
  | f_customer_name =>
      mkPO (po_number e) (supplier_name e) (customer_name po)
        (source_location e) (destination_location e) (purchased_by e)
        (currency e) (total_amount e) (tax_amount e) (discount_amount e)
        (po_quantity e) (articles e)
  | f_source_location =>
      mkPO (po_number e) (supplier_name e) (customer_name e)
        (source_location po) (destination_location e) (purchased_by e)
        (currency e) (total_amount e) (tax_amount e) (discount_amount e)
        (po_quantity e) (articles e)
  | f_destination_location =>
      mkPO (po_number e) (supplier_name e) (customer_name e)
        (source_location e) (destination_location po) (purchased_by e)
        (currency e) (total_amount e) (tax_amount e) (discount_amount e)
        (po_quantity e) (articles e)
  | f_purchased_by =>
      mkPO (po_number e) (supplier_name e) (customer_name e)
        (source_location e) (destination_location e) (purchased_by po)
        (currency e) (total_amount e) (tax_amount e) (discount_amount e)
        (po_quantity e) (articles e)
  | f_currency =>
      mkPO (po_number e) (supplier_name e) (customer_name e)
        (source_location e) (destination_location e) (purchased_by e)
        (currency po) (total_amount e) (tax_amount e) (discount_amount e)
        (po_quantity e) (articles e)
  | f_total_amount =>
      mkPO (po_number e) (supplier_name e) (customer_name e)
        (source_location e) (destination_location e) (purchased_by e)
        (currency e) (total_amount po) (tax_amount e) (discount_amount e)
        (po_quantity e) (articles e)
  | f_tax_amount =>
      mkPO (po_number e) (supplier_name e) (customer_name e)
        (source_location e) (destination_location e) (purchased_by e)
        (currency e) (total_amount e) (tax_amount po) (discount_amount e)
        (po_quantity e) (articles e)
  | f_discount_amount =>
      mkPO (po_number e) (supplier_name e) (customer_name e)
        (source_location e) (destination_location e) (purchased_by e)
        (currency e) (total_amount e) (tax_amount e) (discount_amount po)
        (po_quantity e) (articles e)
  | f_po_quantity =>
      mkPO (po_number e) (supplier_name e) (customer_name e)
        (source_location e) (destination_location e) (purchased_by e)
        (currency e) (total_amount e) (tax_amount e) (discount_amount e)
        (po_quantity po) (articles e)
  end.

(** [existing.articles = a], also the [articles: a] of an object spread. *)
Definition set_articles (existing : POExtractResponse) (a : X)
  : POExtractResponse :=
  let e := existing in
  mkPO (po_number e) (supplier_name e) (customer_name e)
    (source_location e) (destination_location e) (purchased_by e)
    (currency e) (total_amount e) (tax_amount e) (discount_amount e)
    (po_quantity e) a.

(** One turn of [for (const f of fillFields)]:
    [if (!existing[f] && po[f]) existing[f] = po[f]]. *)
Definition fill_one (po existing : POExtractResponse) (f : field)
  : POExtractResponse :=
  if negb (truthy_value (get_field f existing)) && truthy_value (get_field f po)
  then assign_field f existing po
  else existing.

Definition fill (existing po : POExtractResponse) : POExtractResponse :=
  fold_left (fill_one po) fillFields existing.

(** [po.po_number?.trim() || null] *)
Definition poNum_of (po : POExtractResponse) : option jsstring :=
  match po_number po with
  | Some s => if truthy_string (trim s) then Some (trim s) else None
  | None => None
  end.

(** [poNum in seenPONumbers]: own keys, and the keys every object inherits. *)
Definition key_in (k : jsstring) (seen : gmap jsstring nat) : bool :=
  bool_decide (is_Some (seen !! k)) || inObjectPrototype k.

(** [seenPONumbers[poNum] = n].  Assigning a number to [__proto__] goes to
    the inherited setter, which ignores it. *)
Definition key_set (k : jsstring) (n : nat) (seen : gmap jsstring nat)
  : gmap jsstring nat :=
  if bool_decide (k = js "__proto__") then seen else <[k := n]> seen.

End Fields.

Arguments mkPO {X}.
Arguments po_number {X}.
Arguments supplier_name {X}.
Arguments customer_name {X}.
Arguments source_location {X}.
Arguments destination_location {X}.
Arguments purchased_by {X}.
Arguments currency {X}.
Arguments total_amount {X}.
Arguments tax_amount {X}.
Arguments discount_amount {X}.
Arguments po_quantity {X}.
Arguments articles {X}.
Arguments get_field {X}.
Arguments assign_field {X}.
Arguments set_articles {X}.
Arguments fill_one {X}.
Arguments fill {X}.
Arguments poNum_of {X}.

(** The same record with another value, possibly of another kind, for its
    [articles]. *)
Definition with_articles {X Y : Type} (e : POExtractResponse X) (a : Y)
  : POExtractResponse Y :=
  mkPO (po_number e) (supplier_name e) (customer_name e)
    (source_location e) (destination_location e) (purchased_by e)
    (currency e) (total_amount e) (tax_amount e) (discount_amount e)
    (po_quantity e) a.

(** *** [mergePageResults] on records read as values *)

Section Merge.

(** The extracted line items are carried around and never inspected. *)
Variable ArticleExtract : Type.

Abbreviation PO := (POExtractResponse (option (list ArticleExtract))).

Record PageExtractResponse : Type := mkPage {
  job_id : jsstring;
  page_num : nat;
  total_pages : nat;
  purchase_orders : option (list PO)
}.

(** [po.articles || []] *)
Definition articles_of (po : PO) : list ArticleExtract :=
  default [] (articles po).

(** The two locals of [mergePageResults]. *)
Record merge_state : Type := mkState {
  allPOs : list PO;
  seenPONumbers : gmap jsstring nat
}.

(** The merge of an entry into the record it continues:
    [existing.articles = [...(existing.articles || []), ...articles]]
    followed by the fill loop. *)
Definition merge_into (existing po : PO) : PO :=
  fill (set_articles existing (Some (articles_of existing ++ articles_of po)))
       po.

(** [{ ...po, articles: [...articles] }] *)
Definition fresh_copy (po : PO) : PO :=
  set_articles po (Some (articles_of po)).

(** The body of the inner loop for one entry.  [None] is the [TypeError]
    raised by [existing.articles] when [allPOs[seenPONumbers[poNum]]] is
    [undefined]. *)
Definition merge_po (st : merge_state) (po : PO) : option merge_state :=
  let poNum := poNum_of po in
  let arts := articles_of po in
  match poNum with
  | None =>
      if (length arts =? 0)%nat then Some st
      else if (0 <? length (allPOs st))%nat then
        let i := (length (allPOs st) - 1)%nat in
        match allPOs st !! i with
        | Some prev =>
            Some (mkState (<[i := merge_into prev po]> (allPOs st))
                          (seenPONumbers st))
        | None => None
        end
      else Some (mkState (allPOs st ++ [fresh_copy po]) (seenPONumbers st))
  | Some k =>
      if key_in k (seenPONumbers st) then
        match seenPONumbers st !! k with
        | Some i =>
            match allPOs st !! i with
            | Some existing =>
                Some (mkState (<[i := merge_into existing po]> (allPOs st))
                              (seenPONumbers st))
            | None => None
            end
        | None => None
        end
      else
        Some (mkState (allPOs st ++ [fresh_copy po])
                      (key_set k (length (allPOs st)) (seenPONumbers st)))
  end.

(** [for (const po of page.purchase_orders)] *)
Fixpoint merge_pos (st : merge_state) (pos : list PO) : option merge_state :=
  match pos with
  | [] => Some st
  | po :: rest =>
      match merge_po st po with
      | Some st' => merge_pos st' rest
      | None => None
      end
  end.

(** One turn of the outer loop; a page without purchase orders is skipped. *)
Definition merge_page (st : merge_state) (page : PageExtractResponse)
  : option merge_state :=
  match purchase_orders page with
  | None => Some st
  | Some pos => if (length pos =? 0)%nat then Some st else merge_pos st pos
  end.

Fixpoint merge_pages (st : merge_state) (pages : list PageExtractResponse)
  : option merge_state :=
  match pages with
  | [] => Some st
  | page :: rest =>
      match merge_page st page with
      | Some st' => merge_pages st' rest
      | None => None
      end
  end.

Definition initial_state : merge_state := mkState [] ∅.

(** [mergePageResults(pageResults).purchase_orders]; [None] when the call
    throws. *)
Definition mergePageResults (pageResults : list PageExtractResponse)
  : option (list PO) :=
  allPOs <$> merge_pages initial_state pageResults.

End Merge.

Abbreviation PO A := (POExtractResponse (option (list A))).


Arguments mkPage {ArticleExtract}.
Arguments job_id {ArticleExtract}.
Arguments page_num {ArticleExtract}.
Arguments total_pages {ArticleExtract}.
Arguments purchase_orders {ArticleExtract}.
Arguments articles_of {ArticleExtract}.
Arguments mkState {ArticleExtract}.
Arguments allPOs {ArticleExtract}.
Arguments seenPONumbers {ArticleExtract}.
Arguments merge_into {ArticleExtract}.
Arguments fresh_copy {ArticleExtract}.
Arguments merge_po {ArticleExtract}.
Arguments merge_pos {ArticleExtract}.
Arguments merge_page {ArticleExtract}.
Arguments merge_pages {ArticleExtract}.
Arguments initial_state {ArticleExtract}.
Arguments mergePageResults {ArticleExtract}.

(** *** Vocabulary of the statements about the merger *)

Section MergeVocabulary.
Context {A : Type}.

(** [merged] is [existing] continued by the entry [po]: same [po_number],
    the entry's articles after the record's own, and every fill field
    taken from the entry only where the record's value was falsy. *)
Definition continues (existing po merged : PO A) : Prop :=
  po_number merged = po_number existing
  ∧ articles merged = Some (articles_of existing ++ articles_of po)
  ∧ ∀ f, get_field f merged
         = filled_value (get_field f existing) (get_field f po).

(** What holds of the two locals whenever the inner loop starts a turn. *)
Record merge_inv (st : merge_state A) : Prop := mkInv {
  inv_seen : ∀ k i, seenPONumbers st !! k = Some i →
    ∃ p, allPOs st !! i = Some p ∧ poNum_of p = Some k;
  inv_keyed : ∀ i p k, allPOs st !! i = Some p → poNum_of p = Some k →
    seenPONumbers st !! k = Some i;
  inv_orphan : ∀ i p, allPOs st !! i = Some p → poNum_of p = None →
    i = 0%nat ∧ articles_of p ≠ [];
  inv_articles : ∀ i p, allPOs st !! i = Some p → is_Some (articles p);
  inv_proto : ∀ k, is_Some (seenPONumbers st !! k) →
    inObjectPrototype k = false
}.

(** The five ways a turn of the inner loop can end without throwing. *)
Inductive turn (st : merge_state A) (po : PO A) : merge_state A → Prop :=
  | turn_skip :
      poNum_of po = None → articles_of po = [] → turn st po st
  | turn_continue_last prev :
      poNum_of po = None → articles_of po ≠ [] →
      allPOs st !! (length (allPOs st) - 1)%nat = Some prev →
      turn st po
        (mkState (<[(length (allPOs st) - 1)%nat := merge_into prev po]>
                    (allPOs st)) (seenPONumbers st))
  | turn_first_orphan :
      poNum_of po = None → articles_of po ≠ [] → allPOs st = [] →
      turn st po (mkState [fresh_copy po] (seenPONumbers st))
  | turn_same_key k i existing :
      poNum_of po = Some k → seenPONumbers st !! k = Some i →
      allPOs st !! i = Some existing →
      turn st po
        (mkState (<[i := merge_into existing po]> (allPOs st))
                 (seenPONumbers st))
  | turn_new_key k :
      poNum_of po = Some k → seenPONumbers st !! k = None →
      inObjectPrototype k = false →
      turn st po
        (mkState (allPOs st ++ [fresh_copy po])
                 (<[k := length (allPOs st)]> (seenPONumbers st))).

(** The entries the two loops visit, in the order they visit them. *)
Definition entries (pages : list (PageExtractResponse A)) : list (PO A) :=
  flat_map (λ page, default [] (purchase_orders page)) pages.

(** Each merged purchase order as a page of its own. *)
Definition singleton_pages (wrapped : list (PageExtractResponse A))
    (out : list (PO A)) : Prop :=
  Forall2 (λ page po, purchase_orders page = Some [po]) wrapped out.

End MergeVocabulary.

(** *** Sample purchase orders

    Line items are stood for by their descriptions. *)

Definition sample_po (number supplier : option jsstring)
    (items : option (list jsstring)) : PO jsstring :=
  mkPO number supplier None None None None None None None None None items.

Definition sample_page (n : nat) (pos : list (PO jsstring))
  : PageExtractResponse jsstring :=
  mkPage (js "job") n 2 (Some pos).

(** Page 1: order PO1 of Acme with one article. *)
Definition po_acme : PO jsstring :=
  sample_po (Some (js "PO1")) (Some (js "Acme")) (Some [js "bolt"]).

(** Page 2: order PO1 again, naming another supplier, two more articles. *)
Definition po_other : PO jsstring :=
  sample_po (Some (js " PO1 ")) (Some (js "Other"))
    (Some [js "nut"; js "washer"]).

(** An order without a supplier, with one article. *)
Definition po_bare : PO jsstring :=
  sample_po (Some (js "PO1")) None (Some [js "bolt"]).

(** A continuation entry: no number, two articles. *)
Definition po_continuation : PO jsstring :=
  sample_po None (Some (js "Acme")) (Some [js "nut"; js "washer"]).

(** An entry with neither a number nor articles, naming a supplier. *)
Definition po_supplier_only : PO jsstring :=
  sample_po None (Some (js "Acme")) (Some []).

(** The locals after the first page [[po_bare]]. *)
Definition state_after_bare : merge_state jsstring :=
  mkState [po_bare] {[ js "PO1" := 0 ]}.

(** The locals after the first page [[po_acme]]. *)
Definition state_after_acme : merge_state jsstring :=
  mkState [po_acme] {[ js "PO1" := 0 ]}.

(** *** [mergePageResults] on records that live in a store

    Here the pages, the purchase orders, the arrays and the line items are
    objects in a store, held by reference, and the assignments of the source
    are writes to the store.  This is the reading of the function on which
    "does not change its argument" says something. *)

Abbreviation loc := positive.

Section Store.

(** What a line-item object holds; the function never looks inside. *)
Variable A : Type.

Record page_object : Type := mkPageObject {
  o_job_id : jsstring;
  o_page_num : nat;
  o_total_pages : nat;
  o_purchase_orders : option loc
}.

Inductive object : Type :=
  | OArticle (a : A)
  | OArray (elems : list loc)
  | OPO (po : POExtractResponse (option loc))
  | OPage (page : page_object).

(** A computation reads and writes the store and may throw; the store
    survives a throw. *)
Definition M (R : Type) : Type := gmap loc object → option R * gmap loc object.

Definition ret {R} (r : R) : M R := λ h, (Some r, h).

Definition throw {R} : M R := λ h, (None, h).

Definition bind {R S} (m : M R) (k : R → M S) : M S :=
  λ h, match m h with
       | (Some r, h') => k r h'
       | (None, h') => (None, h')
       end.

Notation "'let*' x ':=' m 'in' k" := (bind m (λ x, k))
  (at level 10, x name, m at level 100, k at level 200, only parsing).

(** A new object, at a location the store does not use yet. *)
Definition alloc (o : object) : M loc :=
  λ h, let l := fresh (dom h) in (Some l, <[l := o]> h).

(** Overwrites the object at [l]. *)
Definition write (l : loc) (o : object) : M unit :=
  λ h, (Some tt, <[l := o]> h).

Definition read_po (l : loc) : M (POExtractResponse (option loc)) :=
  λ h, match h !! l with
       | Some (OPO po) => (Some po, h)
       | _ => (None, h)
       end.

Definition read_page (l : loc) : M page_object :=
  λ h, match h !! l with
       | Some (OPage page) => (Some page, h)
       | _ => (None, h)
       end.

Definition read_array (l : loc) : M (list loc) :=
  λ h, match h !! l with
       | Some (OArray elems) => (Some elems, h)
       | _ => (None, h)
       end.

(** The elements of [r || []]. *)
Definition elems_or_empty (r : option loc) : M (list loc) :=
  match r with
  | Some l => read_array l
  | None => ret []
  end.

(** The fill loop, on the two objects themselves. *)
Fixpoint fill_s (existing po : loc) (fs : list field) : M unit :=
  match fs with
  | [] => ret tt
  | f :: fs' =>
      let* e := read_po existing in
      let* p := read_po po in
      let* _ := (if negb (truthy_value (get_field f e))
                    && truthy_value (get_field f p)
                 then write existing (OPO (assign_field f e p))
                 else ret tt) in
      fill_s existing po fs'
  end.

(** [existing.articles = [...(existing.articles || []), ...articles]] and
    the fill loop. *)
Definition merge_into_s (existing po : loc) : M unit :=
  let* e := read_po existing in
  let* p := read_po po in
  let* old := elems_or_empty (articles e) in
  let* new := elems_or_empty (articles p) in
  let* a := alloc (OArray (old ++ new)) in
  let* _ := write existing (OPO (set_articles e (Some a))) in
  fill_s existing po fillFields.

(** [{ ...po, articles: [...articles] }] *)
Definition fresh_copy_s (po : loc) : M loc :=
  let* p := read_po po in
  let* new := elems_or_empty (articles p) in
  let* a := alloc (OArray new) in
  alloc (OPO (set_articles p (Some a))).

(** The two locals: [allPOs] holds references. *)
Record locals : Type := mkLocals {
  allPOs_s : list loc;
  seenPONumbers_s : gmap jsstring nat
}.

Definition merge_po_s (st : locals) (po : loc) : M locals :=
  let* p := read_po po in
  let* arts := elems_or_empty (articles p) in
  match poNum_of p with
  | None =>
      if (length arts =? 0)%nat then ret st
      else if (0 <? length (allPOs_s st))%nat then
        match allPOs_s st !! (length (allPOs_s st) - 1)%nat with
        | Some prev =>
            let* _ := merge_into_s prev po in
            ret st
        | None => throw
        end
      else
        let* c := fresh_copy_s po in
        ret (mkLocals (allPOs_s st ++ [c]) (seenPONumbers_s st))
  | Some k =>
      if key_in k (seenPONumbers_s st) then
        match seenPONumbers_s st !! k with
        | Some i =>
            match allPOs_s st !! i with
            | Some existing =>
                let* _ := merge_into_s existing po in
                ret st
            | None => throw
            end
        | None => throw
        end
      else
        let* c := fresh_copy_s po in
        ret (mkLocals (allPOs_s st ++ [c])
                      (key_set k (length (allPOs_s st)) (seenPONumbers_s st)))
  end.

Fixpoint merge_pos_s (st : locals) (pos : list loc) : M locals :=
  match pos with
  | [] => ret st
  | po :: rest =>
      let* st' := merge_po_s st po in
      merge_pos_s st' rest
  end.

Definition merge_page_s (st : locals) (page : loc) : M locals :=
  let* pg := read_page page in
  match o_purchase_orders pg with
  | None => ret st
  | Some a =>
      let* pos := read_array a in
      if (length pos =? 0)%nat then ret st else merge_pos_s st pos
  end.

Fixpoint merge_pages_s (st : locals) (pages : list loc) : M locals :=
  match pages with
  | [] => ret st
  | page :: rest =>
      let* st' := merge_page_s st page in
      merge_pages_s st' rest
  end.

(** The call [mergePageResults(pageResults)]: the references that the
    returned [purchase_orders] array holds, or [None] for a throw, and the
    store the call leaves behind. *)
Definition mergePageResults_s (pageResults : loc) : M (list loc) :=
  let* pages := read_array pageResults in
  let* st := merge_pages_s (mkLocals [] ∅) pages in
  ret (allPOs_s st).

(** **** Reading the store back as values *)

Definition load_article (h : gmap loc object) (l : loc) : option A :=
  match h !! l with
  | Some (OArticle a) => Some a
  | _ => None
  end.

Definition load_array (h : gmap loc object) (l : loc) : option (list loc) :=
  match h !! l with
  | Some (OArray elems) => Some elems
  | _ => None
  end.

Definition load_articles (h : gmap loc object) (r : option loc)
  : option (option (list A)) :=
  match r with
  | None => Some None
  | Some l =>
      match load_array h l with
      | Some elems => Some <$> mapM (load_article h) elems
      | None => None
      end
  end.

Definition load_po (h : gmap loc object) (l : loc) : option (PO A) :=
  match h !! l with
  | Some (OPO p) => with_articles p <$> load_articles h (articles p)
  | _ => None
  end.

Definition load_page (h : gmap loc object) (l : loc)
  : option (PageExtractResponse A) :=
  match h !! l with
  | Some (OPage pg) =>
      match o_purchase_orders pg with
      | None =>
          Some (mkPage (o_job_id pg) (o_page_num pg) (o_total_pages pg) None)
      | Some a =>
          match load_array h a with
          | Some elems =>
              (λ pos, mkPage (o_job_id pg) (o_page_num pg) (o_total_pages pg)
                        (Some pos))
                <$> mapM (load_po h) elems
          | None => None
          end
      end
  | _ => None
  end.

Definition load_pages (h : gmap loc object) (pageResults : loc)
  : option (list (PageExtractResponse A)) :=
  match load_array h pageResults with
  | Some elems => mapM (load_page h) elems
  | None => None
  end.

(** **** Specifications of computations against a store [h0]

    [m] keeps [h0] when, started in a store that extends [h0], it ends in
    one that still does; [post] is what then holds of a returned result. *)
Definition keeps {R} (h0 : gmap loc object) (m : M R) (post : R → Prop)
  : Prop :=
  ∀ h, h0 ⊆ h →
    h0 ⊆ (m h).2 ∧ ∀ r, (m h).1 = Some r → post r.

(** References that did not exist in [h0]. *)
Definition new_in (h0 : gmap loc object) (ls : list loc) : Prop :=
  ∀ l, l ∈ ls → h0 !! l = None.

(** **** The run on the store against the run on values *)

Definition is_po (o : object) : Prop :=
  match o with OPO _ => True | _ => False end.

(** [h'] has every object of [h] that is not a purchase order, and the one
    at [l]. *)
Definition agree_for (l : loc) (h h' : gmap loc object) : Prop :=
  ∀ l' o, h !! l' = Some o → l' = l ∨ ¬ is_po o → h' !! l' = Some o.

(** The locals of the run on the store [h], started in [h0], stand for the
    locals of the run on values. *)
Record sim (h0 h : gmap loc object) (sts : locals) (stv : merge_state A)
  : Prop := mkSim {
  sim_seen : seenPONumbers_s sts = seenPONumbers stv;
  sim_pos : Forall2 (λ l p, load_po h l = Some p) (allPOs_s sts) (allPOs stv);
  sim_nodup : NoDup (allPOs_s sts);
  sim_new : new_in h0 (allPOs_s sts);
  sim_ext : h0 ⊆ h
}.

(** The outcome of a step on the store matches the outcome on values. *)
Definition sim_result (h0 : gmap loc object)
    (r : option locals * gmap loc object) (v : option (merge_state A))
  : Prop :=
  match r.1, v with
  | Some sts', Some stv' => sim h0 r.2 sts' stv'
  | None, None => h0 ⊆ r.2
  | _, _ => False
  end.

End Store.

Arguments OArticle {A}.
Arguments OArray {A}.
Arguments OPO {A}.
Arguments OPage {A}.
Arguments ret {A R}.
Arguments throw {A R}.
Arguments bind {A R S}.
Arguments alloc {A}.
Arguments write {A}.
Arguments read_po {A}.
Arguments read_page {A}.
Arguments read_array {A}.
Arguments elems_or_empty {A}.
Arguments fill_s {A}.
Arguments merge_into_s {A}.
Arguments fresh_copy_s {A}.
Arguments merge_po_s {A}.
Arguments merge_pos_s {A}.
Arguments merge_page_s {A}.
Arguments merge_pages_s {A}.
Arguments mergePageResults_s {A}.
Arguments load_article {A}.
Arguments load_array {A}.
Arguments load_articles {A}.
Arguments load_po {A}.
Arguments load_page {A}.
Arguments load_pages {A}.
Arguments keeps {A R}.
Arguments new_in {A}.
Arguments is_po {A}.
Arguments agree_for {A}.
Arguments sim {A}.
Arguments sim_result {A}.

(** *** A sample store

    Two pages, each with one purchase order numbered PO1 and one article. *)

Definition sample_store : gmap loc (object jsstring) :=
  list_to_map
    [ (1%positive, OArticle (js "bolt"));
      (2%positive, OArticle (js "nut"));
      (3%positive, OArray [1%positive]);
      (4%positive, OArray [2%positive]);
      (5%positive,
       OPO (mkPO (Some (js "PO1")) (Some (js "Acme")) None None None None
              None None None None None (Some 3%positive)));
      (6%positive,
       OPO (mkPO (Some (js " PO1 ")) (Some (js "Other")) (Some (js "Shop"))
              None None None None None None None None (Some 4%positive)));
      (7%positive, OArray [5%positive]);
      (8%positive, OArray [6%positive]);
      (9%positive, OPage (mkPageObject (js "job") 1 2 (Some 7%positive)));
      (10%positive, OPage (mkPageObject (js "job") 2 2 (Some 8%positive)));
      (11%positive, OArray [9%positive; 10%positive]) ].

End PageMerger.

(** ** The transfer-in page *)

Module TransferIn.
Import JS.

(** *** What the transfer lookup returns

    Modelled from the spec: the page types the response as [any].  A box
    has a numeric [id]; the other properties of boxes, article lines and
    the transfer are scalars of unknown type, absent ones being
    [SUndefined]. *)

Module Box.
Record t : Type := mk {
  id : Z;
  box_id : scalar;
  box_number : scalar;
  article : scalar;
  batch_number : scalar;
  lot_number : scalar;
  transaction_no : scalar;
  net_weight : scalar;
  gross_weight : scalar
}.
End Box.

Module Line.
Record t : Type := mk {
  item_desc_raw : scalar;
  item_description : scalar;
  batch_number : scalar;
  lot_number : scalar;
  net_weight : scalar;
  total_weight : scalar;
  qty : scalar;
  quantity : scalar
}.
End Line.

Module Transfer.
Record t : Type := mk {
  id : scalar;
  transfer_no : scalar;
  challan_no : scalar;
  to_warehouse : scalar;
  to_site_code : scalar;
  boxes : option (list Box.t);
  lines : option (list Line.t)
}.
End Transfer.

(** *** The state of the page *)

(** A value of [linesIssueMap]. *)
Module Issue.
Record t : Type := mk {
  actual_qty : number;
  actual_total_weight : number;
  remarks : jsstring
}.
End Issue.

(** [issueForm] *)
Module IssueForm.
Record t : Type := mk {
  actual_qty : jsstring;
  actual_total_weight : jsstring;
  remarks : jsstring
}.
Definition blank : t := mk [] [] [].
End IssueForm.

Record State : Type := mkPageState {
  transferNumber : json;
  loading : bool;
  transferData : option Transfer.t;
  showScanner : bool;
  boxesMatchMap : gmap Z bool;
  linesMatchMap : gmap nat bool;
  linesIssueMap : gmap nat Issue.t;
  issueOpenIndex : option nat;
  issueForm : IssueForm.t;
  boxCondition : jsstring;
  conditionRemarks : jsstring
}.

(** The state after the [useState] calls of the first render. *)
Definition initial : State :=
  mkPageState (JStr []) false None false ∅ ∅ ∅ None IssueForm.blank
          (js "Good") [].

Definition set_transferNumber (v : json) (s : State) : State :=
  mkPageState v (loading s) (transferData s) (showScanner s) (boxesMatchMap s)
    (linesMatchMap s) (linesIssueMap s) (issueOpenIndex s) (issueForm s)
    (boxCondition s) (conditionRemarks s).

Definition set_loading (v : bool) (s : State) : State :=
  mkPageState (transferNumber s) v (transferData s) (showScanner s)
    (boxesMatchMap s) (linesMatchMap s) (linesIssueMap s) (issueOpenIndex s)
    (issueForm s) (boxCondition s) (conditionRemarks s).

Definition set_transferData (v : option Transfer.t) (s : State) : State :=
  mkPageState (transferNumber s) (loading s) v (showScanner s) (boxesMatchMap s)
    (linesMatchMap s) (linesIssueMap s) (issueOpenIndex s) (issueForm s)
    (boxCondition s) (conditionRemarks s).

Definition set_showScanner (v : bool) (s : State) : State :=
  mkPageState (transferNumber s) (loading s) (transferData s) v (boxesMatchMap s)
    (linesMatchMap s) (linesIssueMap s) (issueOpenIndex s) (issueForm s)
    (boxCondition s) (conditionRemarks s).

Definition set_boxesMatchMap (v : gmap Z bool) (s : State) : State :=
  mkPageState (transferNumber s) (loading s) (transferData s) (showScanner s) v
    (linesMatchMap s) (linesIssueMap s) (issueOpenIndex s) (issueForm s)
    (boxCondition s) (conditionRemarks s).

Definition set_linesMatchMap (v : gmap nat bool) (s : State) : State :=
  mkPageState (transferNumber s) (loading s) (transferData s) (showScanner s)
    (boxesMatchMap s) v (linesIssueMap s) (issueOpenIndex s) (issueForm s)
    (boxCondition s) (conditionRemarks s).

Definition set_linesIssueMap (v : gmap nat Issue.t) (s : State) : State :=
  mkPageState (transferNumber s) (loading s) (transferData s) (showScanner s)
    (boxesMatchMap s) (linesMatchMap s) v (issueOpenIndex s) (issueForm s)
    (boxCondition s) (conditionRemarks s).

Definition set_issueOpenIndex (v : option nat) (s : State) : State :=
  mkPageState (transferNumber s) (loading s) (transferData s) (showScanner s)
    (boxesMatchMap s) (linesMatchMap s) (linesIssueMap s) v (issueForm s)
    (boxCondition s) (conditionRemarks s).

Definition set_issueForm (v : IssueForm.t) (s : State) : State :=
  mkPageState (transferNumber s) (loading s) (transferData s) (showScanner s)
    (boxesMatchMap s) (linesMatchMap s) (linesIssueMap s) (issueOpenIndex s)
    v (boxCondition s) (conditionRemarks s).

Definition set_boxCondition (v : jsstring) (s : State) : State :=
  mkPageState (transferNumber s) (loading s) (transferData s) (showScanner s)
    (boxesMatchMap s) (linesMatchMap s) (linesIssueMap s) (issueOpenIndex s)
    (issueForm s) v (conditionRemarks s).

Definition set_conditionRemarks (v : jsstring) (s : State) : State :=
  mkPageState (transferNumber s) (loading s) (transferData s) (showScanner s)
    (boxesMatchMap s) (linesMatchMap s) (linesIssueMap s) (issueOpenIndex s)
    (issueForm s) (boxCondition s) v.

(** *** Derived state *)

(** [l.filter((x, i) => f(x, i))], the index starting at [i]. *)
Fixpoint filteri_from {T : Type} (f : T → nat → bool) (i : nat) (l : list T)
  : list T :=
  match l with
  | [] => []
  | x :: l' =>
      if f x i then x :: filteri_from f (S i) l'
      else filteri_from f (S i) l'
  end.

Definition filteri {T : Type} (f : T → nat → bool) (l : list T) : list T :=
  filteri_from f 0 l.

(** [transferData?.boxes || []] *)
Definition boxes (s : State) : list Box.t :=
  match transferData s with
  | Some t => default [] (Transfer.boxes t)
  | None => []
  end.

(** [transferData?.lines || []] *)
Definition lines (s : State) : list Line.t :=
  match transferData s with
  | Some t => default [] (Transfer.lines t)
  | None => []
  end.

Definition totalBoxes (s : State) : nat := length (boxes s).
Definition totalLines (s : State) : nat := length (lines s).
Definition totalItems (s : State) : nat := totalBoxes s + totalLines s.

(** [!!boxesMatchMap[id]] *)
Definition box_matched (s : State) (id : Z) : bool :=
  default false (boxesMatchMap s !! id).

(** [!!linesMatchMap[i]] *)
Definition line_matched (s : State) (i : nat) : bool :=
  default false (linesMatchMap s !! i).

(** [!!linesIssueMap[i]] *)
Definition line_issued (s : State) (i : nat) : bool :=
  bool_decide (is_Some (linesIssueMap s !! i)).

Definition matchedBoxes (s : State) : nat :=
  length (List.filter (λ b, box_matched s (Box.id b)) (boxes s)).

Definition matchedLines (s : State) : nat :=
  length (filteri (λ _ i, line_matched s i) (lines s)).

Definition issuedLines (s : State) : nat :=
  length (filteri (λ _ i, line_issued s i) (lines s)).

Definition resolvedLines (s : State) : nat := matchedLines s + issuedLines s.

Definition totalMatched (s : State) : nat := matchedBoxes s + resolvedLines s.

Definition allMatched (s : State) : bool :=
  (0 <? totalItems s)%nat && (totalMatched s =? totalItems s)%nat.

(** The [disabled] attribute of the confirm button. *)
Definition confirm_disabled (s : State) : bool :=
  loading s || (totalItems s =? 0)%nat || negb (allMatched s).

(** The property name under which a box is grouped:
    [b.article || "Unknown Article"]. *)
Definition article_key (b : Box.t) : jsstring :=
  String_ (or_else (Box.article b) (SStr (js "Unknown Article"))).

(** [groupedBoxes]: the boxes under each article name, in their order. *)
Definition groupedBoxes (s : State) : gmap jsstring (list Box.t) :=
  match transferData s with
  | Some t =>
      match Transfer.boxes t with
      | Some bs =>
          fold_left
            (λ groups b,
               <[article_key b :=
                   default [] (groups !! article_key b) ++ [b]]> groups)
            bs ∅
      | None => ∅
      end
  | None => ∅
  end.

(** *** What the handlers do besides updating the state *)

(** One record of [scanned_boxes]. *)
Inductive issue_property : Type :=
  | issue_absent
  | issue_null
  | issue_object (actual_qty actual_total_weight : number)
      (remarks : option jsstring).

Module Scanned.
Record t : Type := mk {
  box_number : jsstring;
  transfer_out_box_id : option Z;
  article : scalar;
  batch_number : scalar;
  lot_number : scalar;
  transaction_no : scalar;
  net_weight : option number;
  gross_weight : option number;
  is_matched : bool;
  issue : issue_property
}.
End Scanned.

(** The body of the request [createTransferIn] sends. *)
Module Receipt.
Record t : Type := mk {
  transfer_out_id : scalar;
  grn_number : jsstring;
  receiving_warehouse : scalar;
  received_by : jsstring;
  box_condition : jsstring;
  condition_remarks : option jsstring;
  scanned_boxes : list Scanned.t
}.
End Receipt.

(** Toasts are kept by title and variant; their descriptions are not
    modelled. *)
Inductive effect : Type :=
  | Toast (title : string) (destructive : bool)
  | GetTransferByNumber (transferNo : jsstring)
  | CreateTransferIn (body : Receipt.t)
  | Throws.

(** The reading of the clock that [new Date()] gives; [month] counts from
    zero. *)
Record Date : Type := mkDate {
  year : N; month : N; date : N; hours : N; minutes : N; seconds : N
}.

(** [String(n).padStart(2, "0")] *)
Definition pad2 (n : N) : jsstring :=
  let d := decimal n in
  if (length d <? 2)%nat then zeros (2 - length d) ++ d else d.

Definition grnNumber (now : Date) : jsstring :=
  js "GRN-" ++ decimal (year now) ++ pad2 (month now + 1) ++ pad2 (date now)
  ++ pad2 (hours now) ++ pad2 (minutes now) ++ pad2 (seconds now).

(** [x ? String(x) : null] *)
Definition string_or_null (x : scalar) : scalar :=
  if truthy x then SStr (String_ x) else SNull.

(** [x ? Number(x) : null] *)
Definition number_or_null (x : scalar) : option number :=
  if truthy x then Some (Number_ x) else None.

(** The record of an acknowledged box. *)
Definition scanned_box (b : Box.t) : Scanned.t :=
  Scanned.mk
    (String_ (or_else (or_else (or_else (Box.box_id b) (Box.box_number b))
                         (SNum (number_of_Z (Box.id b))))
                (SStr [])))
    (Some (Box.id b))
    (string_or_null (Box.article b))
    (string_or_null (Box.batch_number b))
    (string_or_null (Box.lot_number b))
    (string_or_null (Box.transaction_no b))
    (number_or_null (Box.net_weight b))
    (number_or_null (Box.gross_weight b))
    true
    issue_absent.

(** The record of an article line, all but its last two properties. *)
Definition pseudo_box (line : Line.t) (i : nat) (matched : bool)
    (iss : issue_property) : Scanned.t :=
  Scanned.mk
    (js "ART-" ++ decimal (N.of_nat (i + 1)))
    None
    (or_else (or_else (Line.item_desc_raw line) (Line.item_description line))
       (SStr []))
    (or_else (Line.batch_number line) SNull)
    (or_else (Line.lot_number line) SNull)
    SNull
    (number_or_null (Line.net_weight line))
    (number_or_null (Line.total_weight line))
    matched
    iss.

(** [remarks || null] *)
Definition remarks_or_null (r : jsstring) : option jsstring :=
  if truthy_string r then Some r else None.

Definition issue_of (iss : Issue.t) : issue_property :=
  issue_object (Issue.actual_qty iss) (Issue.actual_total_weight iss)
    (remarks_or_null (Issue.remarks iss)).

(** [lines.map((line, i) => ({ line, i }))] *)
Definition indexed (ls : list Line.t) : list (Line.t * nat) :=
  imap (λ i line, (line, i)) ls.

Definition scannedBoxes (s : State) : list Scanned.t :=
  map scanned_box (List.filter (λ b, box_matched s (Box.id b)) (boxes s)).

Definition acknowledgedArticles (s : State) : list Scanned.t :=
  map (λ '(line, i), pseudo_box line i true issue_null)
    (List.filter (λ '(_, i), line_matched s i) (indexed (lines s))).

(** The filter keeps the lines that have an entry in [linesIssueMap]; the
    map then reads that entry. *)
Definition issuedArticles (s : State) : list Scanned.t :=
  omap (λ '(line, i),
          (λ iss, pseudo_box line i false (issue_of iss))
            <$> linesIssueMap s !! i)
    (indexed (lines s)).

Definition allScannedBoxes (s : State) : list Scanned.t :=
  scannedBoxes s ++ (acknowledgedArticles s ++ issuedArticles s).

Definition receipt (now : Date) (t : Transfer.t) (s : State) : Receipt.t :=
  Receipt.mk
    (Transfer.id t)
    (grnNumber now)
    (or_else (or_else (Transfer.to_warehouse t) (Transfer.to_site_code t))
       (SStr (js "UNKNOWN")))
    (js "USER")
    (boxCondition s)
    (remarks_or_null (trim (conditionRemarks s)))
    (allScannedBoxes s).

(** *** The handlers

    Each takes the state of the render it was created in and gives the
    state of the next render and what it did besides. *)

(** [loadTransferDetails(transferNo)] up to its [await]. *)
Definition loadTransferDetails (transferNo : json) (s : State)
  : State * list effect :=
  match transferNo with
  | JStr str =>
      if truthy_string (trim str)
      then (set_loading true s, [GetTransferByNumber str])
      else (s, [Toast "Error" true])
  | _ => (s, [Throws])
  end.

(** [boxMap] and [lineMap] of [loadTransferDetails]. *)
Definition boxMap (bs : list Box.t) : gmap Z bool :=
  fold_left (λ m b, <[Box.id b := false]> m) bs ∅.

Definition lineMap (ls : list Line.t) : gmap nat bool :=
  fold_left (λ m i, <[i := false]> m) (seq 0 (length ls)) ∅.

(** [loadTransferDetails] after its [await], when the lookup answered. *)
Definition loadTransferDetails_resolved (response : Transfer.t) (s : State)
  : State * list effect :=
  (set_loading false
     (set_linesMatchMap (lineMap (default [] (Transfer.lines response)))
        (set_boxesMatchMap (boxMap (default [] (Transfer.boxes response)))
           (set_transferData (Some response) s))),
   [Toast "Transfer Loaded" false]).

(** [loadTransferDetails] after its [await], when the lookup failed. *)
Definition loadTransferDetails_rejected (s : State) : State * list effect :=
  (set_loading false (set_transferData None s), [Toast "Error" true]).

Definition handleSearch (s : State) : State * list effect :=
  loadTransferDetails (transferNumber s) s.

(** [setTransferNumber(v); loadTransferDetails(v)] *)
Definition use_transfer_number (v : json) (s : State) : State * list effect :=
  loadTransferDetails v (set_transferNumber v s).

Definition handleTransferQRScan (decodedText : jsstring) (s : State)
  : State * list effect :=
  let s1 := set_showScanner false s in
  let raw := use_transfer_number (JStr decodedText) s1 in
  match JSON_parse decodedText with
  | Some qrData =>
      match get_property qrData (js "transfer_no") with
      | Threw => raw
      | Value v =>
          if truthy_json v then use_transfer_number v s1
          else
            match get_property qrData (js "challan_no") with
            | Value w => if truthy_json w then use_transfer_number w s1 else raw
            | _ => raw
            end
      | Undefined =>
          match get_property qrData (js "challan_no") with
          | Value w => if truthy_json w then use_transfer_number w s1 else raw
          | _ => raw
          end
      end
  | None => raw
  end.

Definition handleAcknowledgeBox (boxId : Z) (s : State)
  : State * list effect :=
  (set_boxesMatchMap (<[boxId := true]> (boxesMatchMap s)) s,
   [Toast "Box Acknowledged" false]).

(** [bs.forEach((b) => { newMap[b.id] = true })] *)
Definition acknowledge_boxes (bs : list Box.t) (m : gmap Z bool)
  : gmap Z bool :=
  fold_left (λ newMap b, <[Box.id b := true]> newMap) bs m.

Definition handleAcknowledgeArticleBoxes (articleName : jsstring) (s : State)
  : State * list effect :=
  let articleBoxes := default [] (groupedBoxes s !! articleName) in
  if (length articleBoxes =? 0)%nat then (s, [])
  else
    (set_boxesMatchMap (acknowledge_boxes articleBoxes (boxesMatchMap s)) s,
     [Toast "Article Boxes Acknowledged" false]).

Definition handleAcknowledgeLine (lineIndex : nat) (s : State)
  : State * list effect :=
  (set_linesMatchMap (<[lineIndex := true]> (linesMatchMap s)) s,
   [Toast "Article Acknowledged" false]).

Definition handleOpenIssue (lineIndex : nat) (s : State)
  : State * list effect :=
  match lines s !! lineIndex with
  | Some line =>
      (set_issueForm
         (IssueForm.mk
            (String_ (or_else (or_else (Line.qty line) (Line.quantity line))
                        (SStr [])))
            (String_ (or_else (Line.total_weight line) (SStr [])))
            [])
         (set_issueOpenIndex (Some lineIndex) s),
       [])
  | None => (set_issueOpenIndex (Some lineIndex) s, [Throws])
  end.

Definition handleSubmitIssue (lineIndex : nat) (s : State)
  : State * list effect :=
  let actualQty := parseFloat (IssueForm.actual_qty (issueForm s)) in
  let actualWeight := parseFloat (IssueForm.actual_total_weight (issueForm s)) in
  if isNaN actualQty && isNaN actualWeight then (s, [Toast "Error" true])
  else
    (set_issueForm IssueForm.blank
       (set_issueOpenIndex None
          (set_linesMatchMap (delete lineIndex (linesMatchMap s))
             (set_linesIssueMap
                (<[lineIndex :=
                     Issue.mk
                       (if isNaN actualQty then Dec false 0 0 else actualQty)
                       (if isNaN actualWeight then Dec false 0 0
                        else actualWeight)
                       (trim (IssueForm.remarks (issueForm s)))]>
                   (linesIssueMap s))
                s))),
     [Toast "Issue Reported" false]).

Definition handleCancelIssue (s : State) : State * list effect :=
  (set_issueForm IssueForm.blank (set_issueOpenIndex None s), []).

(** [lines.forEach((_, i) => { if (keep(i)) newMap[i] = true })] *)
Definition acknowledge_lines (keep : nat → bool) (n : nat) (m : gmap nat bool)
  : gmap nat bool :=
  fold_left (λ newMap i, if keep i then <[i := true]> newMap else newMap)
    (seq 0 n) m.

Definition handleAcknowledgeAll (s : State) : State * list effect :=
  (set_linesMatchMap
     (acknowledge_lines (λ _, true) (totalLines s) (linesMatchMap s))
     (set_boxesMatchMap (acknowledge_boxes (boxes s) (boxesMatchMap s)) s),
   [Toast "All Acknowledged" false]).

(** Skips the lines already issued. *)
Definition handleAcknowledgeAllLines (s : State) : State * list effect :=
  (set_linesMatchMap
     (acknowledge_lines (λ i, negb (line_issued s i)) (totalLines s)
        (linesMatchMap s))
     s,
   [Toast "All Articles Acknowledged" false]).

Definition handleAcknowledgeAllBoxes (s : State) : State * list effect :=
  (set_boxesMatchMap (acknowledge_boxes (boxes s) (boxesMatchMap s)) s,
   [Toast "All Boxes Acknowledged" false]).

(** [handleConfirmReceipt] up to its [await]; [now] is what the clock
    reads. *)
Definition handleConfirmReceipt (now : Date) (s : State)
  : State * list effect :=
  match transferData s with
  | None => (s, [])
  | Some t => (set_loading true s, [CreateTransferIn (receipt now t s)])
  end.

(** [handleConfirmReceipt] after its [await]. *)
Definition handleConfirmReceipt_settled (ok : bool) (s : State)
  : State * list effect :=
  (set_loading false s,
   [if ok then Toast "Transfer IN Created" false else Toast "Error" true]).

(** *** What the operator and the network can do

    An action is a click or an input the page offers, or the settling of a
    request.  [run] is the handler the action calls; [offered] says whether
    the render of the state offers it. *)

Inductive issue_input : Type :=
  | input_actual_qty
  | input_actual_total_weight
  | input_remarks.

Inductive action : Type :=
  | TypeTransferNumber (v : jsstring)
  | Search
  | OpenScanner
  | CloseScanner
  | ScanTransferQR (decodedText : jsstring)
  | LookupResolved (response : Transfer.t)
  | LookupRejected
  | AcknowledgeBox (boxId : Z)
  | AcknowledgeArticleBoxes (articleName : jsstring)
  | AcknowledgeLine (lineIndex : nat)
  | OpenIssue (lineIndex : nat)
  | TypeIssueForm (input : issue_input) (v : jsstring)
  | SubmitIssue (lineIndex : nat)
  | CancelIssue
  | AcknowledgeAll
  | AcknowledgeAllLines
  | AcknowledgeAllBoxes
  | SelectBoxCondition (v : jsstring)
  | TypeConditionRemarks (v : jsstring)
  | ConfirmReceipt (now : Date)
  | ConfirmSettled (ok : bool).

Definition type_issue_form (input : issue_input) (v : jsstring)
    (f : IssueForm.t) : IssueForm.t :=
  match input with
  | input_actual_qty =>
      IssueForm.mk v (IssueForm.actual_total_weight f) (IssueForm.remarks f)
  | input_actual_total_weight =>
      IssueForm.mk (IssueForm.actual_qty f) v (IssueForm.remarks f)
  | input_remarks =>
      IssueForm.mk (IssueForm.actual_qty f) (IssueForm.actual_total_weight f) v
  end.

Definition run (a : action) (s : State) : State * list effect :=
  match a with
  | TypeTransferNumber v => (set_transferNumber (JStr v) s, [])
  | Search => handleSearch s
  | OpenScanner => (set_showScanner true s, [])
  | CloseScanner => (set_showScanner false s, [])
  | ScanTransferQR decodedText => handleTransferQRScan decodedText s
  | LookupResolved response => loadTransferDetails_resolved response s
  | LookupRejected => loadTransferDetails_rejected s
  | AcknowledgeBox boxId => handleAcknowledgeBox boxId s
  | AcknowledgeArticleBoxes articleName =>
      handleAcknowledgeArticleBoxes articleName s
  | AcknowledgeLine lineIndex => handleAcknowledgeLine lineIndex s
  | OpenIssue lineIndex => handleOpenIssue lineIndex s
  | TypeIssueForm input v =>
      (set_issueForm (type_issue_form input v (issueForm s)) s, [])
  | SubmitIssue lineIndex => handleSubmitIssue lineIndex s
  | CancelIssue => handleCancelIssue s
  | AcknowledgeAll => handleAcknowledgeAll s
  | AcknowledgeAllLines => handleAcknowledgeAllLines s
  | AcknowledgeAllBoxes => handleAcknowledgeAllBoxes s
  | SelectBoxCondition v => (set_boxCondition v s, [])
  | TypeConditionRemarks v => (set_conditionRemarks v s, [])
  | ConfirmReceipt now => handleConfirmReceipt now s
  | ConfirmSettled ok => handleConfirmReceipt_settled ok s
  end.

Definition loaded (s : State) : bool :=
  match transferData s with Some _ => true | None => false end.

(** The issue form is rendered under the line it was opened for. *)
Definition issue_form_shown (s : State) : bool :=
  match issueOpenIndex s with
  | Some i => (i <? totalLines s)%nat
  | None => false
  end.

(** The row of a line shows its two buttons while the line is neither
    acknowledged nor issued. *)
Definition line_buttons_shown (s : State) (i : nat) : bool :=
  (i <? totalLines s)%nat && negb (line_matched s i) && negb (line_issued s i).

(** Whether the render of [s] offers the action.  The search also runs on
    the Enter key, whatever the state of its button; the settling of a
    request is up to the network. *)
Definition offered (a : action) (s : State) : bool :=
  match a with
  | TypeTransferNumber _ | Search | OpenScanner => true
  | CloseScanner | ScanTransferQR _ => showScanner s
  | LookupResolved _ | LookupRejected | ConfirmSettled _ => true
  | AcknowledgeBox boxId =>
      existsb (λ b, (Box.id b =? boxId)%Z && negb (box_matched s (Box.id b)))
        (boxes s)
  | AcknowledgeArticleBoxes articleName =>
      match groupedBoxes s !! articleName with
      | Some artBoxes =>
          negb (length (List.filter (λ b, box_matched s (Box.id b)) artBoxes)
                =? length artBoxes)%nat
      | None => false
      end
  | AcknowledgeLine i | OpenIssue i => line_buttons_shown s i
  | TypeIssueForm _ _ | CancelIssue => issue_form_shown s
  | SubmitIssue i =>
      bool_decide (issueOpenIndex s = Some i) && (i <? totalLines s)%nat
  | AcknowledgeAll =>
      loaded s && negb (allMatched s) && (0 <? totalItems s)%nat
  | AcknowledgeAllLines =>
      (0 <? totalLines s)%nat && (resolvedLines s <? totalLines s)%nat
  | AcknowledgeAllBoxes =>
      (0 <? totalBoxes s)%nat && (matchedBoxes s <? totalBoxes s)%nat
  | SelectBoxCondition _ | TypeConditionRemarks _ => loaded s
  | ConfirmReceipt _ => loaded s && negb (confirm_disabled s)
  end.

(** The states the page can be in. *)
Inductive reachable : State → Prop :=
  | reachable_initial : reachable initial
  | reachable_step s a :
      reachable s → offered a s = true → reachable (run a s).1.

(** The states a list of actions leads through, each action being offered
    when its turn comes. *)
Fixpoint run_all (acts : list action) (s : State) : option State :=
  match acts with
  | [] => Some s
  | a :: rest => if offered a s then run_all rest (run a s).1 else None
  end.

(** *** Loads that carry no issue over

    [loadTransferDetails] writes [boxesMatchMap] and [linesMatchMap] anew
    and leaves [linesIssueMap] as it is.  The answer of a lookup carries
    no issue over when no line of the transfer it brings has an entry
    there. *)
Definition carries_no_issue (a : action) (s : State) : bool :=
  match a with
  | LookupResolved response =>
      forallb (λ i, negb (line_issued s i))
        (seq 0 (length (default [] (Transfer.lines response))))
  | _ => true
  end.

(** [run_all] for the lists of actions whose loads carry no issue over:
    nothing when an action is not offered or a load carries an issue
    over. *)
Fixpoint run_clean (acts : list action) (s : State) : option State :=
  match acts with
  | [] => Some s
  | a :: rest =>
      if offered a s && carries_no_issue a s then run_clean rest (run a s).1
      else None
  end.

(** *** The resolution state of an item *)

Inductive resolution : Type :=
  | Pending
  | Acknowledged
  | Issued (iss : Issue.t)
  | AcknowledgedWithIssue (iss : Issue.t).

Definition box_resolution (s : State) (b : Box.t) : resolution :=
  if box_matched s (Box.id b) then Acknowledged else Pending.

Definition line_resolution (s : State) (i : nat) : resolution :=
  match line_matched s i, linesIssueMap s !! i with
  | false, None => Pending
  | true, None => Acknowledged
  | false, Some iss => Issued iss
  | true, Some iss => AcknowledgedWithIssue iss
  end.

Definition is_pending (r : resolution) : bool :=
  match r with Pending => true | _ => false end.

(** [count(Pending)] over the boxes and the lines of the loaded transfer. *)
Definition pendingItems (s : State) : nat :=
  length (List.filter (λ b, is_pending (box_resolution s b)) (boxes s))
  + length (filteri (λ _ i, is_pending (line_resolution s i)) (lines s)).

(** A line of the loaded transfer is at once acknowledged and issued. *)
Definition some_line_acknowledged_with_issue (s : State) : bool :=
  existsb (λ i, line_matched s i && line_issued s i) (seq 0 (totalLines s)).

(** The record that stands for the line at position [i] in the payload of
    a confirmation: the pseudo-box with the issue when the line has one on
    record, the acknowledged pseudo-box otherwise. *)
Definition line_record (s : State) (i : nat) (line : Line.t) : Scanned.t :=
  match linesIssueMap s !! i with
  | Some iss => pseudo_box line i false (issue_of iss)
  | None => pseudo_box line i true issue_null
  end.

(** *** Sample transfers *)

Definition sample_box (id : Z) (number : N) : Box.t :=
  Box.mk id SUndefined (SNum (Dec false number 0)) (SStr (js "Rice 5kg"))
    (SStr (js "B-17")) SNull (SStr (js "TR-0042")) (SNum (Dec false 5000 0))
    (SStr (js "5200.5")).

Definition sample_line (name : string) (qty : N) : Line.t :=
  Line.mk (SStr (js name)) SUndefined SUndefined SUndefined
    (SNum (Dec false 1000 0)) (SNum (Dec false 125 (-1)))
    (SNum (Dec false qty 0)) SUndefined.

Definition sample_transfer (bs : list Box.t) (ls : list Line.t)
  : Transfer.t :=
  Transfer.mk (SNum (Dec false 77 0)) (SStr (js "TRANS202510191445")) SNull
    SUndefined (SStr (js "W202")) (Some bs) (Some ls).

(** Two boxes and one article line. *)
Definition transfer_2_1 : Transfer.t :=
  sample_transfer [sample_box 11 1; sample_box 12 2] [sample_line "Sugar" 10].

(** One box. *)
Definition transfer_1_0 : Transfer.t :=
  sample_transfer [sample_box 11 1] [].

(** Two article lines. *)
Definition transfer_0_2 : Transfer.t :=
  sample_transfer [] [sample_line "Sugar" 10; sample_line "Salt" 4].

(** One article line. *)
Definition transfer_0_1 : Transfer.t :=
  sample_transfer [] [sample_line "Rice" 3].

Definition sample_now : Date := mkDate 2026 2 5 14 7 9.

(** One box is acknowledged and the receipt is being confirmed. *)
Definition trace_confirming : list action :=
  [LookupResolved transfer_1_0; AcknowledgeBox 11; ConfirmReceipt sample_now].

(** An issue is reported on the first of two lines. *)
Definition trace_issue_first_line : list action :=
  [LookupResolved transfer_0_2; OpenIssue 0;
   TypeIssueForm input_actual_qty (js "5");
   TypeIssueForm input_actual_total_weight [];
   SubmitIssue 0].

(** An issue is reported on the first line of a transfer, then another
    transfer, of one line, is loaded. *)
Definition trace_issue_then_load : list action :=
  trace_issue_first_line ++ [LookupResolved transfer_0_1].

(** Both boxes acknowledged, an issue reported on the line with
    [actual_qty = 5], [actual_total_weight = 0] and no remark. *)
Definition trace_scenario : list action :=
  [LookupResolved transfer_2_1; AcknowledgeBox 11; AcknowledgeBox 12;
   OpenIssue 0;
   TypeIssueForm input_actual_qty (js "5");
   TypeIssueForm input_actual_total_weight (js "0");
   TypeIssueForm input_remarks [];
   SubmitIssue 0].

(** The issue form of the line is opened and both numeric fields are
    blanked. *)
Definition trace_blank_form : list action :=
  [LookupResolved transfer_2_1; OpenIssue 0;
   TypeIssueForm input_actual_qty [];
   TypeIssueForm input_actual_total_weight []].

(** The state a trace ends in, the initial one if it cannot be played. *)
Definition state_after (acts : list action) : State :=
  default initial (run_all acts initial).

(** *** The transfer number a scan leads to

    The first truthy one of the [transfer_no] and [challan_no] of the
    scanned text read as a JSON object, and the text itself when there is
    none. *)
Definition scanned_transfer_number (decodedText : jsstring) : json :=
  let raw := JStr decodedText in
  match JSON_parse decodedText with
  | Some (JObj ms) =>
      match member (js "transfer_no") ms with
      | Some v =>
          if truthy_json v then v
          else
            match member (js "challan_no") ms with
            | Some w => if truthy_json w then w else raw
            | None => raw
            end
      | None =>
          match member (js "challan_no") ms with
          | Some w => if truthy_json w then w else raw
          | None => raw
          end
      end
  | _ => raw
  end.

(** The text [{"transfer_no":""}]. *)
Definition qr_empty_transfer_no : jsstring :=
  js "{" ++ dquote ++ js "transfer_no" ++ dquote ++ js ":" ++ dquote ++ dquote
  ++ js "}".

(** The text [{"challan_no":"CH-9","transfer_no":0}]. *)
Definition qr_challan_only : jsstring :=
  js "{" ++ dquote ++ js "challan_no" ++ dquote ++ js ":" ++ dquote
  ++ js "CH-9" ++ dquote ++ js "," ++ dquote ++ js "transfer_no" ++ dquote
  ++ js ":0}".

(** The part of the state that the resolution of the items depends on. *)
Definition core (s : State)
  : option Transfer.t * gmap Z bool * gmap nat bool * gmap nat Issue.t :=
  (transferData s, boxesMatchMap s, linesMatchMap s, linesIssueMap s).

(** No item of the loaded transfer is pending. *)
Definition all_resolved (s : State) : Prop :=
  (∀ b, b ∈ boxes s → box_matched s (Box.id b) = true)
  ∧ (∀ i, i < totalLines s →
          line_matched s i = true ∨ line_issued s i = true).

(** No line is at once acknowledged and issued. *)
Definition exclusive (s : State) : Prop :=
  ∀ i, line_matched s i = true → line_issued s i = true → False.

(** What every state of the page satisfies: a line can be at once
    acknowledged and issued only when no item is pending. *)
Definition gate_inv (s : State) : Prop :=
  some_line_acknowledged_with_issue s = true → pendingItems s = 0.

End TransferIn.

(** ** More vocabulary for the merger *)

Section MergedNumbers.
Import JS PageMerger.
Context {A : Type}.

(** The numbers that the purchase orders of a list carry. *)
Definition numbered (l : list (PO A)) (k : jsstring) : Prop :=
  ∃ i p, l !! i = Some p ∧ poNum_of p = Some k.

End MergedNumbers.

(** ** The page of a new inward entry *)

Module NewInward.
Import JS PageMerger.

(** *** What extraction and lookup return

    Modelled from the spec: the types of the extraction and of the SKU
    lookup are declared in [@/types/inward], outside the sources at hand.
    A line item has a description, a weight, a unit rate and a total amount;
    a lookup result has a SKU and three classifications.  All are scalars
    of unknown type, absent ones being [SUndefined]. *)

Module ArticleExtract.
Record t : Type := mk {
  item_description : scalar;
  po_weight : scalar;
  unit_rate : scalar;
  total_amount : scalar
}.
End ArticleExtract.

Module SkuLookup.
Record t : Type := mk {
  sku_id : scalar;
  material_type : scalar;
  item_category : scalar;
  sub_category : scalar
}.
End SkuLookup.

(** *** The rows the page edits *)

(** A row of the article editor, an object read by its own properties. *)
Abbreviation ArticleFields := (gmap jsstring scalar).

(** [a.name], for a name that no prototype defines. *)
Definition prop (a : ArticleFields) (name : string) : scalar :=
  default SUndefined (a !! js name).

(** [x ?? undefined] *)
Definition nullish_undefined (x : scalar) : scalar :=
  match x with SNull => SUndefined | _ => x end.

Module EditablePO.
Record t : Type := mk {
  supplier_name : jsstring;
  customer_name : jsstring;
  source_location : jsstring;
  destination_location : jsstring;
  po_number : jsstring;
  purchased_by : jsstring;
  total_amount : jsstring;
  tax_amount : jsstring;
  discount_amount : jsstring;
  po_quantity : jsstring;
  currency : jsstring;
  articles : list ArticleFields
}.

End EditablePO.

(** The twelve inputs of the review step. *)
Record Form : Type := mkForm {
  vendor : jsstring;
  vendorSearch : jsstring;
  customer : jsstring;
  source : jsstring;
  destination : jsstring;
  poNumber : jsstring;
  purchasedBy : jsstring;
  totalAmount : jsstring;
  taxAmount : jsstring;
  discountAmount : jsstring;
  poQuantity : jsstring;
  currency : jsstring
}.

Inductive Step : Type := choose | upload | review | multi_po.

(** What [err.message] is in the [catch] of [handleExtract]: the text of an
    [Error] the page threw itself, or the engine's text for a [TypeError]. *)
Inductive error_message : Type :=
  | Message (text : string)
  | TypeErrorMessage.

(** The part of the page's state that extraction writes and that the
    editing of its result reads and writes. *)
Record State : Type := mkInward {
  step : Step;
  extractError : option error_message;
  form : Form;
  articles : list ArticleFields;
  extractedPOs : list (PO ArticleExtract.t);
  editablePOs : list EditablePO.t;
  expandedPOs : gset nat
}.

Inductive effect : Type :=
  | Toast (title : string) (destructive : bool)
  | LookupSKU (index : nat) (itemDescription : scalar)
  | LookupMultiPOSKU (poIdx artIdx : nat) (itemDescription : scalar).

(** *** [handleExtract] *)

(** The second phase: the pages are extracted one after the other, and a
    page whose extraction fails is stood for by a page without purchase
    orders.  [results] holds what the requests for pages [1], [2], ...
    gave, [None] for a failure. *)
Definition pageResults (job_id : jsstring) (total_pages : nat)
    (results : list (option (PageExtractResponse ArticleExtract.t)))
  : list (PageExtractResponse ArticleExtract.t) :=
  imap (λ i r,
          match r with
          | Some pageResult => pageResult
          | None => PageMerger.mkPage job_id (i + 1) total_pages (Some [])
          end)
       results.

(** [s || d] *)
Definition text_or (s : option jsstring) (d : jsstring) : jsstring :=
  match s with
  | Some v => if truthy_string v then v else d
  | None => d
  end.

(** [n?.toString() || ""] *)
Definition number_text (n : option number) : jsstring :=
  match n with
  | Some v =>
      if truthy_string (Number_toString v) then Number_toString v else []
  | None => []
  end.

(** The row a line item starts as. *)
Definition idle_row (a : ArticleExtract.t) : ArticleFields :=
  {[ js "item_description" := ArticleExtract.item_description a;
     js "po_weight" := ArticleExtract.po_weight a;
     js "unit_rate" := ArticleExtract.unit_rate a;
     js "total_amount" := ArticleExtract.total_amount a;
     js "skuStatus" := SStr (js "idle") ]}.

Definition review_form (data : PO ArticleExtract.t) : Form :=
  mkForm
    (text_or (supplier_name data) [])
    (text_or (supplier_name data) [])
    (text_or (customer_name data) [])
    (text_or (source_location data) [])
    (text_or (destination_location data) [])
    (text_or (po_number data) [])
    (text_or (purchased_by data) [])
    (number_text (total_amount data))
    (number_text (tax_amount data))
    (number_text (discount_amount data))
    (number_text (po_quantity data))
    (text_or (PageMerger.currency data) (js "INR")).

Definition editable (po : PO ArticleExtract.t) : EditablePO.t :=
  EditablePO.mk
    (text_or (supplier_name po) [])
    (text_or (customer_name po) [])
    (text_or (source_location po) [])
    (text_or (destination_location po) [])
    (text_or (po_number po) [])
    (text_or (purchased_by po) [])
    (number_text (total_amount po))
    (number_text (tax_amount po))
    (number_text (discount_amount po))
    (number_text (po_quantity po))
    (text_or (PageMerger.currency po) (js "INR"))
    (map idle_row (articles_of po)).

(** What the [catch] and the [finally] of [handleExtract] leave. *)
Definition extraction_failed (message : error_message) (s : State)
  : State * list effect :=
  (mkInward (step s) (Some message) (form s) (articles s) (extractedPOs s)
     (editablePOs s) (expandedPOs s),
   [Toast "Extraction failed" true]).

(** The third phase of [handleExtract]: the merge of the page results and
    what the page does with it. *)
Definition handleExtract_merge
    (results : list (PageExtractResponse ArticleExtract.t)) (s : State)
  : State * list effect :=
  match mergePageResults results with
  | None => extraction_failed TypeErrorMessage s
  | Some pos =>
      match pos with
      | [] => extraction_failed (Message "No purchase orders found in the PDF") s
      | [data] =>
          match PageMerger.articles data with
          | Some arts =>
              (mkInward review (extractError s) (review_form data)
                 (map idle_row arts) (extractedPOs s) (editablePOs s)
                 (expandedPOs s),
               imap (λ idx a, LookupSKU idx (ArticleExtract.item_description a))
                 arts)
          | None =>
              extraction_failed TypeErrorMessage
                (mkInward (step s) (extractError s) (review_form data)
                   (articles s) (extractedPOs s) (editablePOs s)
                   (expandedPOs s))
          end
      | _ =>
          (mkInward multi_po (extractError s) (form s) (articles s) pos
             (map editable pos) ∅,
           List.concat
             (imap (λ poIdx po,
                      imap (λ artIdx art,
                              LookupMultiPOSKU poIdx artIdx
                                (prop art "item_description"))
                        (EditablePO.articles po))
                (map editable pos)))
      end
  end.

(** *** The article rows of the review step *)

(** [prev.map((a, i) => (i === index ? f(a) : a))] *)
Definition map_at {T : Type} (index : nat) (f : T → T) (prev : list T)
  : list T :=
  imap (λ i a, if (i =? index)%nat then f a else a) prev.

(** [prev.filter((_, i) => i !== index)] *)
Definition filter_out {T : Type} (index : nat) (prev : list T) : list T :=
  TransferIn.filteri (λ _ i, negb (i =? index)%nat) prev.

Definition removeArticle (index : nat) (prev : list ArticleFields)
  : list ArticleFields :=
  filter_out index prev.

(** *** [lookupSKU]: before the request, and after it in its three ways *)

Definition loading_row (a : ArticleFields) : ArticleFields :=
  <[js "skuStatus" := SStr (js "loading")]> a.

Definition resolved_row (result : SkuLookup.t) (a : ArticleFields)
  : ArticleFields :=
  <[js "skuStatus" := SStr (js "resolved")]>
    (<[js "sub_category" := nullish_undefined (SkuLookup.sub_category result)]>
       (<[js "item_category" :=
            nullish_undefined (SkuLookup.item_category result)]>
          (<[js "material_type" :=
               nullish_undefined (SkuLookup.material_type result)]>
             (<[js "sku_id" := nullish_undefined (SkuLookup.sku_id result)]>
                a)))).

Definition error_row (skuError : jsstring) (a : ArticleFields)
  : ArticleFields :=
  <[js "skuError" := SStr skuError]> (<[js "skuStatus" := SStr (js "error")]> a).

(** The text [No matching SKU — select manually]. *)
Definition no_matching_sku : jsstring :=
  js "No matching SKU " ++ [8212%N] ++ js " select manually".

Definition lookupSKU (index : nat) (prev : list ArticleFields)
  : list ArticleFields :=
  map_at index loading_row prev.

Definition lookupSKU_resolved (index : nat) (result : SkuLookup.t)
    (prev : list ArticleFields) : list ArticleFields :=
  if truthy (SkuLookup.sku_id result)
  then map_at index (resolved_row result) prev
  else map_at index (error_row no_matching_sku) prev.

(** [message] is [err.message], or [Lookup failed] when what was thrown is
    no [Error]. *)
Definition lookupSKU_rejected (index : nat) (message : jsstring)
    (prev : list ArticleFields) : list ArticleFields :=
  map_at index (error_row message) prev.

(** *** The purchase orders of the multi-PO step *)

(** The two updates of [removeEditablePO]: the list loses the order, and
    the indices recorded as expanded follow the orders that move up. *)
Definition removeEditablePO (poIdx : nat)
    (prev : list EditablePO.t * gset nat) : list EditablePO.t * gset nat :=
  (filter_out poIdx prev.1,
   set_omap (λ idx, if (idx <? poIdx)%nat then Some idx
                    else if (poIdx <? idx)%nat then Some (idx - 1)%nat
                    else None)
     prev.2).

(** *** Submission *)

(** [generateTxnNo(d)] *)
Definition generateTxnNo (d : TransferIn.Date) : jsstring :=
  js "TR-" ++ decimal (TransferIn.year d)
  ++ TransferIn.pad2 (TransferIn.month d + 1) ++ TransferIn.pad2 (TransferIn.date d)
  ++ TransferIn.pad2 (TransferIn.hours d) ++ TransferIn.pad2 (TransferIn.minutes d)
  ++ TransferIn.pad2 (TransferIn.seconds d).

(** The body of the request [createInward] sends. *)
Module Transaction.
Record t : Type := mk {
  transaction_no : jsstring;
  entry_date : jsstring;
  vendor_supplier_name : option jsstring;
  customer_party_name : option jsstring;
  source_location : option jsstring;
  destination_location : option jsstring;
  po_number : option jsstring;
  purchased_by : option jsstring;
  total_amount : option number;
  tax_amount : option number;
  discount_amount : option number;
  po_quantity : option number;
  currency : option jsstring
}.
End Transaction.

Module InwardArticle.
Record t : Type := mk {
  transaction_no : jsstring;
  item_description : scalar;
  po_weight : scalar;
  sku_id : scalar;
  material_type : scalar;
  item_category : scalar;
  sub_category : scalar;
  unit_rate : scalar;
  total_amount : scalar
}.
End InwardArticle.

Module InwardBox.
Record t : Type := mk {
  transaction_no : jsstring;
  article_description : scalar;
  box_number : nat
}.
End InwardBox.

Module CreateInwardPayload.
Record t : Type := mk {
  company : jsstring;
  transaction : Transaction.t;
  articles : list InwardArticle.t;
  boxes : list InwardBox.t
}.
End CreateInwardPayload.

(** [s || undefined] *)
Definition text_or_undefined (s : jsstring) : option jsstring :=
  if truthy_string s then Some s else None.

(** [s ? parseFloat(s) : undefined] *)
Definition amount_or_undefined (s : jsstring) : option number :=
  if truthy_string s then Some (parseFloat s) else None.

Definition inward_article (txnNo : jsstring) (a : ArticleFields)
  : InwardArticle.t :=
  InwardArticle.mk txnNo
    (prop a "item_description")
    (prop a "po_weight")
    (nullish_undefined (prop a "sku_id"))
    (prop a "material_type")
    (prop a "item_category")
    (prop a "sub_category")
    (prop a "unit_rate")
    (prop a "total_amount").

(** The [payload] of [handleSubmit]; [now] is what the clock reads and
    [entryDate] the date part of [now.toISOString()]. *)
Definition handleSubmit_payload (company : jsstring) (now : TransferIn.Date)
    (entryDate : jsstring) (s : State) : CreateInwardPayload.t :=
  let txnNo := generateTxnNo now in
  let f := form s in
  CreateInwardPayload.mk company
    (Transaction.mk txnNo entryDate
       (text_or_undefined (vendor f))
       (text_or_undefined (customer f))
       (text_or_undefined (source f))
       (text_or_undefined (destination f))
       (text_or_undefined (poNumber f))
       (text_or_undefined (purchasedBy f))
       (amount_or_undefined (totalAmount f))
       (amount_or_undefined (taxAmount f))
       (amount_or_undefined (discountAmount f))
       (amount_or_undefined (poQuantity f))
       (text_or_undefined (currency f)))
    (map (inward_article txnNo) (articles s))
    (imap (λ idx a,
             InwardBox.mk txnNo (prop a "item_description") (idx + 1))
       (articles s)).

(** A reading of the clock that [Date] can give. *)
Definition clock_reading (d : TransferIn.Date) : Prop :=
  (TransferIn.month d < 12)%N ∧ (TransferIn.date d < 32)%N
  ∧ (TransferIn.hours d < 24)%N ∧ (TransferIn.minutes d < 60)%N
  ∧ (TransferIn.seconds d < 60)%N.

(** *** Sample data *)

(** The state after the [useState] calls of the first render. *)
Definition initial : State :=
  mkInward choose None
    (mkForm [] [] [] [] [] [] [] [] [] [] [] (js "INR"))
    [] [] [] ∅.

Definition sample_article (description : string) (weight : N)
  : ArticleExtract.t :=
  ArticleExtract.mk (SStr (js description)) (SNum (Dec false weight 0)) SNull
    SNull.

Definition sample_order (number : option jsstring)
    (items : list ArticleExtract.t) : PO ArticleExtract.t :=
  mkPO number (Some (js "Acme")) None None None None None
    (Some (Dec false 1250 0)) None None None (Some items).

(** What three page requests gave: order PO1 with one article, a failure,
    and a continuation of PO1 with two more articles. *)
Definition sample_results
  : list (option (PageExtractResponse ArticleExtract.t)) :=
  [ Some (PageMerger.mkPage (js "job") 1 3
            (Some [sample_order (Some (js "PO1")) [sample_article "bolt" 5]]));
    None;
    Some (PageMerger.mkPage (js "job") 3 3
            (Some [sample_order None
                     [sample_article "nut" 2; sample_article "washer" 1]])) ].

Definition sample_rows : list ArticleFields :=
  map idle_row
    [sample_article "bolt" 5; sample_article "nut" 2; sample_article "washer" 1].

End NewInward.


(** ** The list of inward records *)

Module InwardList.
Import JS.

Inductive SortBy : Type :=
  | entry_date | transaction_no | invoice_number | po_number.

Inductive SortOrder : Type := asc | desc.

Global Instance SortBy_eq_dec : EqDecision SortBy.
Proof. solve_decision. Defined.

Global Instance SortOrder_eq_dec : EqDecision SortOrder.
Proof. solve_decision. Defined.

(** Modelled from the spec: [InwardListResponse] is declared in
    [@/types/inward], outside the sources at hand.  A response gives the
    number of records that match and the records of one page, of which
    only the [transaction_id] is kept here.  Counts and page numbers are
    integers. *)
Record InwardListResponse : Type := mkResponse {
  total : Z;
  records : list jsstring
}.

Record State : Type := mkList {
  data : option InwardListResponse;
  searchQuery : jsstring;
  fromDate : jsstring;
  toDate : jsstring;
  sortBy : SortBy;
  sortOrder : SortOrder;
  isSearching : bool;
  currentPage : Z
}.

Definition itemsPerPage : Z := 20.

(** *** The requests *)

(** The second argument of [getInwardList]; an absent property is [None]. *)
Record ListParams : Type := mkParams {
  page : Z;
  per_page : Z;
  sort_by : SortBy;
  sort_order : SortOrder;
  search : option jsstring;
  from_date : option jsstring;
  to_date : option jsstring
}.

(** The request of [fetchData]. *)
Definition fetchData (s : State) : ListParams :=
  mkParams (currentPage s) itemsPerPage (sortBy s) (sortOrder s)
    None None None.

(** [s || undefined], and the property an [if (s)] adds. *)
Definition nonempty (s : jsstring) : option jsstring :=
  if truthy_string s then Some s else None.

Section Dates.

(** The time value of [new Date(s)], [None] when the date is invalid. *)
Variable time_value : jsstring → option Z.

(** [new Date(a) > new Date(b)] *)
Definition later (a b : jsstring) : bool :=
  match time_value a, time_value b with
  | Some x, Some y => (y <? x)%Z
  | _, _ => false
  end.

(** [normalizedFromDate] and [normalizedToDate] of [handleSearch]. *)
Definition normalized (s : State) : jsstring * jsstring :=
  if truthy_string (fromDate s) && truthy_string (toDate s)
     && later (fromDate s) (toDate s)
  then (toDate s, fromDate s)
  else (fromDate s, toDate s).

(** The request of [handleSearch]. *)
Definition handleSearch (s : State) : ListParams :=
  mkParams (currentPage s) itemsPerPage (sortBy s) (sortOrder s)
    (nonempty (trim (searchQuery s)))
    (nonempty (normalized s).1)
    (nonempty (normalized s).2).

End Dates.

(** The filter [handleDownloadAll] passes to [getAllInwardRecords]. *)
Record ExportParams : Type := mkExport {
  export_search : option jsstring;
  export_from_date : option jsstring;
  export_to_date : option jsstring
}.

Definition handleDownloadAll_params (s : State) : ExportParams :=
  mkExport (nonempty (searchQuery s)) (nonempty (fromDate s))
    (nonempty (toDate s)).

(** [c] is matched by [[a-zA-Z0-9]]. *)
Definition is_alphanumeric (c : N) : bool :=
  ((48 <=? c) && (c <=? 57) || (65 <=? c) && (c <=? 90)
   || (97 <=? c) && (c <=? 122))%N.

(** [s.replace(/[^a-zA-Z0-9]/g, '_')] *)
Definition replace_non_alphanumeric (s : jsstring) : jsstring :=
  map (λ c, if is_alphanumeric c then c else 95%N) s.

(** *** Filters *)

Definition clearFilters (s : State) : State :=
  mkList (data s) [] [] [] entry_date desc (isSearching s) 1.

Definition handlePageChange (newPage : Z) (s : State) : State :=
  mkList (data s) (searchQuery s) (fromDate s) (toDate s) (sortBy s)
    (sortOrder s) (isSearching s) newPage.

Definition hasFilters (s : State) : bool :=
  truthy_string (searchQuery s) || truthy_string (fromDate s)
  || truthy_string (toDate s).

(** The [disabled] attribute of the button that clears the filters. *)
Definition clear_disabled (s : State) : bool :=
  negb (hasFilters s) && bool_decide (sortBy s = entry_date)
  && bool_decide (sortOrder s = desc).

(** *** Pagination *)

(** [Math.ceil(data.total / itemsPerPage)], and [0] without data. *)
Definition totalPages (s : State) : Z :=
  match data s with
  | Some d => (- ((- total d) / itemsPerPage))%Z
  | None => 0%Z
  end.

(** The numbered buttons: [Array.from({ length: Math.min(5, totalPages) })]
    mapped to a page number each, those beyond the last page left out. *)
Definition page_buttons (s : State) : list Z :=
  omap (λ i : nat,
          let pageNum := (Z.max 1 (currentPage s - 2) + Z.of_nat i)%Z in
          if (totalPages s <? pageNum)%Z then None else Some pageNum)
       (seq 0 (Z.to_nat (Z.min 5 (totalPages s)))).

Definition previous_disabled (s : State) : bool :=
  (currentPage s <=? 1)%Z || isSearching s.

Definition next_disabled (s : State) : bool :=
  (totalPages s <=? currentPage s)%Z || isSearching s.

(** The strip is rendered under a page of records when there is more than
    one page. *)
Definition pagination_shown (s : State) : bool :=
  match data s with
  | Some d => (0 <? length (records d))%nat && (1 <? totalPages s)%Z
  | None => false
  end.

(** The pages that a click on the strip can lead to. *)
Definition page_targets (s : State) : list Z :=
  if pagination_shown s then
    (if previous_disabled s then [] else [(currentPage s - 1)%Z])
    ++ (if isSearching s then [] else page_buttons s)
    ++ (if next_disabled s then [] else [(currentPage s + 1)%Z])
  else [].

(** [Showing a to b of total records] *)
Definition showing_from (s : State) : Z :=
  ((currentPage s - 1) * itemsPerPage + 1)%Z.

Definition showing_to (s : State) : Z :=
  match data s with
  | Some d => Z.min (currentPage s * itemsPerPage) (total d)
  | None => 0%Z
  end.

(** *** Sample data *)

(** Page 3 of 95 records. *)
Definition sample_state : State :=
  mkList (Some (mkResponse 95 (repeat (js "TR-1") 20))) (js "bolt") []
    [] entry_date desc false 3.

End InwardList.

(** ** The transfer-in page that matches boxes by scanning *)

Module TransferInScan.
Import JS.

(** *** Plain objects with boolean values

    [boxesMatchMap] is a plain object.  Reading a name it does not own
    gives what [Object.prototype] has under that name, a function or, for
    [__proto__], the prototype itself; assigning a boolean to [__proto__]
    goes to the inherited setter, which ignores it. *)

(** The truthiness of [o[k]]. *)
Definition read_flag (o : gmap jsstring bool) (k : jsstring) : bool :=
  match o !! k with
  | Some b => b
  | None => inObjectPrototype k
  end.

(** [o[k] = v] *)
Definition write_flag (k : jsstring) (v : bool) (o : gmap jsstring bool)
  : gmap jsstring bool :=
  if bool_decide (k = js "__proto__") then o else <[k := v]> o.

(** *** The text of a parsed value *)

(** [v.toString()] for a parsed value other than [null]; [None] is the
    [TypeError] of an object whose own [toString] is no function.  An
    array joins the texts of its elements with commas, [null] counting as
    the empty text. *)
Fixpoint toString (v : json) : option jsstring :=
  match v with
  | JNull => Some (js "null")
  | JBool b => Some (if b then js "true" else js "false")
  | JNum n => Some (Number_toString n)
  | JStr s => Some s
  | JArr items =>
      (fix join (l : list json) : option jsstring :=
         match l with
         | [] => Some []
         | x :: rest =>
             match (match x with JNull => Some [] | _ => toString x end) with
             | Some e =>
                 match rest with
                 | [] => Some e
                 | _ =>
                     match join rest with
                     | Some r => Some (e ++ js "," ++ r)
                     | None => None
                     end
                 end
             | None => None
             end
         end) items
  | JObj ms =>
      match member (js "toString") ms with
      | Some _ => None
      | None => Some (js "[object Object]")
      end
  end.

(** [parsed.k1 || parsed.k2 || ... || ''], [None] when reading a property
    throws. *)
Definition first_truthy (parsed : json) (names : list jsstring)
  : option json :=
  match parsed with
  | JNull => None
  | _ =>
      Some (fold_right
              (λ k rest,
                 match get_property parsed k with
                 | Value v => if truthy_json v then v else rest
                 | _ => rest
                 end)
              (JStr []) names)
  end.

Definition batch_names : list jsstring :=
  map js ["bn"; "batch_number"; "lot_number"; "batch"]%string.

Definition trans_names : list jsstring :=
  map js ["cn"; "transaction_no"; "trans_no"; "consumption_no";
          "cons_no"]%string.

(** [scannedBatch] and [scannedTransNo] once the [try] is over: read from
    the text as JSON, and the trimmed text beside an empty number when the
    [try] threw. *)
Definition scan_data (decodedText : jsstring) : jsstring * jsstring :=
  let plain := (trim decodedText, []) in
  match JSON_parse decodedText with
  | Some parsed =>
      match first_truthy parsed batch_names with
      | Some b =>
          match toString b with
          | Some scannedBatch =>
              match first_truthy parsed trans_names with
              | Some c =>
                  match toString c with
                  | Some scannedTransNo =>
                      (trim scannedBatch, trim scannedTransNo)
                  | None => plain
                  end
              | None => plain
              end
          | None => plain
          end
      | None => plain
      end
  | None => plain
  end.

(** *** Boxes *)

(** [b.box_number || b.id], as the name of a property. *)
Definition box_key (b : TransferIn.Box.t) : jsstring :=
  String_ (or_else (TransferIn.Box.box_number b) (SNum (number_of_Z (TransferIn.Box.id b)))).

(** [(b.batch_number || b.lot_number || '').toString().trim()] *)
Definition boxBatch (b : TransferIn.Box.t) : jsstring :=
  trim (String_ (or_else (or_else (TransferIn.Box.batch_number b) (TransferIn.Box.lot_number b))
                   (SStr []))).

(** [(b.transaction_no || '').toString().trim()] *)
Definition boxTransNo (b : TransferIn.Box.t) : jsstring :=
  trim (String_ (or_else (TransferIn.Box.transaction_no b) (SStr []))).

Definition batchMatch (scannedBatch : jsstring) (b : TransferIn.Box.t) : bool :=
  truthy_string scannedBatch && truthy_string (boxBatch b)
  && bool_decide (boxBatch b = scannedBatch).

Definition transMatch (scannedTransNo : jsstring) (b : TransferIn.Box.t) : bool :=
  truthy_string scannedTransNo && truthy_string (boxTransNo b)
  && bool_decide (boxTransNo b = scannedTransNo).

(** *** The state of the page and what its handlers do besides *)

Record State : Type := mkScan {
  transferNumber : json;
  loading : bool;
  transferData : option TransferIn.Transfer.t;
  showScanner : bool;
  showBoxScanner : bool;
  boxesMatchMap : gmap jsstring bool;
  boxCondition : jsstring;
  conditionRemarks : jsstring
}.

Definition initial : State :=
  mkScan (JStr []) false None false false ∅ (js "Good") [].

(** One record of [scanned_boxes]. *)
Module Scanned.
Record t : Type := mk {
  box_number : jsstring;
  article : scalar;
  batch_number : scalar;
  lot_number : scalar;
  transaction_no : scalar;
  net_weight : option number;
  gross_weight : option number;
  is_matched : bool
}.
End Scanned.

(** The body posted to [/interunit/transfer-in]. *)
Module Receipt.
Record t : Type := mk {
  transfer_out_id : scalar;
  grn_number : jsstring;
  receiving_warehouse : scalar;
  received_by : jsstring;
  box_condition : jsstring;
  condition_remarks : option jsstring;
  scanned_boxes : list Scanned.t
}.
End Receipt.

(** Toasts are kept by title and variant. *)
Inductive effect : Type :=
  | Toast (title : string) (destructive : bool)
  | GetTransferByNumber (transferNo : jsstring)
  | PostTransferIn (body : Receipt.t)
  | Throws.

(** *** Loading a transfer *)

(** [loadTransferDetails(transferNo)] up to its [await]. *)
Definition loadTransferDetails (transferNo : json) (s : State)
  : State * list effect :=
  match transferNo with
  | JStr str =>
      if truthy_string (trim str)
      then (mkScan (transferNumber s) true (transferData s) (showScanner s)
              (showBoxScanner s) (boxesMatchMap s) (boxCondition s)
              (conditionRemarks s),
            [GetTransferByNumber str])
      else (s, [Toast "Error" true])
  | _ => (s, [Throws])
  end.

(** [initialMap] *)
Definition initialMap (bs : list TransferIn.Box.t) : gmap jsstring bool :=
  fold_left (λ m b, write_flag (box_key b) false m) bs ∅.

(** [loadTransferDetails] after its [await], when the lookup answered. *)
Definition loadTransferDetails_resolved (response : TransferIn.Transfer.t) (s : State)
  : State * list effect :=
  (mkScan (transferNumber s) false (Some response) (showScanner s)
     (showBoxScanner s) (initialMap (default [] (TransferIn.Transfer.boxes response)))
     (boxCondition s) (conditionRemarks s),
   [Toast "Transfer Loaded" false]).

(** [setTransferNumber(v); loadTransferDetails(v)] *)
Definition use_transfer_number (v : json) (s : State) : State * list effect :=
  loadTransferDetails v
    (mkScan v (loading s) (transferData s) (showScanner s) (showBoxScanner s)
       (boxesMatchMap s) (boxCondition s) (conditionRemarks s)).

(** *** Scanning *)

(** The second half of [handleQRScanSuccess]: the text is taken for the
    number of a transfer. *)
Definition scan_transfer_number (decodedText : jsstring) (s : State)
  : State * list effect :=
  let raw := use_transfer_number (JStr decodedText) s in
  let invalid := (s, [Toast "Invalid QR Code" true]) in
  match JSON_parse decodedText with
  | Some qrData =>
      match get_property qrData (js "transfer_no") with
      | Threw => raw
      | Value v =>
          if truthy_json v then use_transfer_number v s
          else
            match get_property qrData (js "challan_no") with
            | Value w =>
                if truthy_json w then use_transfer_number w s else invalid
            | _ => invalid
            end
      | Undefined =>
          match get_property qrData (js "challan_no") with
          | Value w =>
              if truthy_json w then use_transfer_number w s else invalid
          | _ => invalid
          end
      end
  | None => raw
  end.

(** [newMap] after the [forEach] over the boxes. *)
Definition mark_matches (scannedBatch scannedTransNo : jsstring)
    (bs : list TransferIn.Box.t) (o : gmap jsstring bool) : gmap jsstring bool :=
  fold_left
    (λ newMap b,
       if batchMatch scannedBatch b && transMatch scannedTransNo b
       then write_flag (box_key b) true newMap
       else newMap)
    bs o.

(** [foundMatch] after the [forEach]. *)
Definition foundMatch (scannedBatch scannedTransNo : jsstring)
    (bs : list TransferIn.Box.t) : bool :=
  existsb (λ b, batchMatch scannedBatch b && transMatch scannedTransNo b) bs.

Definition handleQRScanSuccess (decodedText : jsstring) (s : State)
  : State * list effect :=
  let s1 :=
    mkScan (transferNumber s) (loading s) (transferData s) false false
      (boxesMatchMap s) (boxCondition s) (conditionRemarks s) in
  match transferData s with
  | Some t =>
      match TransferIn.Transfer.boxes t with
      | Some bs =>
          let '(scannedBatch, scannedTransNo) := scan_data decodedText in
          if truthy_string scannedBatch || truthy_string scannedTransNo then
            (mkScan (transferNumber s) (loading s) (transferData s) false false
               (mark_matches scannedBatch scannedTransNo bs (boxesMatchMap s))
               (boxCondition s) (conditionRemarks s),
             [if foundMatch scannedBatch scannedTransNo bs
              then Toast "✓ Box Matched" false
              else Toast "✗ No Match" true])
          else scan_transfer_number decodedText s1
      | None => scan_transfer_number decodedText s1
      end
  | None => scan_transfer_number decodedText s1
  end.

(** *** Confirming *)

(** [(transferData.boxes || [])] *)
Definition boxes (s : State) : list TransferIn.Box.t :=
  match transferData s with
  | Some t => default [] (TransferIn.Transfer.boxes t)
  | None => []
  end.

(** [!!boxesMatchMap[b.box_number || b.id]] *)
Definition matched (s : State) (b : TransferIn.Box.t) : bool :=
  read_flag (boxesMatchMap s) (box_key b).

(** The [disabled] attribute of the confirm button, which is rendered
    while a transfer is loaded. *)
Definition confirm_disabled (s : State) : bool :=
  loading s || (length (boxes s) =? 0)%nat
  || existsb (λ b, negb (matched s b)) (boxes s).

Definition scanned_box (b : TransferIn.Box.t) : Scanned.t :=
  Scanned.mk
    (String_ (or_else (or_else (TransferIn.Box.box_number b)
                         (SNum (number_of_Z (TransferIn.Box.id b))))
                (SStr [])))
    (TransferIn.string_or_null (TransferIn.Box.article b))
    (TransferIn.string_or_null (TransferIn.Box.batch_number b))
    (TransferIn.string_or_null (TransferIn.Box.lot_number b))
    (TransferIn.string_or_null (TransferIn.Box.transaction_no b))
    (TransferIn.number_or_null (TransferIn.Box.net_weight b))
    (TransferIn.number_or_null (TransferIn.Box.gross_weight b))
    true.

Definition scannedBoxes (s : State) : list Scanned.t :=
  map scanned_box (List.filter (matched s) (boxes s)).

(** The clock is read six times, once for each part of the number. *)
Definition grnNumber (y mo d h mi se : TransferIn.Date) : jsstring :=
  js "GRN-" ++ decimal (TransferIn.year y)
  ++ TransferIn.pad2 (TransferIn.month mo + 1)
  ++ TransferIn.pad2 (TransferIn.date d)
  ++ TransferIn.pad2 (TransferIn.hours h)
  ++ TransferIn.pad2 (TransferIn.minutes mi)
  ++ TransferIn.pad2 (TransferIn.seconds se).

(** [handleConfirmReceipt] up to its [await]. *)
Definition handleConfirmReceipt (y mo d h mi se : TransferIn.Date) (s : State)
  : State * list effect :=
  match transferData s with
  | None => (s, [])
  | Some t =>
      (mkScan (transferNumber s) true (transferData s) (showScanner s)
         (showBoxScanner s) (boxesMatchMap s) (boxCondition s)
         (conditionRemarks s),
       [PostTransferIn
          (Receipt.mk
             (TransferIn.Transfer.id t)
             (grnNumber y mo d h mi se)
             (or_else (or_else (TransferIn.Transfer.to_warehouse t)
                         (TransferIn.Transfer.to_site_code t))
                (SStr (js "UNKNOWN")))
             (js "USER")
             (boxCondition s)
             (TransferIn.remarks_or_null (trim (conditionRemarks s)))
             (scannedBoxes s))])
  end.

(** *** Sample data *)

(** The transfer with two boxes has been loaded. *)
Definition sample_loaded : State :=
  (loadTransferDetails_resolved TransferIn.transfer_2_1 initial).1.

(** The text [{"bn":"B-17","cn":"TR-0042"}]. *)
Definition qr_box : jsstring :=
  js "{" ++ dquote ++ js "bn" ++ dquote ++ js ":" ++ dquote ++ js "B-17"
  ++ dquote ++ js "," ++ dquote ++ js "cn" ++ dquote ++ js ":" ++ dquote
  ++ js "TR-0042" ++ dquote ++ js "}".

End TransferInScan.

(* ===================================================================== *)
(** * Part II. Lemmas and theorems                                        *)
(* ===================================================================== *)

Import JS PageMerger TransferIn.

(** ** The JavaScript helpers on examples *)

Example trim_examples :
  trim (js "  PO1 ") = js "PO1"
  ∧ trim (js "   ") = []
  ∧ trim ([160; 9; 8232]%N ++ js "a b" ++ [65279]%N) = js "a b".
Proof. vm_compute. by split_and!. Qed.

Example parseFloat_examples :
  parseFloat (js "5") = Dec false 5 0
  ∧ parseFloat (js "") = NaN
  ∧ parseFloat (js "   ") = NaN
  ∧ parseFloat (js "  -12.50e+2kg") = Dec true 1250 0
  ∧ parseFloat (js ".") = NaN
  ∧ parseFloat (js "5.") = Dec false 5 0
  ∧ parseFloat (js ".5") = Dec false 5 (-1)
  ∧ parseFloat (js "5e") = Dec false 5 0
  ∧ parseFloat (js "abc") = NaN
  ∧ parseFloat (js "-Infinityx") = Infinity true.
Proof. vm_compute. by split_and!. Qed.

Example truthy_number_examples :
  truthy_number (Dec false 0 0) = false
  ∧ truthy_number (Dec true 0 3) = false
  ∧ truthy_number (Dec false 1 (-400)) = false
  ∧ truthy_number (Dec false 1 (-300)) = true
  ∧ truthy_number NaN = false
  ∧ truthy_number (Infinity true) = true.
Proof. vm_compute. by split_and!. Qed.

Example String_examples :
  String_ (SNum (Dec false 5 0)) = js "5"
  ∧ String_ (SNum (Dec false 125 (-1))) = js "12.5"
  ∧ String_ (SNum (Dec true 1250 0)) = js "-1250"
  ∧ String_ (SNum (Dec false 1 21)) = js "1e+21"
  ∧ String_ (SNum (Dec false 1 (-7))) = js "1e-7"
  ∧ String_ (SNum (Dec false 1 (-6))) = js "0.000001"
  ∧ String_ (SNum (Dec true 0 0)) = js "0"
  ∧ String_ (SNum (number_of_Z 42)) = js "42"
  ∧ String_ SUndefined = js "undefined"
  ∧ String_ (SStr (js "B-17")) = js "B-17".
Proof. vm_compute. by split_and!. Qed.

Example Number_examples :
  Number_ (SStr (js " 12.5 ")) = Dec false 125 (-1)
  ∧ Number_ (SStr []) = Dec false 0 0
  ∧ Number_ (SStr (js "0x1F")) = Dec false 31 0
  ∧ Number_ (SStr (js "12px")) = NaN
  ∧ Number_ (SStr (js "-0x10")) = NaN
  ∧ Number_ SUndefined = NaN
  ∧ Number_ SNull = Dec false 0 0
  ∧ Number_ (SBool true) = Dec false 1 0.
Proof. vm_compute. by split_and!. Qed.

Example JSON_parse_examples :
  JSON_parse (js "TRANS202510191445") = None
  ∧ JSON_parse (js "123") = Some (JNum (Dec false 123 0))
  ∧ JSON_parse (js " null ") = Some JNull
  ∧ JSON_parse (js "01") = None
  ∧ JSON_parse (js "[1, 2.5e3 ,true, {}]")
    = Some (JArr [JNum (Dec false 1 0); JNum (Dec false 25 2); JBool true;
                  JObj []])
  ∧ JSON_parse (js "[1,]") = None
  ∧ JSON_parse (js "") = None
  ∧ JSON_parse qr_challan_only
    = Some (JObj [(js "challan_no", JStr (js "CH-9"));
                  (js "transfer_no", JNum (Dec false 0 0))]).
Proof. vm_compute. by split_and!. Qed.

Example grnNumber_example : grnNumber sample_now = js "GRN-20260305140709".
Proof. vm_compute. reflexivity. Qed.

(** ** The fuel of the JSON parser is enough *)

Section JSONFuel.
Implicit Types (s r : jsstring).

Lemma skip_ws_length s : length (skip_ws s) ≤ length s.
Proof.
  induction s as [|c s IH]; simpl; [done|].
  destruct (is_json_ws c); simpl; lia.
Qed.

Lemma read_digits_length s (a : N) (n : nat) :
  length (read_digits s a n).2 ≤ length s.
Proof.
  revert a n. induction s as [|c s IH]; intros a n; simpl; [done|].
  destruct (is_digit c); simpl; [|done].
  specialize (IH (a * 10 + (c - 48))%N (S n)). lia.
Qed.

Lemma read_sign_length s : length (read_sign s).2 ≤ length s.
Proof. unfold read_sign. repeat case_match; simpl; lia. Qed.

Lemma strip_prefix_length (p : jsstring) s r :
  strip_prefix p s = Some r → length r ≤ length s.
Proof.
  revert s. induction p as [|a p IH]; intros s; simpl.
  - by intros [= ->].
  - destruct s as [|b s]; [done|]. destruct (a =? b)%N; [|done].
    intros H. apply IH in H. simpl. lia.
Qed.

Lemma parse_literal_length (name : string) (v v' : json) r r' :
  parse_literal name v r = Some (v', r') → length r' ≤ length r.
Proof.
  unfold parse_literal.
  destruct (strip_prefix (js name) r) as [r0|] eqn:H; [|done].
  intros [= _ <-]. by eapply strip_prefix_length.
Qed.

Lemma parse_chars_length s (acc str : jsstring) r :
  parse_chars s acc = Some (str, r) → length r < length s.
Proof.
  remember (length s) as n eqn:Hn.
  assert (length s ≤ n) as Hle by lia. clear Hn.
  revert s acc Hle. induction n as [|n IH]; intros s acc Hle.
  - destruct s; [done|simpl in Hle; lia].
  - destruct s as [|c rest]; [done|]. simpl in Hle. simpl.
    destruct (c =? 34)%N; [intros [= _ <-]; lia|].
    destruct (c =? 92)%N.
    + destruct rest as [|e r0]; [done|]. simpl in Hle.
      assert (∀ acc', parse_chars r0 acc' = Some (str, r) →
                length r < S n) as Hr0.
      { intros acc' H. apply IH in H; lia. }
      repeat case_match; try done;
        try (intros Hp; by apply Hr0 in Hp).
      subst. simpl in Hle. intros Hp. apply IH in Hp; simpl in *; lia.
    + destruct (c <? 32)%N; [done|]. intros H. apply IH in H; lia.
Qed.

Lemma parse_json_fraction_length (ip : N) s (m : N) (e : Z) r :
  parse_json_fraction ip s = Some (m, e, r) → length r ≤ length s.
Proof.
  unfold parse_json_fraction. destruct s as [|c s3]; [by intros [= _ _ <-]|].
  destruct (c =? 46)%N; [|by intros [= _ _ <-]].
  pose proof (read_digits_length s3 0%N 0%nat) as Hd.
  destruct (read_digits s3 0%N 0%nat) as [[fp nf] s4]. simpl in Hd.
  destruct (nf =? 0); [done|]. intros [= _ _ <-]. simpl. lia.
Qed.

Lemma parse_json_exponent_length s (x : Z) r :
  parse_json_exponent s = Some (x, r) → length r ≤ length s.
Proof.
  unfold parse_json_exponent. destruct s as [|c s5]; [by intros [= _ <-]|].
  destruct ((c =? 101) || (c =? 69))%N; [|by intros [= _ <-]].
  pose proof (read_sign_length s5) as Hs.
  destruct (read_sign s5) as [eneg s6]. simpl in Hs.
  pose proof (read_digits_length s6 0%N 0%nat) as Hd.
  destruct (read_digits s6 0%N 0%nat) as [[v n] s7]. simpl in Hd.
  destruct (n =? 0); [done|]. intros [= _ <-]. simpl. lia.
Qed.

Lemma parse_json_number_length s (x : number) r :
  parse_json_number s = Some (x, r) → length r < length s.
Proof.
  unfold parse_json_number.
  set (sg := match s with
             | c :: t => if (c =? 45)%N then (true, t) else (false, s)
             | [] => (false, s)
             end).
  assert (length sg.2 ≤ length s) as Hsg.
  { unfold sg. destruct s as [|c t]; [done|].
    destruct (c =? 45)%N; simpl; lia. }
  destruct sg as [neg s1]. simpl in Hsg.
  destruct s1 as [|c s2]; [done|]. simpl in Hsg.
  assert (∀ ip s2', length s2' ≤ length s2 →
            match parse_json_fraction ip s2' with
            | Some (m, e, s4) =>
                match parse_json_exponent s4 with
                | Some (x0, s7) => Some (Dec neg m (e + x0), s7)
                | None => None
                end
            | None => None
            end = Some (x, r) → length r < length s) as Hrest.
  { intros ip s2' Hle.
    destruct (parse_json_fraction ip s2') as [[[m e] s4]|] eqn:Hf; [|done].
    apply parse_json_fraction_length in Hf.
    destruct (parse_json_exponent s4) as [[x0 s7]|] eqn:He; [|done].
    apply parse_json_exponent_length in He.
    intros [= _ <-]. lia. }
  destruct (c =? 48)%N; [by apply Hrest|].
  destruct (is_digit c) eqn:Hc; [|done].
  pose proof (read_digits_length (c :: s2) 0%N 0%nat) as Hd.
  simpl in Hd. rewrite Hc in Hd.
  change (read_digits (c :: s2) 0%N 0%nat)
    with (if is_digit c then read_digits s2 (0 * 10 + (c - 48))%N 1
          else (0%N, 0, c :: s2)).
  rewrite Hc.
  pose proof (read_digits_length s2 (0 * 10 + (c - 48))%N 1) as Hd2.
  destruct (read_digits s2 (0 * 10 + (c - 48))%N 1) as [[ip n0] s2'].
  simpl in Hd2. by apply Hrest.
Qed.

(** Every successful call consumes at least one code unit. *)
Lemma parse_progress (f : nat) :
  (∀ s v r, parse_value f s = Some (v, r) → length r < length s)
  ∧ (∀ s acc v r, parse_elements f s acc = Some (v, r) → length r < length s)
  ∧ (∀ s acc v r, parse_members f s acc = Some (v, r) → length r < length s).
Proof.
  induction f as [|f (IHv & IHe & IHm)]; [by split_and!|].
  split_and!.
  - intros s v r. cbn [parse_value]. unfold value_step.
    pose proof (skip_ws_length s) as Hs.
    destruct (skip_ws s) as [|c r0]; [done|]. simpl in Hs.
    destruct (c =? 110)%N;
      [intros H; apply parse_literal_length in H; lia|].
    destruct (c =? 116)%N;
      [intros H; apply parse_literal_length in H; lia|].
    destruct (c =? 102)%N;
      [intros H; apply parse_literal_length in H; lia|].
    destruct (c =? 34)%N.
    { destruct (parse_chars r0 []) as [[str r']|] eqn:Hc; [|done].
      apply parse_chars_length in Hc. intros [= _ <-]. lia. }
    destruct (c =? 91)%N.
    { pose proof (skip_ws_length r0) as Hr.
      destruct (skip_ws r0) as [|c' r']; [done|]. simpl in Hr.
      destruct (c' =? 93)%N; [intros [= _ <-]; lia|].
      intros H. apply IHe in H. lia. }
    destruct (c =? 123)%N.
    { pose proof (skip_ws_length r0) as Hr.
      destruct (skip_ws r0) as [|c' r']; [done|]. simpl in Hr.
      destruct (c' =? 125)%N; [intros [= _ <-]; lia|].
      intros H. apply IHm in H. lia. }
    destruct (parse_json_number (c :: r0)) as [[n r']|] eqn:Hn; [|done].
    apply parse_json_number_length in Hn. simpl in Hn.
    intros [= _ <-]. lia.
  - intros s acc v r. cbn [parse_elements]. unfold elements_step.
    destruct (parse_value f s) as [[v1 r1]|] eqn:Hv; [|done].
    apply IHv in Hv.
    pose proof (skip_ws_length r1) as Hr.
    destruct (skip_ws r1) as [|c r']; [done|]. simpl in Hr.
    destruct (c =? 44)%N; [intros H; apply IHe in H; lia|].
    destruct (c =? 93)%N; [|done]. intros [= _ <-]. lia.
  - intros s acc v r. cbn [parse_members]. unfold members_step.
    pose proof (skip_ws_length s) as Hs.
    destruct (skip_ws s) as [|q r0]; [done|]. simpl in Hs.
    destruct (q =? 34)%N; [|done].
    destruct (parse_chars r0 []) as [[key r1]|] eqn:Hc; [|done].
    apply parse_chars_length in Hc.
    pose proof (skip_ws_length r1) as Hr1.
    destruct (skip_ws r1) as [|c r2]; [done|]. simpl in Hr1.
    destruct (c =? 58)%N; [|done].
    destruct (parse_value f r2) as [[v1 r3]|] eqn:Hv; [|done].
    apply IHv in Hv.
    pose proof (skip_ws_length r3) as Hr3.
    destruct (skip_ws r3) as [|c' r4]; [done|]. simpl in Hr3.
    destruct (c' =? 44)%N; [intros H; apply IHm in H; lia|].
    destruct (c' =? 125)%N; [|done]. intros [= _ <-]. lia.
Qed.

(** A level gives the same answer with any readers that agree on the
    shorter texts. *)
Lemma value_step_ext e1 e2 m1 m2 s :
  (∀ r acc, length r < length s → e1 r acc = e2 r acc) →
  (∀ r acc, length r < length s → m1 r acc = m2 r acc) →
  value_step e1 m1 s = value_step e2 m2 s.
Proof.
  intros He Hm. unfold value_step.
  pose proof (skip_ws_length s) as Hs.
  destruct (skip_ws s) as [|c r]; [done|]. simpl in Hs.
  repeat (case_match; try done); [apply He | apply Hm]; lia.
Qed.

Lemma elements_step_ext v1 v2 e1 e2 s acc :
  v1 s = v2 s →
  (∀ v r, v2 s = Some (v, r) → length r < length s) →
  (∀ r acc', length r + 1 < length s → e1 r acc' = e2 r acc') →
  elements_step v1 e1 s acc = elements_step v2 e2 s acc.
Proof.
  intros Hv Hp He. unfold elements_step. rewrite Hv.
  destruct (v2 s) as [[v r]|] eqn:Hvs; [|done].
  specialize (Hp v r eq_refl).
  pose proof (skip_ws_length r) as Hr.
  destruct (skip_ws r) as [|c r']; [done|]. simpl in Hr.
  destruct (c =? 44)%N; [|done]. apply He. lia.
Qed.

Lemma members_step_ext v1 v2 m1 m2 s acc :
  (∀ r, length r + 2 < length s → v1 r = v2 r) →
  (∀ r0 v r, v2 r0 = Some (v, r) → length r < length r0) →
  (∀ r acc', length r + 3 < length s → m1 r acc' = m2 r acc') →
  members_step v1 m1 s acc = members_step v2 m2 s acc.
Proof.
  intros Hv Hp Hm. unfold members_step.
  pose proof (skip_ws_length s) as Hs.
  destruct (skip_ws s) as [|q r]; [done|]. simpl in Hs.
  destruct (q =? 34)%N; [|done].
  destruct (parse_chars r []) as [[key r1]|] eqn:Hc; [|done].
  apply parse_chars_length in Hc.
  pose proof (skip_ws_length r1) as Hr1.
  destruct (skip_ws r1) as [|c r2]; [done|]. simpl in Hr1.
  destruct (c =? 58)%N; [|done].
  rewrite Hv by lia.
  destruct (v2 r2) as [[v r3]|] eqn:Hv2; [|done].
  apply Hp in Hv2.
  pose proof (skip_ws_length r3) as Hr3.
  destruct (skip_ws r3) as [|c' r4]; [done|]. simpl in Hr3.
  destruct (c' =? 44)%N; [|done]. apply Hm. lia.
Qed.

(** Past twice the length of the text, more fuel changes nothing. *)
Lemma parse_fuel_step (f : nat) :
  (∀ s, 2 * length s + 1 ≤ f → parse_value (S f) s = parse_value f s)
  ∧ (∀ s acc, 2 * length s + 2 ≤ f →
       parse_elements (S f) s acc = parse_elements f s acc)
  ∧ (∀ s acc, 2 * length s + 2 ≤ f →
       parse_members (S f) s acc = parse_members f s acc).
Proof.
  induction f as [|f (IHv & IHe & IHm)].
  { split_and!; intros; lia. }
  destruct (parse_progress f) as (Pv & _ & _).
  split_and!.
  - intros s Hf. cbn [parse_value]. apply value_step_ext.
    + intros r acc Hr. apply IHe. lia.
    + intros r acc Hr. apply IHm. lia.
  - intros s acc Hf. cbn [parse_elements]. apply elements_step_ext.
    + apply IHv. lia.
    + apply Pv.
    + intros r acc' Hr. apply IHe. lia.
  - intros s acc Hf. cbn [parse_members]. apply members_step_ext.
    + intros r Hr. apply IHv. lia.
    + apply Pv.
    + intros r acc' Hr. apply IHm. lia.
Qed.

(** [JSON_parse] gives the answer that any larger fuel gives. *)
Lemma JSON_parse_fuel s (extra : nat) :
  parse_value (2 * length s + 2 + extra) s
  = parse_value (2 * length s + 2) s.
Proof.
  induction extra as [|extra IH].
  - by rewrite Nat.add_0_r.
  - rewrite Nat.add_succ_r.
    destruct (parse_fuel_step (2 * length s + 2 + extra)) as [Hv _].
    rewrite Hv by lia. done.
Qed.

End JSONFuel.

(** ** Facts about the fill loop *)

Section FillFacts.
Context {X : Type}.
Implicit Types (e p : POExtractResponse X) (f g : field).

Lemma po_number_assign f e p : po_number (assign_field f e p) = po_number e.
Proof. by destruct f. Qed.

Lemma articles_assign f e p : articles (assign_field f e p) = articles e.
Proof. by destruct f. Qed.

Lemma get_field_assign_eq f e p :
  get_field f (assign_field f e p) = get_field f p.
Proof. by destruct f. Qed.

Lemma get_field_assign_ne f g e p :
  f ≠ g → get_field g (assign_field f e p) = get_field g e.
Proof. by destruct f, g. Qed.

Lemma po_number_fill_one p e f : po_number (fill_one p e f) = po_number e.
Proof. unfold fill_one. case_match; [apply po_number_assign | done]. Qed.

Lemma articles_fill_one p e f : articles (fill_one p e f) = articles e.
Proof. unfold fill_one. case_match; [apply articles_assign | done]. Qed.

Lemma get_field_fill_one_ne p e f g :
  f ≠ g → get_field g (fill_one p e f) = get_field g e.
Proof.
  intros Hne. unfold fill_one.
  case_match; [by apply get_field_assign_ne | done].
Qed.

Lemma get_field_fill_one_eq p e f :
  get_field f (fill_one p e f) = filled_value (get_field f e) (get_field f p).
Proof.
  unfold fill_one, filled_value.
  case_match; [apply get_field_assign_eq | done].
Qed.

Lemma fold_fill_po_number p (l : list field) e :
  po_number (fold_left (fill_one p) l e) = po_number e.
Proof.
  revert e. induction l as [|f l IH]; intros e; simpl; [done|].
  by rewrite IH, po_number_fill_one.
Qed.

Lemma fold_fill_articles p (l : list field) e :
  articles (fold_left (fill_one p) l e) = articles e.
Proof.
  revert e. induction l as [|f l IH]; intros e; simpl; [done|].
  by rewrite IH, articles_fill_one.
Qed.

Lemma fold_fill_notin p (l : list field) e g :
  g ∉ l → get_field g (fold_left (fill_one p) l e) = get_field g e.
Proof.
  revert e. induction l as [|f l IH]; intros e Hg; simpl; [done|].
  apply not_elem_of_cons in Hg as [Hne Hg].
  rewrite IH by done. by apply get_field_fill_one_ne.
Qed.

Lemma fold_fill_in p (l : list field) e g :
  NoDup l → g ∈ l →
  get_field g (fold_left (fill_one p) l e)
  = filled_value (get_field g e) (get_field g p).
Proof.
  revert e. induction l as [|f l IH]; intros e Hnd Hg; simpl.
  - by apply elem_of_nil in Hg.
  - apply NoDup_cons in Hnd as [Hf Hnd].
    apply elem_of_cons in Hg as [->|Hg].
    + rewrite fold_fill_notin by done. apply get_field_fill_one_eq.
    + rewrite IH by done.
      rewrite get_field_fill_one_ne; [done|]. by intros ->.
Qed.

Lemma fillFields_NoDup : NoDup fillFields.
Proof. by apply (bool_decide_unpack (NoDup fillFields)). Qed.

Lemma fillFields_complete f : f ∈ fillFields.
Proof. by destruct f; apply (bool_decide_unpack (_ ∈ fillFields)). Qed.

Lemma po_number_fill e p : po_number (fill e p) = po_number e.
Proof. apply fold_fill_po_number. Qed.

Lemma articles_fill e p : articles (fill e p) = articles e.
Proof. apply fold_fill_articles. Qed.

Lemma get_field_fill e p f :
  get_field f (fill e p) = filled_value (get_field f e) (get_field f p).
Proof. apply fold_fill_in; [apply fillFields_NoDup | apply fillFields_complete]. Qed.

Lemma get_field_set_articles e (a : X) f :
  get_field f (set_articles e a) = get_field f e.
Proof. by destruct f. Qed.

Lemma poNum_of_po_number e p : po_number e = po_number p → poNum_of e = poNum_of p.
Proof. unfold poNum_of. by intros ->. Qed.

End FillFacts.

(** ** Facts about one turn of the merge loop *)

Section MergeFacts.
Context {A : Type}.
Implicit Types (po existing prev : PO A) (st : merge_state A).

Lemma articles_of_set_articles po (l : list A) :
  articles_of (set_articles po (Some l)) = l.
Proof. done. Qed.

Lemma poNum_of_set_articles po (a : option (list A)) :
  poNum_of (set_articles po a) = poNum_of po.
Proof. done. Qed.

Lemma merge_into_continues existing po :
  continues existing po (merge_into existing po).
Proof.
  unfold merge_into. split; [|split].
  - by rewrite po_number_fill.
  - by rewrite articles_fill.
  - intros f. by rewrite get_field_fill, get_field_set_articles.
Qed.

Lemma poNum_of_merge_into existing po :
  poNum_of (merge_into existing po) = poNum_of existing.
Proof.
  apply poNum_of_po_number. apply (merge_into_continues existing po).
Qed.

Lemma articles_of_merge_into existing po :
  articles_of (merge_into existing po) = articles_of existing ++ articles_of po.
Proof.
  unfold articles_of at 1.
  by destruct (merge_into_continues existing po) as (_ & -> & _).
Qed.

Lemma poNum_of_fresh_copy po : poNum_of (fresh_copy po) = poNum_of po.
Proof. done. Qed.

Lemma articles_of_fresh_copy po : articles_of (fresh_copy po) = articles_of po.
Proof. done. Qed.

(** A record whose [articles] is an array is its own fresh copy. *)
Lemma fresh_copy_id po : is_Some (articles po) → fresh_copy po = po.
Proof. intros [l Hl]. destruct po; simpl in *. by subst. Qed.

Lemma key_in_false (k : jsstring) (seen : gmap jsstring nat) :
  key_in k seen = false ↔ seen !! k = None ∧ inObjectPrototype k = false.
Proof.
  unfold key_in. rewrite orb_false_iff, bool_decide_eq_false.
  by rewrite <- eq_None_not_Some.
Qed.

Lemma not_proto_key_set (k : jsstring) (n : nat) (seen : gmap jsstring nat) :
  inObjectPrototype k = false → key_set k n seen = <[k := n]> seen.
Proof.
  intros Hk. unfold key_set. case_bool_decide as Heq; [|done].
  subst k. by vm_compute in Hk.
Qed.

Lemma initial_inv : merge_inv (@initial_state A).
Proof.
  split; simpl; intros *; try (by rewrite lookup_empty);
    try (by rewrite lookup_nil).
Qed.

Lemma merge_po_turn st po st' : merge_po st po = Some st' → turn st po st'.
Proof.
  unfold merge_po. destruct (poNum_of po) as [k|] eqn:Hk.
  - destruct (key_in k (seenPONumbers st)) eqn:Hin.
    + destruct (seenPONumbers st !! k) as [i|] eqn:Hi; [|done].
      destruct (allPOs st !! i) as [existing|] eqn:He; [|done].
      intros [= <-]. by eapply turn_same_key.
    + apply key_in_false in Hin as [Hnone Hproto].
      intros [= <-]. rewrite not_proto_key_set by done.
      by apply turn_new_key.
  - destruct (length (articles_of po) =? 0)%nat eqn:Hlen.
    + apply Nat.eqb_eq, nil_length_inv in Hlen.
      intros [= <-]. by apply turn_skip.
    + apply Nat.eqb_neq in Hlen.
      assert (articles_of po ≠ []) as Hne by (by intros Heq; rewrite Heq in Hlen).
      destruct (0 <? length (allPOs st))%nat eqn:Hpos.
      * destruct (allPOs st !! (length (allPOs st) - 1)%nat) as [prev|] eqn:Hp;
          [|done].
        intros [= <-]. by apply turn_continue_last.
      * apply Nat.ltb_ge in Hpos.
        assert (allPOs st = []) as Hnil by (apply nil_length_inv; lia).
        intros [= <-]. rewrite Hnil. by apply turn_first_orphan.
Qed.

Lemma inv_update st i existing po :
  merge_inv st → allPOs st !! i = Some existing →
  merge_inv (mkState (<[i := merge_into existing po]> (allPOs st))
                     (seenPONumbers st)).
Proof.
  intros [Hseen Hkeyed Horph Harts Hproto] He.
  assert (i < length (allPOs st))%nat as Hi by (by eapply lookup_lt_Some).
  assert (∀ j p, <[i := merge_into existing po]> (allPOs st) !! j = Some p →
            ∃ q, allPOs st !! j = Some q ∧ poNum_of p = poNum_of q
                 ∧ is_Some (articles p)
                 ∧ (articles_of q ≠ [] → articles_of p ≠ [])) as Hold.
  { intros j p Hj. destruct (decide (i = j)) as [<-|Hne].
    - rewrite list_lookup_insert_eq in Hj by done. injection Hj as <-.
      exists existing. split_and!; [done|apply poNum_of_merge_into| |].
      + destruct (merge_into_continues existing po) as (_ & -> & _). by eexists.
      + rewrite articles_of_merge_into. by destruct (articles_of existing).
    - rewrite list_lookup_insert_ne in Hj by done.
      exists p. split_and!; eauto. }
  split; simpl.
  - intros k j Hk. destruct (Hseen k j Hk) as (q & Hq & Hkq).
    destruct (decide (i = j)) as [<-|Hne].
    + exists (merge_into existing po).
      rewrite list_lookup_insert_eq by done. split; [done|].
      rewrite poNum_of_merge_into. congruence.
    + exists q. by rewrite list_lookup_insert_ne.
  - intros j p k Hj Hk. destruct (Hold j p Hj) as (q & Hq & Hpq & _).
    eapply Hkeyed; [done|congruence].
  - intros j p Hj Hk. destruct (Hold j p Hj) as (q & Hq & Hpq & _ & Hne).
    destruct (Horph j q Hq) as [-> Hqne]; [congruence|]. auto.
  - intros j p Hj. by destruct (Hold j p Hj) as (q & _ & _ & ? & _).
  - done.
Qed.

Lemma inv_push st po k :
  merge_inv st → poNum_of po = Some k → seenPONumbers st !! k = None →
  inObjectPrototype k = false →
  merge_inv (mkState (allPOs st ++ [fresh_copy po])
                     (<[k := length (allPOs st)]> (seenPONumbers st))).
Proof.
  intros [Hseen Hkeyed Horph Harts Hproto] Hk Hnone Hnp.
  assert (∀ j p, (allPOs st ++ [fresh_copy po]) !! j = Some p →
            allPOs st !! j = Some p
            ∨ (j = length (allPOs st) ∧ p = fresh_copy po)) as Hold.
  { intros j p Hj. apply lookup_app_Some in Hj as [Hj|[Hge Hj]]; [by left|].
    right. apply list_lookup_singleton_Some in Hj as [Hz <-].
    split; [lia|done]. }
  split; simpl.
  - intros k' j Hk'. destruct (decide (k = k')) as [<-|Hne].
    + rewrite lookup_insert_eq in Hk'. injection Hk' as <-.
      exists (fresh_copy po). split; [|by rewrite poNum_of_fresh_copy].
      rewrite lookup_app_r by lia. by rewrite Nat.sub_diag.
    + rewrite lookup_insert_ne in Hk' by done.
      destruct (Hseen k' j Hk') as (q & Hq & Hkq).
      exists q. split; [|done]. by apply lookup_app_l_Some.
  - intros j p k' Hj Hk'. destruct (Hold j p Hj) as [Hj'|[-> ->]].
    + assert (seenPONumbers st !! k' = Some j) as Hs by eauto.
      rewrite lookup_insert_ne; [done|]. intros <-. congruence.
    + rewrite poNum_of_fresh_copy in Hk'.
      assert (k' = k) as -> by congruence. apply lookup_insert_eq.
  - intros j p Hj Hk'. destruct (Hold j p Hj) as [Hj'|[-> ->]]; [eauto|].
    rewrite poNum_of_fresh_copy in Hk'. congruence.
  - intros j p Hj. destruct (Hold j p Hj) as [Hj'|[-> ->]]; [eauto|].
    by eexists.
  - intros k' Hk'. destruct (decide (k = k')) as [<-|Hne]; [done|].
    rewrite lookup_insert_ne in Hk' by done. auto.
Qed.

Lemma inv_first_orphan st po :
  merge_inv st → poNum_of po = None → articles_of po ≠ [] →
  allPOs st = [] →
  merge_inv (mkState [fresh_copy po] (seenPONumbers st)).
Proof.
  intros [Hseen Hkeyed Horph Harts Hproto] Hk Hne Hnil.
  assert (∀ k, seenPONumbers st !! k = None) as Hempty.
  { intros k. destruct (seenPONumbers st !! k) as [i|] eqn:Hi; [|done].
    destruct (Hseen k i Hi) as (q & Hq & _).
    rewrite Hnil in Hq. by rewrite lookup_nil in Hq. }
  split; simpl.
  - intros k i Hi. by rewrite Hempty in Hi.
  - intros j p k Hj Hk'. apply list_lookup_singleton_Some in Hj as [-> <-].
    rewrite poNum_of_fresh_copy in Hk'. congruence.
  - intros j p Hj _. by apply list_lookup_singleton_Some in Hj as [-> <-].
  - intros j p Hj. apply list_lookup_singleton_Some in Hj as [-> <-].
    by eexists.
  - done.
Qed.

Lemma turn_inv st po st' : merge_inv st → turn st po st' → merge_inv st'.
Proof.
  intros Hinv Hturn.
  destruct Hturn; eauto using inv_update, inv_push, inv_first_orphan.
Qed.

Lemma merge_po_inv st po st' :
  merge_inv st → merge_po st po = Some st' → merge_inv st'.
Proof. eauto using turn_inv, merge_po_turn. Qed.

Lemma merge_pos_inv pos st st' :
  merge_inv st → merge_pos st pos = Some st' → merge_inv st'.
Proof.
  revert st. induction pos as [|po pos IH]; intros st Hinv; simpl.
  - by intros [= <-].
  - destruct (merge_po st po) as [st1|] eqn:H1; [|done].
    eauto using merge_po_inv.
Qed.

Lemma merge_page_inv page st st' :
  merge_inv st → merge_page st page = Some st' → merge_inv st'.
Proof.
  unfold merge_page. intros Hinv.
  destruct (purchase_orders page) as [pos|]; [|by intros [= <-]].
  destruct (length pos =? 0)%nat; [by intros [= <-]|].
  by apply merge_pos_inv.
Qed.

Lemma merge_pages_inv pages st st' :
  merge_inv st → merge_pages st pages = Some st' → merge_inv st'.
Proof.
  revert st. induction pages as [|page pages IH]; intros st Hinv; simpl.
  - by intros [= <-].
  - destruct (merge_page st page) as [st1|] eqn:H1; [|done].
    eauto using merge_page_inv.
Qed.

(** A turn throws exactly when the entry's key is a name that every
    object inherits. *)
Lemma merge_po_returns st po :
  merge_inv st →
  (∀ k, poNum_of po = Some k → inObjectPrototype k = false) →
  is_Some (merge_po st po).
Proof.
  intros Hinv Hk. unfold merge_po.
  destruct (poNum_of po) as [k|] eqn:Hpo.
  - unfold key_in. rewrite (Hk k eq_refl), orb_false_r.
    case_bool_decide as Hin; [|by eexists].
    destruct Hin as [i Hi]. rewrite Hi.
    destruct (inv_seen st Hinv k i Hi) as (p & -> & _). by eexists.
  - destruct (length (articles_of po) =? 0)%nat; [by eexists|].
    destruct (0 <? length (allPOs st))%nat eqn:Hpos; [|by eexists].
    apply Nat.ltb_lt in Hpos.
    destruct (lookup_lt_is_Some_2 (allPOs st) (length (allPOs st) - 1))
      as [prev ->]; [lia|]. by eexists.
Qed.

Lemma merge_po_throws st po k :
  merge_inv st → poNum_of po = Some k → inObjectPrototype k = true →
  merge_po st po = None.
Proof.
  intros Hinv Hpo Hk. unfold merge_po. rewrite Hpo.
  unfold key_in. rewrite Hk, orb_true_r.
  destruct (seenPONumbers st !! k) as [i|] eqn:Hi; [|done].
  rewrite (inv_proto st Hinv k) in Hk by eauto. done.
Qed.

Lemma merge_pos_returns pos st :
  merge_inv st →
  (∀ po k, po ∈ pos → poNum_of po = Some k → inObjectPrototype k = false) →
  is_Some (merge_pos st pos).
Proof.
  revert st. induction pos as [|po pos IH]; intros st Hinv Hk; simpl.
  - by eexists.
  - destruct (merge_po_returns st po Hinv) as [st' Hst'].
    { intros k. apply Hk. by left. }
    rewrite Hst'. apply IH; [by eapply merge_po_inv|].
    intros po' k Hin. apply Hk. by right.
Qed.

(** The two loops visit the entries of the pages in order. *)
Lemma merge_pages_entries pages st :
  merge_pages st pages = merge_pos st (entries pages).
Proof.
  assert (∀ pos1 pos2 st0,
            merge_pos st0 (pos1 ++ pos2)
            = match merge_pos st0 pos1 with
              | Some st1 => merge_pos st1 pos2
              | None => None
              end) as Happ.
  { induction pos1 as [|po pos1 IH]; intros pos2 st0; simpl; [done|].
    destruct (merge_po st0 po); [apply IH|done]. }
  revert st. induction pages as [|page pages IH]; intros st; simpl; [done|].
  rewrite Happ. unfold merge_page.
  destruct (purchase_orders page) as [pos|]; simpl; [|apply IH].
  destruct pos as [|po pos]; simpl; [apply IH|].
  destruct (merge_po st po) as [st1|]; [|done].
  destruct (merge_pos st1 pos) as [st2|]; [apply IH|done].
Qed.

(** [mergePageResults] returns whenever no entry is numbered with a name
    that every object inherits. *)
Lemma mergePageResults_returns (pages : list (PageExtractResponse A)) :
  (∀ po k, po ∈ entries pages → poNum_of po = Some k →
           inObjectPrototype k = false) →
  is_Some (mergePageResults pages).
Proof.
  intros Hk. unfold mergePageResults. rewrite merge_pages_entries.
  destruct (merge_pos_returns (entries pages) initial_state initial_inv Hk)
    as [st ->]. by eexists.
Qed.

Lemma merge_page_singleton st po (page : PageExtractResponse A) :
  purchase_orders page = Some [po] → merge_page st page = merge_po st po.
Proof.
  unfold merge_page. intros ->. simpl. by destruct (merge_po st po).
Qed.

(** Merging the merged orders again, one page each, rebuilds them one by
    one: [pre] is what has been rebuilt, [rest] what is still to come. *)
Lemma remerge_from (out : list (PO A)) (seenF : gmap jsstring nat) :
  merge_inv (mkState out seenF) →
  ∀ rest pre wrapped seen,
    out = pre ++ rest →
    singleton_pages wrapped rest →
    (∀ k, is_Some (seen !! k) →
          ∃ j p, pre !! j = Some p ∧ poNum_of p = Some k) →
    ∃ seen', merge_pages (mkState pre seen) wrapped = Some (mkState out seen').
Proof.
  intros [Hseen Hkeyed Horph Harts Hproto]. simpl in *.
  induction rest as [|po rest IH]; intros pre wrapped seen Hout Hw Hsub.
  - apply Forall2_nil_inv_r in Hw as ->. rewrite app_nil_r in Hout.
    subst pre. by eexists.
  - apply Forall2_cons_inv_r in Hw as (page & wrapped' & Hpage & Hw & ->).
    assert (out !! length pre = Some po) as Hpo.
    { rewrite Hout. by rewrite list_lookup_middle. }
    simpl. rewrite (merge_page_singleton _ po) by done.
    assert (merge_po (mkState pre seen) po
            = Some (mkState (pre ++ [po])
                      (match poNum_of po with
                       | Some k => <[k := length pre]> seen
                       | None => seen
                       end))) as ->.
    { unfold merge_po. simpl.
      rewrite (fresh_copy_id po) by eauto.
      destruct (poNum_of po) as [k|] eqn:Hk.
      - assert (key_in k seen = false) as ->.
        { apply key_in_false. split.
          - apply eq_None_not_Some. intros Hin.
            destruct (Hsub k Hin) as (j & p & Hj & Hkp).
            assert (j < length pre)%nat by (by eapply lookup_lt_Some).
            assert (out !! j = Some p) as Hj'.
            { rewrite Hout. by apply lookup_app_l_Some. }
            pose proof (Hkeyed _ _ _ Hj' Hkp) as E1.
            pose proof (Hkeyed _ _ _ Hpo Hk) as E2.
            rewrite E1 in E2. injection E2 as ->. lia.
          - apply Hproto. exists (length pre). eauto. }
        rewrite not_proto_key_set; [done|].
        apply Hproto. exists (length pre). eauto.
      - destruct (Horph _ _ Hpo Hk) as [Hz Hne].
        apply nil_length_inv in Hz. subst pre. simpl.
        destruct (articles_of po); [done|]. done. }
    apply IH.
    + by rewrite <- app_assoc.
    + done.
    + intros k Hin. destruct (poNum_of po) as [k0|] eqn:Hk.
      * destruct (decide (k0 = k)) as [->|Hne].
        -- exists (length pre), po. split; [|done].
           by rewrite list_lookup_middle.
        -- rewrite lookup_insert_ne in Hin by done.
           destruct (Hsub k Hin) as (j & p & Hj & Hkp).
           exists j, p. split; [|done]. by apply lookup_app_l_Some.
      * destruct (Hsub k Hin) as (j & p & Hj & Hkp).
        exists j, p. split; [|done]. by apply lookup_app_l_Some.
Qed.

End MergeFacts.

(** ** The claims about the merger *)

Section MergeClaims.
Context {A : Type}.

(** C4.  When the inner loop reaches an entry whose trimmed [po_number] is
    the key of a purchase order created earlier in the call, the turn
    rewrites that order in place and creates no other: its articles become
    the order's own followed by the entry's, in order; its [po_number] is
    kept; and each of the ten fill fields receives the entry's value only
    where the order's value was falsy, so a truthy field keeps its value. *)
Theorem merge_same_po_number
    (before : list (PageExtractResponse A)) (earlier : list (PO A))
    (po existing : PO A) (st0 st : merge_state A) (i : nat) (k : jsstring) :
  merge_pages initial_state before = Some st0 →
  merge_pos st0 earlier = Some st →
  allPOs st !! i = Some existing →
  poNum_of existing = Some k →
  poNum_of po = Some k →
  let merged := merge_into existing po in
  merge_po st po
  = Some (mkState (<[i := merged]> (allPOs st)) (seenPONumbers st))
  ∧ <[i := merged]> (allPOs st) !! i = Some merged
  ∧ length (<[i := merged]> (allPOs st)) = length (allPOs st)
  ∧ po_number merged = po_number existing
  ∧ articles merged = Some (articles_of existing ++ articles_of po)
  ∧ ∀ f,
      get_field f merged
      = filled_value (get_field f existing) (get_field f po)
      ∧ (get_field f merged ≠ get_field f existing →
         truthy_value (get_field f existing) = false
         ∧ get_field f merged = get_field f po)
      ∧ (truthy_value (get_field f existing) = true →
         get_field f merged = get_field f existing).
Proof.
  intros Hbefore Hearlier Hi Hke Hkp merged.
  assert (merge_inv st) as Hinv.
  { eapply merge_pos_inv; [|done].
    eapply merge_pages_inv; [apply initial_inv|done]. }
  assert (seenPONumbers st !! k = Some i) as Hseen
    by (by eapply inv_keyed).
  destruct (merge_into_continues existing po) as (Hnum & Harts & Hfields).
  split_and!.
  - unfold merge_po. rewrite Hkp. simpl.
    assert (key_in k (seenPONumbers st) = true) as ->.
    { unfold key_in. rewrite bool_decide_eq_true_2; [done|]. by eexists. }
    by rewrite Hseen, Hi.
  - apply list_lookup_insert_eq. by eapply lookup_lt_Some.
  - apply length_insert.
  - done.
  - done.
  - intros f. fold merged in Hfields. rewrite Hfields. unfold filled_value.
    destruct (truthy_value (get_field f existing)),
      (truthy_value (get_field f po)); simpl; split_and!; done.
Qed.

(** C5, as amended.  An entry without a key that carries at least one
    article continues the purchase order appended last, when there is one:
    its articles are appended and the fill fields are taken from it where
    the order's were falsy.  When no order exists yet, the entry becomes the
    first order, with a copy of its articles. *)
Theorem merge_orphan_with_articles (st : merge_state A) (po : PO A) :
  poNum_of po = None →
  articles_of po ≠ [] →
  match last (allPOs st) with
  | Some prev =>
      merge_po st po
      = Some (mkState (<[(length (allPOs st) - 1)%nat := merge_into prev po]>
                         (allPOs st))
                      (seenPONumbers st))
      ∧ last (<[(length (allPOs st) - 1)%nat := merge_into prev po]>
                (allPOs st)) = Some (merge_into prev po)
      ∧ continues prev po (merge_into prev po)
  | None =>
      merge_po st po = Some (mkState [fresh_copy po] (seenPONumbers st))
      ∧ articles (fresh_copy po) = Some (articles_of po)
      ∧ po_number (fresh_copy po) = po_number po
      ∧ ∀ f, get_field f (fresh_copy po) = get_field f po
  end.
Proof.
  intros Hk Hne. unfold merge_po. rewrite Hk.
  assert ((length (articles_of po) =? 0)%nat = false) as ->.
  { apply Nat.eqb_neq. by destruct (articles_of po). }
  destruct (last (allPOs st)) as [prev|] eqn:Hlast.
  - assert (allPOs st ≠ []) as Hnn by (by intros Heq; rewrite Heq in Hlast).
    assert (0 < length (allPOs st))%nat as Hpos.
    { destruct (allPOs st); [done|simpl; lia]. }
    rewrite last_lookup in Hlast.
    replace (Init.Nat.pred (length (allPOs st)))
      with (length (allPOs st) - 1)%nat in Hlast by lia.
    split_and!.
    + apply Nat.ltb_lt in Hpos as ->. by rewrite Hlast.
    + rewrite last_lookup, length_insert.
      replace (Init.Nat.pred (length (allPOs st)))
        with (length (allPOs st) - 1)%nat by lia.
      apply list_lookup_insert_eq. lia.
    + apply merge_into_continues.
  - apply last_None in Hlast. rewrite Hlast. simpl.
    split_and!; done.
Qed.

(** C6.  Idempotence: when a call of [mergePageResults] returns, merging
    its output again, each purchase order wrapped as a page of its own,
    returns the very same sequence of purchase orders. *)
Theorem merge_idempotent
    (pages wrapped : list (PageExtractResponse A)) (out : list (PO A)) :
  mergePageResults pages = Some out →
  singleton_pages wrapped out →
  mergePageResults wrapped = Some out.
Proof.
  unfold mergePageResults. intros Hm Hw.
  destruct (merge_pages initial_state pages) as [[out' seenF]|] eqn:Hp;
    [|done].
  injection Hm as ->.
  assert (merge_inv (mkState out seenF)) as Hinv.
  { eapply merge_pages_inv; [apply initial_inv|done]. }
  destruct (remerge_from out seenF Hinv out [] wrapped ∅) as [seen' Hre].
  - done.
  - done.
  - intros k Hin. rewrite lookup_empty in Hin. by destruct Hin.
  - unfold initial_state. by rewrite Hre.
Qed.

End MergeClaims.

(** ** The merger on a store: what it leaves untouched *)

Section StoreFrame.
Context {A : Type}.
Variable h0 : gmap loc (object A).

Lemma keeps_ret {R} (r : R) (post : R → Prop) :
  post r → keeps h0 (ret r) post.
Proof. intros Hr h Hh. split; [done|]. by intros r' [= <-]. Qed.

Lemma keeps_throw {R} (post : R → Prop) : keeps h0 (@throw A R) post.
Proof. intros h Hh. by split. Qed.

Lemma keeps_bind {R S} (m : M A R) (k : R → M A S) (mid : R → Prop)
    (post : S → Prop) :
  keeps h0 m mid → (∀ r, mid r → keeps h0 (k r) post) →
  keeps h0 (bind m k) post.
Proof.
  intros Hm Hk h Hh. unfold bind.
  destruct (Hm h Hh) as [Hext Hres].
  destruct (m h) as [[r|] h1]; simpl in *; [|by split].
  by apply Hk; [apply Hres|].
Qed.

Lemma keeps_weaken {R} (m : M A R) (post post' : R → Prop) :
  keeps h0 m post → (∀ r, post r → post' r) → keeps h0 m post'.
Proof.
  intros Hm Himp h Hh. destruct (Hm h Hh) as [Hext Hres].
  split; [done|]. eauto.
Qed.

Lemma keeps_read_po l : keeps h0 (read_po l) (λ _, True).
Proof.
  intros h Hh. unfold read_po.
  destruct (h !! l) as [[]|]; by split.
Qed.

Lemma keeps_read_page l : keeps h0 (read_page l) (λ _, True).
Proof.
  intros h Hh. unfold read_page.
  destruct (h !! l) as [[]|]; by split.
Qed.

Lemma keeps_read_array l : keeps h0 (read_array l) (λ _, True).
Proof.
  intros h Hh. unfold read_array.
  destruct (h !! l) as [[]|]; by split.
Qed.

Lemma keeps_elems_or_empty r : keeps h0 (elems_or_empty r) (λ _, True).
Proof.
  destruct r; [apply keeps_read_array | by apply keeps_ret].
Qed.

(** A new object lands outside [h0]. *)
Lemma keeps_alloc o : keeps h0 (alloc o) (λ l, h0 !! l = None).
Proof.
  intros h Hh. unfold alloc. simpl.
  assert (h !! fresh (dom h) = None) as Hfresh.
  { apply not_elem_of_dom. apply is_fresh. }
  assert (h0 !! fresh (dom h) = None) as Hfresh0.
  { destruct (h0 !! fresh (dom h)) as [o'|] eqn:Ho; [|done].
    eapply lookup_weaken in Ho; [|done]. congruence. }
  split.
  - etrans; [done|]. by apply insert_subseteq.
  - by intros r [= <-].
Qed.

(** A write outside [h0] keeps [h0]. *)
Lemma keeps_write l o : h0 !! l = None → keeps h0 (write l o) (λ _, True).
Proof.
  intros Hl h Hh. unfold write. simpl. split; [|done].
  apply map_subseteq_spec. intros l' o' Hl'.
  rewrite lookup_insert_ne by congruence.
  by eapply lookup_weaken.
Qed.

Lemma keeps_fill_s existing po fs :
  h0 !! existing = None → keeps h0 (fill_s existing po fs) (λ _, True).
Proof.
  intros Hex. induction fs as [|f fs IH]; simpl.
  - by apply keeps_ret.
  - eapply keeps_bind; [apply keeps_read_po|]. intros e _.
    eapply keeps_bind; [apply keeps_read_po|]. intros p _.
    eapply keeps_bind; [|intros _ _; apply IH].
    case_match; [by apply keeps_write | by apply keeps_ret].
Qed.

Lemma keeps_merge_into_s existing po :
  h0 !! existing = None → keeps h0 (merge_into_s existing po) (λ _, True).
Proof.
  intros Hex. unfold merge_into_s.
  eapply keeps_bind; [apply keeps_read_po|]. intros e _.
  eapply keeps_bind; [apply keeps_read_po|]. intros p _.
  eapply keeps_bind; [apply keeps_elems_or_empty|]. intros old _.
  eapply keeps_bind; [apply keeps_elems_or_empty|]. intros new _.
  eapply keeps_bind; [apply keeps_alloc|]. intros a _.
  eapply keeps_bind; [by apply keeps_write|]. intros _ _.
  by apply keeps_fill_s.
Qed.

Lemma keeps_fresh_copy_s po :
  keeps h0 (fresh_copy_s po) (λ c, h0 !! c = None).
Proof.
  unfold fresh_copy_s.
  eapply keeps_bind; [apply keeps_read_po|]. intros p _.
  eapply keeps_bind; [apply keeps_elems_or_empty|]. intros new _.
  eapply keeps_bind; [apply keeps_alloc|]. intros a _.
  apply keeps_alloc.
Qed.

Lemma new_in_snoc ls c : new_in h0 ls → h0 !! c = None → new_in h0 (ls ++ [c]).
Proof.
  intros Hls Hc l Hl. apply elem_of_app in Hl as [Hl|Hl]; [by apply Hls|].
  by apply list_elem_of_singleton in Hl as ->.
Qed.

Lemma keeps_merge_po_s st po :
  new_in h0 (allPOs_s st) →
  keeps h0 (merge_po_s st po) (λ st', new_in h0 (allPOs_s st')).
Proof.
  intros Hnew. unfold merge_po_s.
  eapply keeps_bind; [apply keeps_read_po|]. intros p _.
  eapply keeps_bind; [apply keeps_elems_or_empty|]. intros arts _.
  assert (∀ i l, allPOs_s st !! i = Some l → h0 !! l = None) as Hlook.
  { intros i l Hl. apply Hnew. by eapply list_elem_of_lookup_2. }
  assert (∀ seen, keeps h0
            (bind (fresh_copy_s po)
               (λ c, ret (mkLocals (allPOs_s st ++ [c]) seen)))
            (λ st', new_in h0 (allPOs_s st'))) as Hpush.
  { intros seen. eapply keeps_bind; [apply keeps_fresh_copy_s|].
    intros c Hc. apply keeps_ret. simpl. by apply new_in_snoc. }
  assert (∀ l, h0 !! l = None → keeps h0
            (bind (merge_into_s l po) (λ _, ret st))
            (λ st', new_in h0 (allPOs_s st'))) as Hinto.
  { intros l Hl. eapply keeps_bind; [by apply keeps_merge_into_s|].
    intros _ _. by apply keeps_ret. }
  destruct (poNum_of p) as [k|].
  - destruct (key_in k (seenPONumbers_s st)); [|apply Hpush].
    destruct (seenPONumbers_s st !! k) as [i|]; [|apply keeps_throw].
    destruct (allPOs_s st !! i) as [l|] eqn:Hl; [|apply keeps_throw].
    eauto.
  - destruct (length arts =? 0)%nat; [by apply keeps_ret|].
    destruct (0 <? length (allPOs_s st))%nat; [|apply Hpush].
    destruct (allPOs_s st !! (length (allPOs_s st) - 1)%nat) as [l|] eqn:Hl;
      [|apply keeps_throw].
    eauto.
Qed.

Lemma keeps_merge_pos_s pos st :
  new_in h0 (allPOs_s st) →
  keeps h0 (merge_pos_s st pos) (λ st', new_in h0 (allPOs_s st')).
Proof.
  revert st. induction pos as [|po pos IH]; intros st Hnew; simpl.
  - by apply keeps_ret.
  - eapply keeps_bind; [by apply keeps_merge_po_s|]. eauto.
Qed.

Lemma keeps_merge_page_s page st :
  new_in h0 (allPOs_s st) →
  keeps h0 (merge_page_s st page) (λ st', new_in h0 (allPOs_s st')).
Proof.
  intros Hnew. unfold merge_page_s.
  eapply keeps_bind; [apply keeps_read_page|]. intros pg _.
  destruct (o_purchase_orders pg) as [a|]; [|by apply keeps_ret].
  eapply keeps_bind; [apply keeps_read_array|]. intros pos _.
  destruct (length pos =? 0)%nat; [by apply keeps_ret|].
  by apply keeps_merge_pos_s.
Qed.

Lemma keeps_merge_pages_s pages st :
  new_in h0 (allPOs_s st) →
  keeps h0 (merge_pages_s st pages) (λ st', new_in h0 (allPOs_s st')).
Proof.
  revert st. induction pages as [|page pages IH]; intros st Hnew; simpl.
  - by apply keeps_ret.
  - eapply keeps_bind; [by apply keeps_merge_page_s|]. eauto.
Qed.

Lemma keeps_mergePageResults_s pageResults :
  keeps h0 (mergePageResults_s pageResults) (new_in h0).
Proof.
  unfold mergePageResults_s.
  eapply keeps_bind; [apply keeps_read_array|]. intros pages _.
  eapply keeps_bind.
  - apply keeps_merge_pages_s. intros l Hl. by apply elem_of_nil in Hl.
  - intros st Hst. by apply keeps_ret.
Qed.

End StoreFrame.

(** ** The merger on a store computes what the merger on values computes *)

Section StoreLoad.
Context {A : Type}.
Implicit Types (h : gmap loc (object A)) (l ex po : loc).

Lemma agree_for_subseteq l h h' : h ⊆ h' → agree_for l h h'.
Proof. intros Hsub l' o Ho _. by eapply lookup_weaken. Qed.

Lemma load_article_agree l h h' a x :
  agree_for l h h' → load_article h a = Some x → load_article h' a = Some x.
Proof.
  intros Hag. unfold load_article.
  destruct (h !! a) as [[y| | |]|] eqn:Ha; try done.
  intros [= <-]. rewrite (Hag a (OArticle y)); [done|done|]. right. by intros [].
Qed.

Lemma load_array_agree l h h' a es :
  agree_for l h h' → load_array h a = Some es → load_array h' a = Some es.
Proof.
  intros Hag. unfold load_array.
  destruct (h !! a) as [[|es'| |]|] eqn:Ha; try done.
  intros [= <-]. rewrite (Hag a (OArray es')); [done|done|]. right. by intros [].
Qed.

Lemma mapM_load_article_agree l h h' es xs :
  agree_for l h h' →
  mapM (load_article h) es = Some xs → mapM (load_article h') es = Some xs.
Proof.
  intros Hag. rewrite !mapM_Some. intros Hall.
  eapply Forall2_impl; [done|].
  intros a x. by apply load_article_agree with l.
Qed.

Lemma load_articles_agree l h h' r v :
  agree_for l h h' → load_articles h r = Some v → load_articles h' r = Some v.
Proof.
  intros Hag. unfold load_articles. destruct r as [a|]; [|done].
  destruct (load_array h a) as [es|] eqn:Hes; [|done].
  rewrite (load_array_agree l h h' a es) by done.
  destruct (mapM (load_article h) es) as [xs|] eqn:Hxs; [|done].
  by rewrite (mapM_load_article_agree l h h' es xs).
Qed.

Lemma load_po_agree l h h' p :
  agree_for l h h' → load_po h l = Some p → load_po h' l = Some p.
Proof.
  intros Hag. unfold load_po.
  destruct (h !! l) as [[| |q|]|] eqn:Hl; try done.
  rewrite (Hag l (OPO q)) by auto.
  destruct (load_articles h (articles q)) as [v|] eqn:Hv; [|done].
  by rewrite (load_articles_agree l h h' _ v).
Qed.

Lemma load_po_subseteq h h' l p :
  h ⊆ h' → load_po h l = Some p → load_po h' l = Some p.
Proof. intros Hsub. by apply load_po_agree, agree_for_subseteq. Qed.

(** What a successful read-back of a purchase order says of the store. *)
Lemma load_po_Some h l pv :
  load_po h l = Some pv →
  ∃ p es,
    h !! l = Some (OPO p)
    ∧ pv = with_articles p (articles pv)
    ∧ elems_or_empty (articles p) h = (Some es, h)
    ∧ mapM (load_article h) es = Some (articles_of pv).
Proof.
  unfold load_po.
  destruct (h !! l) as [[| |p|]|] eqn:Hl; try done.
  destruct (load_articles h (articles p)) as [v|] eqn:Hv; [|done].
  intros [= <-]. simpl.
  unfold load_articles in Hv. destruct (articles p) as [a|] eqn:Ha.
  - destruct (load_array h a) as [es|] eqn:Hes; [|done].
    destruct (mapM (load_article h) es) as [xs|] eqn:Hxs; [|done].
    injection Hv as <-.
    exists p, es. split_and!; try done.
    rewrite Ha. simpl. unfold read_array. unfold load_array in Hes.
    by destruct (h !! a) as [[| | |]|]; simplify_eq.
  - injection Hv as <-. exists p, []. rewrite Ha. by split_and!.
Qed.

Lemma with_articles_poNum {X Y} (p : POExtractResponse X) (y : Y) :
  poNum_of (with_articles p y) = poNum_of p.
Proof. done. Qed.

Lemma with_articles_get_field {X Y} (p : POExtractResponse X) (y : Y) f :
  get_field f (with_articles p y) = get_field f p.
Proof. by destruct f. Qed.

Lemma with_articles_assign {X Y} (e p : POExtractResponse X) (y z : Y) f :
  with_articles (assign_field f e p) y
  = assign_field f (with_articles e y) (with_articles p z).
Proof. by destruct f. Qed.

Lemma with_articles_fill_one {X Y} (e p : POExtractResponse X) (y z : Y) f :
  with_articles (fill_one p e f) y
  = fill_one (with_articles p z) (with_articles e y) f.
Proof.
  unfold fill_one. rewrite !with_articles_get_field.
  case_match; [apply with_articles_assign | done].
Qed.

Lemma with_articles_fold_fill {X Y} (p : POExtractResponse X) (y z : Y)
    (fs : list field) (e : POExtractResponse X) :
  with_articles (fold_left (fill_one p) fs e) y
  = fold_left (fill_one (with_articles p z)) fs (with_articles e y).
Proof.
  revert e. induction fs as [|f fs IH]; intros e; simpl; [done|].
  by rewrite IH, (with_articles_fill_one _ _ _ z).
Qed.

End StoreLoad.

Section StoreSim.
Context {A : Type}.
Implicit Types (h : gmap loc (object A)) (l ex po : loc).
Implicit Types (e p : POExtractResponse (option loc)).

Lemma read_po_Some h l p : h !! l = Some (OPO p) → read_po l h = (Some p, h).
Proof. unfold read_po. by intros ->. Qed.

(** The fill loop on the store is the fill loop on the record at
    [existing], when the entry is another object. *)
Lemma fill_s_spec fs h ex po e p :
  h !! ex = Some (OPO e) → h !! po = Some (OPO p) → ex ≠ po →
  fill_s ex po fs h
  = (Some tt, <[ex := OPO (fold_left (fill_one p) fs e)]> h).
Proof.
  revert h e. induction fs as [|f fs IH]; intros h e Hex Hpo Hne; simpl.
  - unfold ret. by rewrite insert_id.
  - unfold bind at 1. rewrite (read_po_Some h ex e) by done.
    unfold bind at 1. rewrite (read_po_Some h po p) by done.
    unfold bind at 1. unfold fill_one at 2.
    destruct (negb (truthy_value (get_field f e))
              && truthy_value (get_field f p)); simpl.
    + rewrite (IH _ (assign_field f e p)).
      * by rewrite insert_insert_eq.
      * apply lookup_insert_eq.
      * by rewrite lookup_insert_ne.
      * done.
    + by apply IH.
Qed.

Lemma merge_into_s_spec h ex po e p old new :
  h !! ex = Some (OPO e) → h !! po = Some (OPO p) → ex ≠ po →
  elems_or_empty (articles e) h = (Some old, h) →
  elems_or_empty (articles p) h = (Some new, h) →
  let a := fresh (dom h) in
  merge_into_s ex po h
  = (Some tt,
     <[ex := OPO (fill (set_articles e (Some a)) p)]>
       (<[a := OArray (old ++ new)]> h)).
Proof.
  intros Hex Hpo Hne Hold Hnew a. unfold merge_into_s.
  unfold bind at 1. rewrite (read_po_Some h ex e) by done.
  unfold bind at 1. rewrite (read_po_Some h po p) by done.
  unfold bind at 1. rewrite Hold.
  unfold bind at 1. rewrite Hnew.
  unfold bind at 1. unfold alloc at 1. fold a.
  unfold bind at 1. unfold write at 1.
  assert (h !! a = None) as Ha by (apply not_elem_of_dom, is_fresh).
  assert (a ≠ ex) as Hax by congruence.
  assert (a ≠ po) as Hap by congruence.
  rewrite (fill_s_spec fillFields _ ex po (set_articles e (Some a)) p).
  - by rewrite insert_insert_eq.
  - apply lookup_insert_eq.
  - by rewrite !lookup_insert_ne.
  - done.
Qed.

Lemma fresh_copy_s_spec h po p new :
  h !! po = Some (OPO p) →
  elems_or_empty (articles p) h = (Some new, h) →
  let a := fresh (dom h) in
  let h1 := <[a := OArray new]> h in
  let c := fresh (dom h1) in
  fresh_copy_s po h = (Some c, <[c := OPO (set_articles p (Some a))]> h1).
Proof.
  intros Hpo Hnew a h1 c. unfold fresh_copy_s.
  unfold bind at 1. rewrite (read_po_Some h po p) by done.
  unfold bind at 1. rewrite Hnew.
  unfold bind at 1. unfold alloc at 1. by fold a h1.
Qed.

Lemma mapM_load_article_app h es1 es2 (xs1 xs2 : list A) :
  mapM (load_article h) es1 = Some xs1 →
  mapM (load_article h) es2 = Some xs2 →
  mapM (load_article h) (es1 ++ es2) = Some (xs1 ++ xs2).
Proof. rewrite !mapM_Some. apply Forall2_app. Qed.

(** Reading back the record that [merge_into_s] has rewritten. *)
Lemma load_merge_into_s h ex po (ev pv : PO A) :
  load_po h ex = Some ev → load_po h po = Some pv → ex ≠ po →
  ∃ h',
    merge_into_s ex po h = (Some tt, h')
    ∧ load_po h' ex = Some (merge_into ev pv)
    ∧ (∀ l, l ≠ ex → agree_for l h h')
    ∧ (∀ l o, h' !! l = Some o → l ≠ ex → h !! l = None → ¬ is_po o).
Proof.
  intros Hev Hpv Hne.
  destruct (load_po_Some h ex ev Hev) as (e & old & Hex & Eev & Hold & Holdv).
  destruct (load_po_Some h po pv Hpv) as (p & new & Hpo & Epv & Hnew & Hnewv).
  eexists. split; [by apply (merge_into_s_spec h ex po e p old new)|].
  set (a := fresh (dom h)).
  assert (h !! a = None) as Ha by (apply not_elem_of_dom, is_fresh).
  assert (a ≠ ex) as Hax by congruence.
  assert (∀ l, l ≠ ex → agree_for l h
            (<[ex := OPO (fill (set_articles e (Some a)) p)]>
               (<[a := OArray (old ++ new)]> h))) as Hag.
  { intros l Hl l' o Ho Hor.
    assert (l' ≠ a) by congruence.
    assert (l' ≠ ex).
    { intros ->. destruct Hor as [->|Hn]; [done|].
      rewrite Hex in Ho. injection Ho as <-. by apply Hn. }
    by rewrite !lookup_insert_ne. }
  split_and!.
  - unfold load_po. rewrite lookup_insert_eq.
    rewrite articles_fill. simpl. unfold load_array.
    rewrite lookup_insert_ne, lookup_insert_eq by done.
    assert (agree_for a h
              (<[ex := OPO (fill (set_articles e (Some a)) p)]>
                 (<[a := OArray (old ++ new)]> h))) as Haa.
    { intros l' o Ho Hor. apply (Hag po); [done|done|].
      right. destruct Hor as [->|Hn]; [congruence|done]. }
    rewrite (mapM_load_article_app _ old new (articles_of ev) (articles_of pv));
      [|by eapply mapM_load_article_agree..].
    simpl. f_equal. unfold merge_into, fill.
    rewrite (with_articles_fold_fill p _ (articles pv)).
    by rewrite <- Epv, Eev.
  - done.
  - intros l o Ho Hl Hnone.
    rewrite lookup_insert_ne in Ho by done.
    destruct (decide (l = a)) as [->|Hla].
    + rewrite lookup_insert_eq in Ho. injection Ho as <-. by intros [].
    + rewrite lookup_insert_ne in Ho by done. congruence.
Qed.

(** Reading back the copy that [fresh_copy_s] has made. *)
Lemma load_fresh_copy_s h po (pv : PO A) :
  load_po h po = Some pv →
  ∃ c h',
    fresh_copy_s po h = (Some c, h')
    ∧ h ⊆ h' ∧ h !! c = None
    ∧ load_po h' c = Some (fresh_copy pv).
Proof.
  intros Hpv.
  destruct (load_po_Some h po pv Hpv) as (p & new & Hpo & Epv & Hnew & Hnewv).
  set (a := fresh (dom h)).
  set (h1 := <[a := OArray new]> h).
  set (c := fresh (dom h1)).
  assert (h !! a = None) as Ha by (apply not_elem_of_dom, is_fresh).
  assert (h1 !! c = None) as Hc by (apply not_elem_of_dom, is_fresh).
  assert (c ≠ a) as Hca.
  { intros Heq. rewrite Heq in Hc. unfold h1 in Hc.
    by rewrite lookup_insert_eq in Hc. }
  assert (h !! c = None) as Hc'.
  { unfold h1 in Hc. by rewrite lookup_insert_ne in Hc. }
  assert (h ⊆ <[c := OPO (set_articles p (Some a))]> h1) as Hsub.
  { etrans; [by apply (insert_subseteq h a (OArray new))|].
    by apply insert_subseteq. }
  exists c, (<[c := OPO (set_articles p (Some a))]> h1).
  split_and!; try done.
  - by apply fresh_copy_s_spec.
  - unfold load_po. rewrite lookup_insert_eq. simpl. unfold load_array.
    rewrite lookup_insert_ne by done. unfold h1 at 1.
    rewrite lookup_insert_eq.
    rewrite (mapM_load_article_agree a h _ new (articles_of pv));
      [|by apply agree_for_subseteq|done].
    simpl. f_equal. unfold fresh_copy. by rewrite Epv at 2.
Qed.

End StoreSim.

Section StoreSimulation.
Context {A : Type}.
Variable h0 : gmap loc (object A).
Implicit Types (h : gmap loc (object A)) (l ex po : loc).
Implicit Types (sts : locals) (stv : merge_state A) (pv ev : PO A).

Lemma sim_update h sts stv po pv i ex ev :
  sim h0 h sts stv → load_po h0 po = Some pv →
  allPOs_s sts !! i = Some ex → allPOs stv !! i = Some ev →
  ∃ h', merge_into_s ex po h = (Some tt, h')
        ∧ sim h0 h' sts (mkState (<[i := merge_into ev pv]> (allPOs stv))
                              (seenPONumbers stv)).
Proof.
  intros [Hseen Hpos Hnd Hnew Hext] Hpv Hex Hev.
  assert (h0 !! ex = None) as Hex0.
  { apply Hnew. by eapply list_elem_of_lookup_2. }
  assert (load_po h po = Some pv) as Hpv' by (by eapply load_po_subseteq).
  assert (load_po h ex = Some ev) as Hev'.
  { by eapply (Forall2_lookup_lr _ _ _ i) in Hpos. }
  assert (ex ≠ po) as Hne.
  { intros ->. unfold load_po in Hpv. by rewrite Hex0 in Hpv. }
  destruct (load_merge_into_s h ex po ev pv Hev' Hpv' Hne)
    as (h' & Hrun & Hload & Hag & _).
  exists h'. split; [done|]. split; simpl; try done.
  - apply Forall2_same_length_lookup_2.
    + rewrite length_insert. by eapply Forall2_length.
    + intros j l p Hl Hp. destruct (decide (i = j)) as [<-|Hij].
      * rewrite list_lookup_insert_eq in Hp by (by eapply lookup_lt_Some).
        by simplify_eq.
      * rewrite list_lookup_insert_ne in Hp by done.
        assert (l ≠ ex) as Hlex.
        { intros ->. apply Hij. by eapply NoDup_lookup. }
        eapply load_po_agree; [by apply Hag|].
        by eapply (Forall2_lookup_lr _ _ _ j) in Hpos.
  - pose proof (keeps_merge_into_s h0 ex po Hex0 h Hext) as [Hk _].
    by rewrite Hrun in Hk.
Qed.

Lemma sim_push h sts stv po pv (seen' : gmap jsstring nat) :
  sim h0 h sts stv → load_po h0 po = Some pv →
  ∃ c h', fresh_copy_s po h = (Some c, h')
          ∧ sim h0 h' (mkLocals (allPOs_s sts ++ [c]) seen')
                   (mkState (allPOs stv ++ [fresh_copy pv]) seen').
Proof.
  intros [Hseen Hpos Hnd Hnew Hext] Hpv.
  assert (load_po h po = Some pv) as Hpv' by (by eapply load_po_subseteq).
  destruct (load_fresh_copy_s h po pv Hpv') as (c & h' & Hrun & Hsub & Hc & Hload).
  exists c, h'. split; [done|]. split; simpl; try done.
  - apply Forall2_app; [|by constructor].
    eapply Forall2_impl; [done|]. intros l p. by apply load_po_subseteq.
  - apply NoDup_app. split_and!; [done| |apply NoDup_singleton].
    intros l Hl Hlc. apply list_elem_of_singleton in Hlc as ->.
    apply list_elem_of_lookup in Hl as [j Hj].
    destruct (Forall2_lookup_l _ _ _ j c Hpos Hj) as (p & _ & Hp).
    unfold load_po in Hp. by rewrite Hc in Hp.
  - apply new_in_snoc; [done|].
    destruct (h0 !! c) as [o|] eqn:Ho; [|done].
    eapply lookup_weaken in Ho; [|done]. congruence.
  - by etrans.
Qed.

Lemma sim_merge_po h sts stv po pv :
  sim h0 h sts stv → load_po h0 po = Some pv →
  sim_result h0 (merge_po_s sts po h) (merge_po stv pv).
Proof.
  intros Hsim Hpv.
  pose proof Hsim as [Hseen Hpos Hnd Hnew Hext].
  assert (load_po h po = Some pv) as Hpv' by (by eapply load_po_subseteq).
  destruct (load_po_Some h po pv Hpv') as (p & es & Hpo & Epv & Hes & Hesv).
  assert (length es = length (articles_of pv)) as Hlen.
  { apply mapM_Some in Hesv. by eapply Forall2_length. }
  assert (poNum_of p = poNum_of pv) as Hnum by (by rewrite Epv).
  assert (length (allPOs_s sts) = length (allPOs stv)) as Hlens
    by (by eapply Forall2_length).
  assert (∀ i, allPOs_s sts !! i = None ↔ allPOs stv !! i = None) as Hnone.
  { intros i. rewrite !lookup_ge_None. by rewrite Hlens. }
  assert (∀ i ex ev, allPOs_s sts !! i = Some ex → allPOs stv !! i = Some ev →
            sim_result h0 (bind (merge_into_s ex po) (λ _, ret sts) h)
              (Some (mkState (<[i := merge_into ev pv]> (allPOs stv))
                             (seenPONumbers stv)))) as Hupd.
  { intros i ex ev Hex Hev.
    destruct (sim_update h sts stv po pv i ex ev Hsim Hpv Hex Hev)
      as (h' & Hrun & Hsim').
    unfold bind. by rewrite Hrun. }
  assert (∀ seen', sim_result h0
            (bind (fresh_copy_s po)
               (λ c, ret (mkLocals (allPOs_s sts ++ [c]) seen')) h)
            (Some (mkState (allPOs stv ++ [fresh_copy pv]) seen'))) as Hpush.
  { intros seen'.
    destruct (sim_push h sts stv po pv seen' Hsim Hpv) as (c & h' & Hrun & Hsim').
    unfold bind. by rewrite Hrun. }
  unfold merge_po_s, merge_po.
  unfold bind at 1. rewrite (read_po_Some h po p) by done.
  unfold bind at 1. rewrite Hes.
  rewrite Hnum, Hlen, Hseen, Hlens.
  destruct (poNum_of pv) as [k|].
  - destruct (key_in k (seenPONumbers stv)); [|apply Hpush].
    destruct (seenPONumbers stv !! k) as [i|]; [|done].
    destruct (allPOs_s sts !! i) as [ex|] eqn:Hex.
    + destruct (allPOs stv !! i) as [ev|] eqn:Hev; [by eapply Hupd|].
      apply Hnone in Hev. congruence.
    + apply Hnone in Hex. by rewrite Hex.
  - destruct (length (articles_of pv) =? 0)%nat; [done|].
    destruct (0 <? length (allPOs stv))%nat; [|rewrite <- Hseen; apply Hpush].
    rewrite <- Hlens.
    destruct (allPOs_s sts !! (length (allPOs_s sts) - 1)%nat) as [ex|] eqn:Hex.
    + destruct (allPOs stv !! (length (allPOs_s sts) - 1)%nat) as [ev|] eqn:Hev;
        [by eapply Hupd|].
      apply Hnone in Hev. congruence.
    + apply Hnone in Hex. by rewrite Hex.
Qed.

Lemma sim_merge_pos pos (posv : list (PO A)) :
  Forall2 (λ l p, load_po h0 l = Some p) pos posv →
  ∀ h sts stv, sim h0 h sts stv →
    sim_result h0 (merge_pos_s sts pos h) (merge_pos stv posv).
Proof.
  induction 1 as [|po pv pos posv Hpo Hrest IH]; intros h sts stv Hsim; simpl.
  - done.
  - pose proof (sim_merge_po h sts stv po pv Hsim Hpo) as Hstep.
    unfold sim_result in Hstep. unfold bind.
    destruct (merge_po_s sts po h) as [[sts'|] h']; simpl in Hstep;
      destruct (merge_po stv pv) as [stv'|]; try done.
    by apply IH.
Qed.

Lemma load_page_Some page (pagev : PageExtractResponse A) :
  load_page h0 page = Some pagev →
  ∃ pg, h0 !! page = Some (OPage pg)
    ∧ match o_purchase_orders pg with
      | None => purchase_orders pagev = None
      | Some a =>
          ∃ pos posv, h0 !! a = Some (OArray pos)
            ∧ purchase_orders pagev = Some posv
            ∧ Forall2 (λ l p, load_po h0 l = Some p) pos posv
      end.
Proof.
  unfold load_page.
  destruct (h0 !! page) as [[| | |pg]|] eqn:Hpage; try done.
  exists pg. split; [done|].
  destruct (o_purchase_orders pg) as [a|]; [|by simplify_eq].
  unfold load_array in *.
  destruct (h0 !! a) as [[|pos| |]|] eqn:Ha; try done.
  destruct (mapM (load_po h0) pos) as [posv|] eqn:Hposv; [|done].
  simpl in *. simplify_eq. exists pos, posv. split_and!; try done.
  by apply mapM_Some.
Qed.

Lemma sim_merge_page h sts stv page (pagev : PageExtractResponse A) :
  load_page h0 page = Some pagev → sim h0 h sts stv →
  sim_result h0 (merge_page_s sts page h) (merge_page stv pagev).
Proof.
  intros Hpage Hsim.
  destruct (load_page_Some page pagev Hpage) as (pg & Hpg & Hpos).
  assert (h0 ⊆ h) as Hext by apply Hsim.
  unfold merge_page_s, merge_page. unfold bind at 1. unfold read_page.
  rewrite (lookup_weaken _ _ _ _ Hpg Hext).
  destruct (o_purchase_orders pg) as [a|].
  - destruct Hpos as (pos & posv & Ha & -> & Hall).
    unfold bind at 1. unfold read_array.
    rewrite (lookup_weaken _ _ _ _ Ha Hext).
    rewrite (Forall2_length _ _ _ Hall).
    destruct (length posv =? 0)%nat; [done|].
    by apply sim_merge_pos.
  - by rewrite Hpos.
Qed.

Lemma sim_merge_pages pages (pagesv : list (PageExtractResponse A)) :
  Forall2 (λ l p, load_page h0 l = Some p) pages pagesv →
  ∀ h sts stv, sim h0 h sts stv →
    sim_result h0 (merge_pages_s sts pages h) (merge_pages stv pagesv).
Proof.
  induction 1 as [|page pagev pages pagesv Hpage Hrest IH];
    intros h sts stv Hsim; simpl.
  - done.
  - pose proof (sim_merge_page h sts stv page pagev Hpage Hsim) as Hstep.
    unfold sim_result in Hstep. unfold bind.
    destruct (merge_page_s sts page h) as [[sts'|] h']; simpl in Hstep;
      destruct (merge_page stv pagev) as [stv'|]; try done.
    by apply IH.
Qed.

Lemma sim_initial : sim h0 h0 (mkLocals [] ∅) initial_state.
Proof. split; simpl; try done; [constructor|]. intros l Hl. by apply elem_of_nil in Hl. Qed.

(** The call on the store against the call on the values read from it. *)
Lemma mergePageResults_s_sim pageResults pages :
  load_pages h0 pageResults = Some pages →
  match mergePageResults_s pageResults h0, mergePageResults pages with
  | (Some out, h'), Some outv =>
      Forall2 (λ l p, load_po h' l = Some p) out outv ∧ NoDup out
  | (None, _), None => True
  | _, _ => False
  end.
Proof.
  unfold load_pages, load_array.
  destruct (h0 !! pageResults) as [[|ls| |]|] eqn:Hpr; try done.
  intros Hpages. apply mapM_Some in Hpages.
  pose proof (sim_merge_pages ls pages Hpages h0 _ _ sim_initial) as Hsim.
  unfold sim_result in Hsim.
  unfold mergePageResults_s, mergePageResults.
  unfold bind at 1. unfold read_array. rewrite Hpr. unfold bind.
  destruct (merge_pages_s (mkLocals [] ∅) ls h0) as [[sts|] h']; simpl in *;
    destruct (merge_pages initial_state pages) as [stv|]; simpl; try done.
  split; apply Hsim.
Qed.

Lemma load_page_subseteq h page (pagev : PageExtractResponse A) :
  h0 ⊆ h → load_page h0 page = Some pagev → load_page h page = Some pagev.
Proof.
  intros Hext Hpage.
  destruct (load_page_Some page pagev Hpage) as (pg & Hpg & Hpos).
  unfold load_page in *. rewrite Hpg in Hpage.
  rewrite (lookup_weaken _ _ _ _ Hpg Hext).
  destruct (o_purchase_orders pg) as [a|]; [|done].
  destruct Hpos as (pos & posv & Ha & Hv & Hall).
  unfold load_array in *. rewrite Ha in Hpage.
  rewrite (lookup_weaken _ _ _ _ Ha Hext).
  assert (mapM (load_po h0) pos = Some posv) as E0 by (by apply mapM_Some).
  assert (mapM (load_po h) pos = Some posv) as E1.
  { apply mapM_Some. eapply Forall2_impl; [done|].
    intros l p. by apply load_po_subseteq. }
  by rewrite E0 in Hpage; rewrite E1.
Qed.

Lemma load_pages_subseteq h pageResults pages :
  h0 ⊆ h → load_pages h0 pageResults = Some pages →
  load_pages h pageResults = Some pages.
Proof.
  intros Hext. unfold load_pages, load_array.
  destruct (h0 !! pageResults) as [[|ls| |]|] eqn:Hpr; try done.
  rewrite (lookup_weaken _ _ _ _ Hpr Hext).
  rewrite !mapM_Some. intros Hall.
  eapply Forall2_impl; [done|]. intros l p. by apply load_page_subseteq.
Qed.

End StoreSimulation.

(** C7.  Purity, on the store.  Whatever store the call starts in and
    whether it returns or throws, every object that existed before the call
    is still there unchanged afterwards: in particular the page list, the
    pages, their purchase orders and their article arrays read back as they
    did before.  The purchase orders a call returns are new objects.  The
    call has no effect but on the store, and its outcome is a function of
    the values the argument holds: it returns exactly when the merger on
    those values returns, and its output then reads back as that merger's
    output. *)
Theorem merge_is_pure {A : Type} (h0 : gmap loc (object A)) (pageResults : loc) :
  let r := mergePageResults_s pageResults h0 in
  h0 ⊆ r.2
  ∧ (∀ l o, h0 !! l = Some o → r.2 !! l = Some o)
  ∧ (∀ pages, load_pages h0 pageResults = Some pages →
              load_pages r.2 pageResults = Some pages)
  ∧ (∀ out, r.1 = Some out → new_in h0 out)
  ∧ (∀ pages, load_pages h0 pageResults = Some pages →
       match r.1, mergePageResults pages with
       | Some out, Some outv =>
           Forall2 (λ l p, load_po r.2 l = Some p) out outv
       | None, None => True
       | _, _ => False
       end).
Proof.
  intros r.
  destruct (keeps_mergePageResults_s h0 pageResults h0) as [Hext Hnew];
    [done|].
  fold r in Hext, Hnew. split_and!.
  - done.
  - intros l o Ho. by eapply lookup_weaken.
  - intros pages. by apply load_pages_subseteq.
  - done.
  - intros pages Hpages.
    pose proof (mergePageResults_s_sim h0 pageResults pages Hpages) as Hsim.
    fold r in Hsim.
    destruct r as [[out|] h'], (mergePageResults pages); try done.
    apply Hsim.
Qed.

(** ** The transfer-in page: counting and the maps *)

Section Counting.

Lemma filter_split_length {T} (f : T → bool) (l : list T) :
  length (List.filter f l) + length (List.filter (λ x, negb (f x)) l)
  = length l.
Proof.
  induction l as [|x l IH]; simpl; [done|].
  destruct (f x); simpl; lia.
Qed.

(** Lines counted by two tests, by neither and by both. *)
Lemma filteri_count {T} (f g : nat → bool) (l : list T) (k : nat) :
  length (filteri_from (λ _ i, f i) k l)
  + length (filteri_from (λ _ i, g i) k l)
  + length (filteri_from (λ _ i, negb (f i) && negb (g i)) k l)
  = length l + length (filteri_from (λ _ i, f i && g i) k l).
Proof.
  revert k. induction l as [|x l IH]; intros k; simpl; [done|].
  specialize (IH (S k)). destruct (f k), (g k); simpl; lia.
Qed.

Lemma filteri_from_ext {T} (f g : T → nat → bool) (l : list T) (k : nat) :
  (∀ i x, l !! i = Some x → f x (k + i) = g x (k + i)) →
  filteri_from f k l = filteri_from g k l.
Proof.
  revert k. induction l as [|x l IH]; intros k Hfg; simpl; [done|].
  rewrite (IH (S k)).
  - specialize (Hfg 0 x eq_refl). rewrite Nat.add_0_r in Hfg. by rewrite Hfg.
  - intros i y Hy. specialize (Hfg (S i) y Hy).
    by replace (S k + i) with (k + S i) by lia.
Qed.

Lemma filteri_from_nil_iff {T} (f : nat → bool) (l : list T) (k : nat) :
  length (filteri_from (λ _ i, f i) k l) = 0
  ↔ ∀ i, i < length l → f (k + i) = false.
Proof.
  revert k. induction l as [|x l IH]; intros k; simpl.
  - split; [intros _ i Hi; lia | done].
  - destruct (f k) eqn:Hk; simpl.
    + split; [done|]. intros H. specialize (H 0). rewrite Nat.add_0_r in H.
      rewrite H in Hk by lia. done.
    + rewrite (IH (S k)). split.
      * intros H [|i] Hi; [by rewrite Nat.add_0_r|].
        replace (k + S i) with (S k + i) by lia. apply H. lia.
      * intros H i Hi. replace (S k + i) with (k + S i) by lia. apply H. lia.
Qed.

Lemma filter_nil_iff {T} (f : T → bool) (l : list T) :
  length (List.filter f l) = 0 ↔ ∀ x, x ∈ l → f x = false.
Proof.
  induction l as [|x l IH]; simpl.
  - split; [|done]. intros _ y Hy. by apply elem_of_nil in Hy.
  - destruct (f x) eqn:Hx; simpl.
    + split; [done|]. intros H. rewrite H in Hx; [done|]. by left.
    + rewrite IH. split.
      * intros H y Hy. apply elem_of_cons in Hy as [->|Hy]; auto.
      * intros H y Hy. apply H. by right.
Qed.

Lemma existsb_seq_false (f : nat → bool) (n : nat) :
  existsb f (seq 0 n) = false ↔ ∀ i, i < n → f i = false.
Proof.
  split.
  - intros H i Hi. destruct (f i) eqn:Hf; [|done].
    assert (existsb f (seq 0 n) = true) as Ht.
    { apply existsb_exists. exists i. split; [|done]. apply in_seq. lia. }
    congruence.
  - intros H. destruct (existsb f (seq 0 n)) eqn:He; [|done].
    apply existsb_exists in He as (i & Hi & Hf). apply in_seq in Hi.
    rewrite H in Hf by lia. done.
Qed.

End Counting.

Section Maps.

Lemma acknowledge_boxes_lookup (bs : list Box.t) (m : gmap Z bool) (id : Z) :
  acknowledge_boxes bs m !! id
  = if bool_decide (id ∈ map Box.id bs) then Some true else m !! id.
Proof.
  unfold acknowledge_boxes. revert m.
  induction bs as [|b bs IH]; intros m; simpl; [done|].
  rewrite IH. destruct (decide (id = Box.id b)) as [->|Hne].
  - rewrite lookup_insert_eq.
    rewrite (bool_decide_eq_true_2 (Box.id b ∈ Box.id b :: map Box.id bs))
      by (by left).
    by case_bool_decide.
  - rewrite lookup_insert_ne by done.
    rewrite (bool_decide_ext (id ∈ Box.id b :: map Box.id bs)
               (id ∈ map Box.id bs)); [done|].
    rewrite elem_of_cons. split; [by intros [?|?] | by right].
Qed.

Lemma acknowledge_lines_lookup (keep : nat → bool) (n : nat)
    (m : gmap nat bool) (i : nat) :
  acknowledge_lines keep n m !! i
  = if (i <? n) && keep i then Some true else m !! i.
Proof.
  unfold acknowledge_lines. revert m.
  induction n as [|n IH]; intros m; [done|].
  rewrite seq_S, fold_left_app. simpl. destruct (keep n) eqn:Hk.
  - destruct (decide (i = n)) as [->|Hne].
    + rewrite lookup_insert_eq, Hk.
      by replace (n <? S n) with true by (symmetry; apply Nat.ltb_lt; lia).
    + rewrite lookup_insert_ne by done. rewrite IH.
      destruct (i <? n) eqn:H1, (i <? S n) eqn:H2; try done;
        apply Nat.ltb_lt in H1 || apply Nat.ltb_ge in H1;
        apply Nat.ltb_lt in H2 || apply Nat.ltb_ge in H2; lia.
  - rewrite IH. destruct (decide (i = n)) as [->|Hne].
    + rewrite Hk, !andb_false_r. done.
    + destruct (i <? n) eqn:H1, (i <? S n) eqn:H2; try done;
        apply Nat.ltb_lt in H1 || apply Nat.ltb_ge in H1;
        apply Nat.ltb_lt in H2 || apply Nat.ltb_ge in H2; lia.
Qed.

Lemma lineMap_lookup (ls : list Line.t) (i : nat) :
  default false (lineMap ls !! i) = false.
Proof.
  unfold lineMap. generalize (length ls). intros n.
  assert (∀ m : gmap nat bool, default false (m !! i) = false →
            default false (fold_left (λ m i, <[i := false]> m) (seq 0 n) m !! i)
            = false) as H.
  { induction n as [|n IH]; intros m Hm; [done|].
    rewrite seq_S, fold_left_app. simpl.
    destruct (decide (n = i)) as [->|Hne].
    - by rewrite lookup_insert_eq.
    - rewrite lookup_insert_ne by done. by apply IH. }
  by apply H.
Qed.

Lemma boxMap_lookup (bs : list Box.t) (id : Z) :
  default false (boxMap bs !! id) = false.
Proof.
  unfold boxMap.
  assert (∀ m : gmap Z bool, default false (m !! id) = false →
            default false
              (fold_left (λ m b, <[Box.id b := false]> m) bs m !! id)
            = false) as H.
  { induction bs as [|b bs IH]; intros m Hm; [done|]. simpl. apply IH.
    destruct (decide (Box.id b = id)) as [->|Hne].
    - by rewrite lookup_insert_eq.
    - by rewrite lookup_insert_ne. }
  by apply H.
Qed.

End Maps.

(** ** The confirm gate *)

Section Gate.
Implicit Types (s : State) (i : nat).

Lemma is_pending_box s b :
  is_pending (box_resolution s b) = negb (box_matched s (Box.id b)).
Proof. unfold box_resolution. by destruct (box_matched s (Box.id b)). Qed.

Lemma is_pending_line s i :
  is_pending (line_resolution s i)
  = negb (line_matched s i) && negb (line_issued s i).
Proof.
  unfold line_resolution, line_issued.
  destruct (line_matched s i), (linesIssueMap s !! i) as [iss|]; simpl;
    try done.
Qed.

Lemma pending_zero_iff s :
  pendingItems s = 0
  ↔ (∀ b, b ∈ boxes s → box_matched s (Box.id b) = true)
    ∧ (∀ i, i < totalLines s →
            line_matched s i = true ∨ line_issued s i = true).
Proof.
  unfold pendingItems, filteri.
  rewrite (filteri_from_ext _
             (λ _ i, negb (line_matched s i) && negb (line_issued s i)))
    by (intros; apply is_pending_line).
  rewrite Nat.eq_add_0, filter_nil_iff.
  rewrite (filteri_from_nil_iff
             (λ i, negb (line_matched s i) && negb (line_issued s i))).
  split; intros [Hb Hl]; split.
  - intros b Hin. specialize (Hb b Hin). rewrite is_pending_box in Hb.
    by destruct (box_matched s (Box.id b)).
  - intros i Hi. specialize (Hl i Hi). simpl in Hl.
    destruct (line_matched s i), (line_issued s i); auto.
  - intros b Hin. rewrite is_pending_box, Hb; done.
  - intros i Hi. simpl. destruct (Hl i Hi) as [->| ->]; [done|].
    apply andb_false_r.
Qed.

Lemma no_both_iff s :
  some_line_acknowledged_with_issue s = false
  ↔ ∀ i, i < totalLines s → line_matched s i && line_issued s i = false.
Proof.
  unfold some_line_acknowledged_with_issue.
  apply (existsb_seq_false (λ i, line_matched s i && line_issued s i)).
Qed.

(** The lines counted as acknowledged and as issued, against all lines:
    the pending ones are missing, those in both maps are counted twice. *)
Lemma counts s :
  totalMatched s + pendingItems s
  = totalItems s
    + length (filteri (λ _ i, line_matched s i && line_issued s i) (lines s)).
Proof.
  unfold totalMatched, pendingItems, totalItems, resolvedLines, matchedBoxes,
    matchedLines, issuedLines, totalBoxes, totalLines, filteri.
  pose proof (filter_split_length (λ b, box_matched s (Box.id b)) (boxes s))
    as Hb.
  pose proof (filteri_count (λ i, line_matched s i) (λ i, line_issued s i)
                (lines s) 0) as Hl.
  rewrite (List.filter_ext (λ b, is_pending (box_resolution s b))
             (λ b, negb (box_matched s (Box.id b))))
    by (intros; apply is_pending_box).
  rewrite (filteri_from_ext (λ _ i, is_pending (line_resolution s i))
             (λ _ i, negb (line_matched s i) && negb (line_issued s i)))
    by (intros; apply is_pending_line).
  lia.
Qed.

Lemma both_count_zero s :
  some_line_acknowledged_with_issue s = false →
  length (filteri (λ _ i, line_matched s i && line_issued s i) (lines s)) = 0.
Proof.
  intros H. unfold filteri.
  apply (filteri_from_nil_iff (λ i, line_matched s i && line_issued s i)).
  intros i Hi. by apply no_both_iff.
Qed.

(** The gate when no line is in both maps. *)
Lemma gate_without_both s :
  some_line_acknowledged_with_issue s = false →
  (confirm_disabled s = false
   ↔ loading s = false ∧ pendingItems s = 0 ∧ 0 < totalItems s).
Proof.
  intros Hno. pose proof (counts s) as Hc.
  rewrite (both_count_zero s Hno) in Hc.
  unfold confirm_disabled, allMatched.
  destruct (loading s); simpl; [by split; [|intros [? _]]|].
  destruct (totalItems s =? 0) eqn:H0; simpl.
  - apply Nat.eqb_eq in H0. split; [done|]. intros (_ & _ & ?). lia.
  - apply Nat.eqb_neq in H0.
    replace (0 <? totalItems s) with true
      by (symmetry; apply Nat.ltb_lt; lia). simpl.
    rewrite negb_false_iff, Nat.eqb_eq. split.
    + intros Heq. split_and!; [done|lia|lia].
    + intros (_ & Hp & _). lia.
Qed.

(** A pending item closes the gate in every state that keeps [gate_inv]. *)
Lemma gate_closed_while_pending s :
  gate_inv s → 0 < pendingItems s → confirm_disabled s = true.
Proof.
  intros Hinv Hp.
  destruct (some_line_acknowledged_with_issue s) eqn:Hboth.
  - specialize (Hinv Hboth). lia.
  - destruct (confirm_disabled s) eqn:Hd; [done|].
    apply (gate_without_both s Hboth) in Hd as (_ & ? & _). lia.
Qed.

End Gate.

(** ** Every state of the page keeps [gate_inv] *)

Section GateInvariant.
Implicit Types (s : State) (i : nat).

Lemma core_pending s s' : core s' = core s → pendingItems s' = pendingItems s.
Proof.
  destruct s, s'. unfold core. simpl. intros [= -> -> -> ->]. done.
Qed.

Lemma core_both s s' :
  core s' = core s →
  some_line_acknowledged_with_issue s' = some_line_acknowledged_with_issue s.
Proof.
  destruct s, s'. unfold core. simpl. intros [= -> -> -> ->]. done.
Qed.

Lemma gate_inv_core s s' : core s' = core s → gate_inv s → gate_inv s'.
Proof.
  intros Hc Hinv. unfold gate_inv.
  by rewrite (core_pending s s' Hc), (core_both s s' Hc).
Qed.

Lemma gate_inv_alt s :
  gate_inv s
  ↔ ∀ i, i < totalLines s → line_matched s i = true →
         line_issued s i = true → all_resolved s.
Proof.
  unfold gate_inv, all_resolved. rewrite pending_zero_iff. split.
  - intros Hinv i Hi Hm Hiss. apply Hinv.
    destruct (some_line_acknowledged_with_issue s) eqn:Hb; [done|].
    rewrite no_both_iff in Hb. specialize (Hb i Hi).
    by rewrite Hm, Hiss in Hb.
  - intros Hinv Hb. unfold some_line_acknowledged_with_issue in Hb.
    apply existsb_exists in Hb as (i & Hi & Hmi).
    apply in_seq in Hi. apply andb_true_iff in Hmi as [Hm Hiss].
    apply (Hinv i); [lia|done|done].
Qed.

Lemma all_resolved_grow s s' :
  transferData s' = transferData s →
  (∀ id, box_matched s id = true → box_matched s' id = true) →
  (∀ i, line_matched s i = true ∨ line_issued s i = true →
        line_matched s' i = true ∨ line_issued s' i = true) →
  all_resolved s → all_resolved s'.
Proof.
  intros Ht Hb Hl [Hbs Hls].
  assert (boxes s' = boxes s) as Eb by (unfold boxes; by rewrite Ht).
  assert (totalLines s' = totalLines s) as El
    by (unfold totalLines, lines; by rewrite Ht).
  split.
  - intros b Hin. rewrite Eb in Hin. auto.
  - intros i Hi. rewrite El in Hi. auto.
Qed.

(** Acknowledging more items, none of them an issued line. *)
Lemma gate_inv_grow s s' :
  transferData s' = transferData s →
  linesIssueMap s' = linesIssueMap s →
  (∀ id, box_matched s id = true → box_matched s' id = true) →
  (∀ i, line_matched s i = true → line_matched s' i = true) →
  (∀ i, line_matched s' i = true →
        line_matched s i = true ∨ line_issued s i = false) →
  gate_inv s → gate_inv s'.
Proof.
  intros Ht Hi Hb Hl Hnew. rewrite !gate_inv_alt. intros Hinv i Hlt Hm Hiss.
  assert (∀ j, line_issued s' j = line_issued s j) as Eiss
    by (intros j; unfold line_issued; by rewrite Hi).
  assert (totalLines s' = totalLines s) as El
    by (unfold totalLines, lines; by rewrite Ht).
  rewrite Eiss in Hiss. rewrite El in Hlt.
  destruct (Hnew i Hm) as [Hm0|Hni]; [|congruence].
  apply (all_resolved_grow s s'); try done.
  - intros j [?|?]; [left; auto | right; by rewrite Eiss].
  - by apply (Hinv i).
Qed.

Lemma box_matched_acknowledge s bs id :
  box_matched s id = true →
  default false (acknowledge_boxes bs (boxesMatchMap s) !! id) = true.
Proof.
  intros Hm. rewrite acknowledge_boxes_lookup. by case_bool_decide.
Qed.

Lemma box_matched_acknowledged s (b : Box.t) :
  b ∈ boxes s →
  default false (acknowledge_boxes (boxes s) (boxesMatchMap s) !! Box.id b)
  = true.
Proof.
  intros Hin. rewrite acknowledge_boxes_lookup.
  rewrite bool_decide_eq_true_2; [done|]. by apply list_elem_of_fmap_2.
Qed.

Lemma loadTransferDetails_core v s : core (loadTransferDetails v s).1 = core s.
Proof.
  unfold loadTransferDetails. destruct v; try done. by case_match.
Qed.

Lemma use_transfer_number_core v s :
  core (use_transfer_number v s).1 = core s.
Proof. unfold use_transfer_number. by rewrite loadTransferDetails_core. Qed.

Lemma handleTransferQRScan_core t s : core (handleTransferQRScan t s).1 = core s.
Proof.
  unfold handleTransferQRScan.
  repeat case_match; by rewrite use_transfer_number_core.
Qed.

Lemma handleOpenIssue_core i s : core (handleOpenIssue i s).1 = core s.
Proof. unfold handleOpenIssue. by case_match. Qed.

Lemma handleConfirmReceipt_core now s :
  core (handleConfirmReceipt now s).1 = core s.
Proof. unfold handleConfirmReceipt. by case_match. Qed.

Lemma run_gate_inv a s :
  offered a s = true → gate_inv s → gate_inv (run a s).1.
Proof.
  intros Hoff Hinv. destruct a; simpl in *.
  - by apply (gate_inv_core s).
  - apply (gate_inv_core s); [|done]. apply loadTransferDetails_core.
  - by apply (gate_inv_core s).
  - by apply (gate_inv_core s).
  - apply (gate_inv_core s); [|done]. apply handleTransferQRScan_core.
  - (* the lookup answered: no line is acknowledged *)
    apply gate_inv_alt. intros i _ Hm _. exfalso.
    unfold line_matched in Hm. simpl in Hm.
    by rewrite lineMap_lookup in Hm.
  - (* the lookup failed: there are no lines *)
    apply gate_inv_alt. intros i Hi. unfold totalLines, lines in Hi.
    simpl in Hi. lia.
  - (* one box *)
    apply (gate_inv_grow s); try done.
    + intros id Hm. unfold box_matched. simpl.
      destruct (decide (boxId = id)) as [->|Hne];
        [by rewrite lookup_insert_eq | by rewrite lookup_insert_ne].
    + auto.
  - (* the boxes of one article *)
    unfold handleAcknowledgeArticleBoxes.
    destruct (length (default [] (groupedBoxes s !! articleName)) =? 0);
      [done|].
    apply (gate_inv_grow s); try done.
    + intros id Hm. by apply box_matched_acknowledge.
    + auto.
  - (* one line, offered while it is pending *)
    unfold line_buttons_shown in Hoff.
    apply andb_true_iff in Hoff as [Hoff Hni].
    apply negb_true_iff in Hni.
    apply (gate_inv_grow s); try done.
    + intros i Hm. unfold line_matched. simpl.
      destruct (decide (lineIndex = i)) as [->|Hne];
        [by rewrite lookup_insert_eq | by rewrite lookup_insert_ne].
    + intros i. unfold line_matched at 1. simpl.
      destruct (decide (lineIndex = i)) as [->|Hne]; [by right|].
      rewrite lookup_insert_ne by done. by left.
  - apply (gate_inv_core s); [|done]. apply handleOpenIssue_core.
  - by apply (gate_inv_core s).
  - (* the issue form is submitted *)
    unfold handleSubmitIssue.
    destruct (isNaN _ && isNaN _); [done|].
    rewrite gate_inv_alt in Hinv. apply gate_inv_alt.
    intros i Hi Hm Hiss.
    unfold line_matched in Hm. simpl in Hm.
    unfold line_issued in Hiss. simpl in Hiss.
    destruct (decide (lineIndex = i)) as [->|Hne];
      [by rewrite lookup_delete_eq in Hm|].
    rewrite lookup_delete_ne in Hm by done.
    rewrite lookup_insert_ne in Hiss by done.
    eapply (all_resolved_grow s); [done|done| |by apply (Hinv i)].
    intros j [Hj|Hj].
    + destruct (decide (lineIndex = j)) as [->|Hnj].
      * right. unfold line_issued. simpl. rewrite lookup_insert_eq.
        by apply bool_decide_eq_true_2.
      * left. unfold line_matched. simpl. by rewrite lookup_delete_ne.
    + right. unfold line_issued in *. simpl.
      destruct (decide (lineIndex = j)) as [->|Hnj].
      * rewrite lookup_insert_eq. by apply bool_decide_eq_true_2.
      * by rewrite lookup_insert_ne.
  - by apply (gate_inv_core s).
  - (* acknowledge all: nothing stays pending *)
    apply gate_inv_alt. intros _ _ _ _. split.
    + intros b Hin. unfold box_matched. simpl.
      by apply box_matched_acknowledged.
    + intros i Hi. left. unfold line_matched. simpl.
      rewrite acknowledge_lines_lookup.
      unfold totalLines, lines in Hi. simpl in Hi.
      by replace (i <? totalLines s) with true
        by (symmetry; by apply Nat.ltb_lt).
  - (* all lines but the issued ones *)
    apply (gate_inv_grow s); try done.
    + intros i Hm. unfold line_matched. simpl.
      rewrite acknowledge_lines_lookup. by case_match.
    + intros i. unfold line_matched at 1. simpl.
      rewrite acknowledge_lines_lookup.
      destruct ((i <? totalLines s) && negb (line_issued s i)) eqn:Hk.
      * apply andb_true_iff in Hk as [_ Hk]. apply negb_true_iff in Hk.
        by right.
      * by left.
  - (* all boxes *)
    apply (gate_inv_grow s); try done.
    + intros id Hm. by apply box_matched_acknowledge.
    + auto.
  - by apply (gate_inv_core s).
  - by apply (gate_inv_core s).
  - apply (gate_inv_core s); [|done]. apply handleConfirmReceipt_core.
  - by apply (gate_inv_core s).
Qed.

(** Every action but "Acknowledge All" keeps the two maps of the lines
    apart. *)
Lemma run_exclusive a s :
  a ≠ AcknowledgeAll → offered a s = true →
  exclusive s → exclusive (run a s).1.
Proof.
  intros Ha Hoff Hex.
  assert (∀ s', linesMatchMap s' = linesMatchMap s →
                linesIssueMap s' = linesIssueMap s → exclusive s') as Hmaps.
  { intros s' Hm Hi i. unfold line_matched, line_issued.
    rewrite Hm, Hi. apply Hex. }
  assert (∀ s', core s' = core s → exclusive s') as Hcore.
  { intros s' Hc. injection Hc as _ _ Hm Hi. by apply Hmaps. }
  destruct a; simpl in *; try (by apply Hmaps); try done.
  - apply Hcore, loadTransferDetails_core.
  - apply Hcore, handleTransferQRScan_core.
  - intros i Hm _. unfold line_matched in Hm. simpl in Hm.
    by rewrite lineMap_lookup in Hm.
  - unfold handleAcknowledgeArticleBoxes.
    destruct (length (default [] (groupedBoxes s !! articleName)) =? 0);
      [done|]. by apply Hmaps.
  - unfold line_buttons_shown in Hoff.
    apply andb_true_iff in Hoff as [_ Hni]. apply negb_true_iff in Hni.
    intros i. unfold line_matched, line_issued. simpl.
    destruct (decide (lineIndex = i)) as [->|Hne].
    + intros _ Hiss. unfold line_issued in Hni. congruence.
    + rewrite lookup_insert_ne by done. apply Hex.
  - apply Hcore, handleOpenIssue_core.
  - unfold handleSubmitIssue. destruct (isNaN _ && isNaN _); [done|].
    intros i. unfold line_matched, line_issued. simpl.
    destruct (decide (lineIndex = i)) as [->|Hne].
    + by rewrite lookup_delete_eq.
    + rewrite lookup_delete_ne, lookup_insert_ne by done. apply Hex.
  - intros i. unfold line_matched at 1. simpl.
    rewrite acknowledge_lines_lookup.
    destruct ((i <? totalLines s) && negb (line_issued s i)) eqn:Hk.
    + apply andb_true_iff in Hk as [_ Hk]. apply negb_true_iff in Hk.
      intros _ Hiss. unfold line_issued in *. simpl in Hiss. congruence.
    + apply Hex.
  - apply Hcore, handleConfirmReceipt_core.
Qed.

Lemma initial_gate_inv : gate_inv initial.
Proof. by intros H. Qed.

Lemma reachable_gate_inv s : reachable s → gate_inv s.
Proof.
  induction 1 as [|s a Hr IH Hoff]; [apply initial_gate_inv|].
  by apply run_gate_inv.
Qed.

End GateInvariant.

(** ** The claims about the reconciliation state *)

Section Reconciliation.
Implicit Types (s : State) (i : nat).

Lemma run_all_reachable acts s s' :
  reachable s → run_all acts s = Some s' → reachable s'.
Proof.
  revert s. induction acts as [|a acts IH]; intros s Hr; simpl.
  - by intros [= <-].
  - destruct (offered a s) eqn:Hoff; [|done].
    apply IH. by apply reachable_step.
Qed.

Lemma run_clean_run_all acts s s' :
  run_clean acts s = Some s' → run_all acts s = Some s'.
Proof.
  revert s. induction acts as [|a acts IH]; intros s; simpl; [done|].
  destruct (offered a s); [|done].
  destruct (carries_no_issue a s); [|done]. apply IH.
Qed.

Lemma run_clean_reachable acts s :
  run_clean acts initial = Some s → reachable s.
Proof.
  intros H%run_clean_run_all.
  apply (run_all_reachable acts initial); [constructor|done].
Qed.

(** A load that carries no issue over starts with every item pending. *)
Lemma clean_load_starts_pending (response : Transfer.t) s :
  carries_no_issue (LookupResolved response) s = true →
  let s' := (run (LookupResolved response) s).1 in
  pendingItems s' = totalItems s'.
Proof.
  intros Hc s'.
  pose proof (counts s') as Hcount.
  assert (∀ i, line_matched s' i = false) as Hlm.
  { intros i. apply lineMap_lookup. }
  assert (totalMatched s' = 0) as H0.
  { unfold totalMatched, resolvedLines, matchedBoxes, matchedLines,
      issuedLines, filteri.
    rewrite (proj2 (filter_nil_iff (λ b, box_matched s' (Box.id b))
                      (boxes s')))
      by (intros b _; apply boxMap_lookup).
    rewrite (proj2 (filteri_from_nil_iff (λ i, line_matched s' i)
                      (lines s') 0)) by (intros; apply Hlm).
    rewrite (proj2 (filteri_from_nil_iff (λ i, line_issued s' i)
                      (lines s') 0)); [done|].
    intros i Hi. simpl in Hc. rewrite forallb_forall in Hc.
    specialize (Hc i). rewrite negb_true_iff in Hc.
    apply Hc, in_seq. unfold s' in Hi. cbn in Hi. lia. }
  assert (length (filteri (λ _ i, line_matched s' i && line_issued s' i)
                    (lines s')) = 0) as Hb.
  { apply (filteri_from_nil_iff (λ i, line_matched s' i && line_issued s' i)).
    intros i Hi. by rewrite Hlm. }
  lia.
Qed.

(** C1, as amended.  After every list of actions the page offers in which
    no load carries an issue over, the confirm button is disabled while an
    item is pending; and when no line is at once acknowledged and issued,
    the button is enabled exactly when the page is not loading, no item is
    pending and the transfer has an item. *)
Theorem confirm_gate (acts : list action) s :
  run_clean acts initial = Some s →
  (0 < pendingItems s → confirm_disabled s = true)
  ∧ (some_line_acknowledged_with_issue s = false →
     (confirm_disabled s = false
      ↔ loading s = false ∧ pendingItems s = 0 ∧ 0 < totalItems s)).
Proof.
  intros Hr%run_clean_reachable. split.
  - apply gate_closed_while_pending. by apply reachable_gate_inv.
  - apply gate_without_both.
Qed.

(** C9.  When neither field of the issue form parses as a number, which is
    so when both are blank, submitting the form changes nothing: the state
    is the one before, so the line keeps its resolution and both maps their
    entries, and all the handler does is show the error toast; no request
    is sent. *)
Theorem submit_issue_rejected s i :
  isNaN (parseFloat (IssueForm.actual_qty (issueForm s))) = true →
  isNaN (parseFloat (IssueForm.actual_total_weight (issueForm s))) = true →
  handleSubmitIssue i s = (s, [Toast "Error" true])
  ∧ line_resolution (handleSubmitIssue i s).1 i = line_resolution s i
  ∧ linesMatchMap (handleSubmitIssue i s).1 = linesMatchMap s
  ∧ linesIssueMap (handleSubmitIssue i s).1 = linesIssueMap s.
Proof.
  intros Hq Hw.
  assert (handleSubmitIssue i s = (s, [Toast "Error" true])) as E.
  { unfold handleSubmitIssue. by rewrite Hq, Hw. }
  rewrite E. by split_and!.
Qed.

Lemma blank_is_not_a_number : parseFloat [] = NaN.
Proof. reflexivity. Qed.

End Reconciliation.

(** ** The confirm payload *)

Section Payload.
Implicit Types (s : State) (i : nat).

Lemma imap_shift {T U} (f : nat → T → U) (l : list T) :
  imap (f ∘ S) l = imap (λ i x, f (S i) x) l.
Proof. by apply imap_ext. Qed.

Lemma elem_of_indexed (ls : list Line.t) (line : Line.t) i :
  (line, i) ∈ indexed ls ↔ ls !! i = Some line.
Proof.
  unfold indexed. rewrite elem_of_lookup_imap. split.
  - by intros (j & x & [= -> ->] & Hx).
  - intros Hl. by exists i, line.
Qed.

Lemma filter_indexed_length (f : nat → bool) (ls : list Line.t) :
  length (List.filter (λ '(_, i), f i) (indexed ls))
  = length (filteri (λ _ i, f i) ls).
Proof.
  unfold indexed, filteri.
  assert (∀ k, length (List.filter (λ '(_, i), f i)
                         (imap (λ i (line : Line.t), (line, k + i)) ls))
               = length (filteri_from (λ _ i, f i) k ls)) as H.
  { induction ls as [|x ls IH]; intros k; simpl; [done|].
    rewrite Nat.add_0_r.
    rewrite (imap_ext _ (λ i (line : Line.t), (line, S k + i)))
      by (intros; simpl; f_equal; lia).
    destruct (f k); [cbn [length]; f_equal|]; apply IH. }
  apply (H 0).
Qed.

Lemma omap_indexed_length {U} (m : gmap nat Issue.t)
    (g : Line.t → nat → Issue.t → U) (ls : list Line.t) :
  length (omap (λ '(line, i), g line i <$> m !! i) (indexed ls))
  = length (filteri (λ _ i, bool_decide (is_Some (m !! i))) ls).
Proof.
  unfold indexed, filteri.
  assert (∀ k, length (omap (λ '(line, i), g line i <$> m !! i)
                         (imap (λ i (line : Line.t), (line, k + i)) ls))
               = length (filteri_from
                           (λ _ i, bool_decide (is_Some (m !! i))) k ls))
    as H.
  { induction ls as [|x ls IH]; intros k; simpl; [done|].
    rewrite Nat.add_0_r.
    rewrite (imap_ext _ (λ i (line : Line.t), (line, S k + i)))
      by (intros; simpl; f_equal; lia).
    destruct (m !! k) as [iss|].
    - rewrite bool_decide_eq_true_2 by eauto.
      cbn [fmap option_fmap option_map length]. f_equal. apply IH.
    - rewrite bool_decide_eq_false_2 by (by intros [? ?]). apply IH. }
  apply (H 0).
Qed.

Lemma uint_to_js_inj (d d' : Decimal.uint) :
  uint_to_js d = uint_to_js d' → d = d'.
Proof.
  revert d'. induction d as [|d IH|d IH|d IH|d IH|d IH|d IH|d IH|d IH|d IH|d IH];
    intros [|e|e|e|e|e|e|e|e|e|e]; simpl; intros H; try done;
    injection H as H; by rewrite (IH e H).
Qed.

Lemma decimal_inj (n n' : N) : decimal n = decimal n' → n = n'.
Proof.
  unfold decimal. intros H. by apply Unsigned.to_uint_inj, uint_to_js_inj.
Qed.

(** Lines at different positions get different pseudo-box numbers. *)
Lemma pseudo_box_number_inj line line' i j m m' iss iss' :
  Scanned.box_number (pseudo_box line i m iss)
  = Scanned.box_number (pseudo_box line' j m' iss') →
  i = j.
Proof.
  cbn [pseudo_box Scanned.box_number]. intros H.
  apply app_inv_head in H. apply decimal_inj in H. lia.
Qed.

(** Acknowledged records first and issued ones after them make up, in
    another order, one record for each line of the list, when each line is
    either acknowledged or issued and not both. *)
Lemma line_records_perm s (l : list (Line.t * nat)) :
  Forall (λ '(_, i), line_matched s i = negb (line_issued s i)) l →
  map (λ '(line, i), pseudo_box line i true issue_null)
    (List.filter (λ '(_, i), line_matched s i) l)
  ++ omap (λ '(line, i),
             (λ iss, pseudo_box line i false (issue_of iss))
               <$> linesIssueMap s !! i) l
  ≡ₚ map (λ '(line, i), line_record s i line) l.
Proof.
  induction 1 as [|[line i] l Hx _ IH]; [done|].
  cbn [List.filter map omap list_omap]. unfold line_record at 1.
  unfold line_issued in Hx.
  destruct (linesIssueMap s !! i) as [iss|] eqn:Hiss.
  - rewrite bool_decide_eq_true_2 in Hx by eauto. rewrite Hx.
    cbn [fmap option_fmap option_map negb].
    rewrite <- Permutation_middle. by constructor.
  - rewrite bool_decide_eq_false_2 in Hx by (by intros [? ?]). rewrite Hx.
    cbn [fmap option_fmap option_map negb map app]. by constructor.
Qed.

Lemma filter_all {T} (f : T → bool) (l : list T) :
  (∀ x, x ∈ l → f x = true) → List.filter f l = l.
Proof.
  induction l as [|x l IH]; intros H; simpl; [done|].
  rewrite H by left. f_equal. apply IH. intros y Hy. apply H. by right.
Qed.

(** The payload of a state in which every item is resolved and no line is
    in both maps. *)
Lemma resolved_payload s :
  all_resolved s → some_line_acknowledged_with_issue s = false →
  allScannedBoxes s
  ≡ₚ map scanned_box (boxes s) ++ imap (line_record s) (lines s).
Proof.
  intros [Hb Hl] Hex. rewrite no_both_iff in Hex.
  unfold allScannedBoxes, scannedBoxes.
  rewrite (filter_all (λ b, box_matched s (Box.id b)) (boxes s)) by done.
  apply Permutation_app_head.
  unfold acknowledgedArticles, issuedArticles.
  rewrite (line_records_perm s (indexed (lines s))).
  - unfold indexed. change (map ?f ?l) with (f <$> l).
    by rewrite fmap_imap.
  - apply Forall_forall. intros [line i] Hin.
    apply elem_of_indexed, lookup_lt_Some in Hin.
    specialize (Hl i Hin). specialize (Hex i Hin).
    destruct (line_matched s i), (line_issued s i); simpl; try done.
    by destruct Hl.
Qed.

(** X24.  When no load carried an issue over and the page lets the
    operator confirm, every item is resolved, no line is in both maps, and
    the payload is, in another order, the record of every box followed by
    the record of every article line: one record for each item and no
    other. *)
Lemma confirm_enabled_one_record_each (acts : list action) s :
  run_clean acts initial = Some s → confirm_disabled s = false →
  pendingItems s = 0
  ∧ some_line_acknowledged_with_issue s = false
  ∧ allScannedBoxes s
    ≡ₚ map scanned_box (boxes s) ++ imap (line_record s) (lines s).
Proof.
  intros Hr%run_clean_reachable Hd.
  assert (pendingItems s = 0) as Hp.
  { destruct (pendingItems s) eqn:Hp; [done|].
    rewrite gate_closed_while_pending in Hd; [done| |lia].
    by apply reachable_gate_inv. }
  pose proof (counts s) as Hc. rewrite Hp in Hc.
  unfold confirm_disabled in Hd.
  apply orb_false_iff in Hd as [_ Hall]. apply negb_false_iff in Hall.
  unfold allMatched in Hall. apply andb_true_iff in Hall as [_ Heq].
  apply Nat.eqb_eq in Heq.
  assert (some_line_acknowledged_with_issue s = false) as Hno.
  { apply no_both_iff. intros i Hi.
    apply (filteri_from_nil_iff (λ i, line_matched s i && line_issued s i)
             (lines s) 0); [|done].
    fold (filteri (λ (_ : Line.t) i, line_matched s i && line_issued s i)
            (lines s)). lia. }
  split_and!; try done.
  apply resolved_payload; [|done]. by apply pending_zero_iff.
Qed.

(** C8.  On confirm, with a transfer loaded, the handler sends exactly one
    request.  Its [scanned_boxes] is one flat list: first a record for
    every acknowledged box, then a pseudo-box for every acknowledged line,
    then a pseudo-box for every issued line, and nothing else.  A box
    record has [is_matched = true] and the box's [id]; the pseudo-box of
    the line at position [i] is numbered [ART-{i+1}] and has no box id; an
    acknowledged line has [is_matched = true] and [issue = null]; an issued
    line has [is_matched = false] and carries its [actual_qty],
    [actual_total_weight] and [remarks] (an empty remark as [null]). *)
Theorem confirm_payload (now : Date) s (t : Transfer.t) :
  transferData s = Some t →
  ∃ body,
    handleConfirmReceipt now s = (set_loading true s, [CreateTransferIn body])
    ∧ Receipt.scanned_boxes body
      = scannedBoxes s ++ acknowledgedArticles s ++ issuedArticles s
    ∧ length (Receipt.scanned_boxes body)
      = matchedBoxes s + matchedLines s + issuedLines s
    ∧ (∀ r, r ∈ scannedBoxes s ↔
         ∃ b, b ∈ boxes s ∧ box_matched s (Box.id b) = true
              ∧ r = scanned_box b)
    ∧ (∀ r, r ∈ acknowledgedArticles s ↔
         ∃ i line, lines s !! i = Some line ∧ line_matched s i = true
                   ∧ r = pseudo_box line i true issue_null)
    ∧ (∀ r, r ∈ issuedArticles s ↔
         ∃ i line iss, lines s !! i = Some line
           ∧ linesIssueMap s !! i = Some iss
           ∧ r = pseudo_box line i false
                   (issue_object (Issue.actual_qty iss)
                      (Issue.actual_total_weight iss)
                      (if truthy_string (Issue.remarks iss)
                       then Some (Issue.remarks iss) else None)))
    ∧ (∀ b, Scanned.is_matched (scanned_box b) = true
            ∧ Scanned.transfer_out_box_id (scanned_box b) = Some (Box.id b)
            ∧ Scanned.issue (scanned_box b) = issue_absent)
    ∧ (∀ line i m iss,
         Scanned.box_number (pseudo_box line i m iss)
         = js "ART-" ++ decimal (N.of_nat (i + 1))
         ∧ Scanned.transfer_out_box_id (pseudo_box line i m iss) = None
         ∧ Scanned.is_matched (pseudo_box line i m iss) = m
         ∧ Scanned.issue (pseudo_box line i m iss) = iss).
Proof.
  intros Ht. exists (receipt now t s).
  split_and!; try done.
  - unfold handleConfirmReceipt. by rewrite Ht.
  - simpl. unfold allScannedBoxes.
    rewrite !length_app. unfold scannedBoxes, acknowledgedArticles.
    rewrite !length_map. unfold issuedArticles.
    rewrite (omap_indexed_length (linesIssueMap s)
               (λ line i iss, pseudo_box line i false (issue_of iss))).
    rewrite (filter_indexed_length (λ i, line_matched s i)).
    unfold matchedBoxes, matchedLines, issuedLines, line_issued. lia.
  - intros r. unfold scannedBoxes.
    rewrite list_elem_of_In, in_map_iff. split.
    + intros (b & <- & Hb). apply filter_In in Hb as [Hin Hm].
      exists b. by rewrite list_elem_of_In.
    + intros (b & Hin & Hm & ->). exists b. split; [done|].
      apply filter_In. by rewrite <- list_elem_of_In.
  - intros r. unfold acknowledgedArticles.
    rewrite list_elem_of_In, in_map_iff. split.
    + intros ([line i] & <- & Hb). apply filter_In in Hb as [Hin Hm].
      apply list_elem_of_In, elem_of_indexed in Hin. by exists i, line.
    + intros (i & line & Hl & Hm & ->). exists (line, i). split; [done|].
      apply filter_In. split; [|done].
      by apply list_elem_of_In, elem_of_indexed.
  - intros r. unfold issuedArticles. rewrite list_elem_of_omap. split.
    + intros ([line i] & Hin & Hr). apply elem_of_indexed in Hin.
      destruct (linesIssueMap s !! i) as [iss|] eqn:Hiss; [|done].
      injection Hr as <-. by exists i, line, iss.
    + intros (i & line & iss & Hl & Hiss & ->). exists (line, i).
      split; [by apply elem_of_indexed|]. by rewrite Hiss.
Qed.

End Payload.

(** ** The transfer-number scanner *)

Section Scanner.
Implicit Types (s : State) (decodedText : jsstring).

Lemma loadTransferDetails_transferNumber v s :
  transferNumber (loadTransferDetails v s).1 = transferNumber s.
Proof. unfold loadTransferDetails. destruct v; try done. by case_match. Qed.

(** C10, as amended.  Every scan closes the scanner, stores a transfer
    number and hands it to [loadTransferDetails]; none is turned away as
    unrecognised.  The number is the [transfer_no] of the text read as a
    JSON object when that is truthy, else its [challan_no] when that is
    truthy, and in every other case the scanned text itself: text that is
    not JSON, JSON that is not an object, an object without these names or
    with falsy values under them.  For the scanned text itself the lookup
    request is sent unless the text is blank, in which case the error toast
    is shown. *)
Theorem scan_uses_transfer_number decodedText s :
  handleTransferQRScan decodedText s
  = use_transfer_number (scanned_transfer_number decodedText)
      (set_showScanner false s)
  ∧ transferNumber (handleTransferQRScan decodedText s).1
    = scanned_transfer_number decodedText
  ∧ showScanner (handleTransferQRScan decodedText s).1 = false
  ∧ (∀ ms v, JSON_parse decodedText = Some (JObj ms) →
       member (js "transfer_no") ms = Some v → truthy_json v = true →
       scanned_transfer_number decodedText = v)
  ∧ (∀ ms w, JSON_parse decodedText = Some (JObj ms) →
       truthy_read (get_property (JObj ms) (js "transfer_no")) = false →
       member (js "challan_no") ms = Some w → truthy_json w = true →
       scanned_transfer_number decodedText = w)
  ∧ (∀ qrData, JSON_parse decodedText = Some qrData →
       truthy_read (get_property qrData (js "transfer_no")) = false →
       truthy_read (get_property qrData (js "challan_no")) = false →
       scanned_transfer_number decodedText = JStr decodedText)
  ∧ (JSON_parse decodedText = None →
       scanned_transfer_number decodedText = JStr decodedText)
  ∧ (scanned_transfer_number decodedText = JStr decodedText →
       (handleTransferQRScan decodedText s).2
       = if truthy_string (trim decodedText)
         then [GetTransferByNumber decodedText]
         else [Toast "Error" true]).
Proof.
  assert (handleTransferQRScan decodedText s
          = use_transfer_number (scanned_transfer_number decodedText)
              (set_showScanner false s)) as E.
  { unfold handleTransferQRScan, scanned_transfer_number.
    destruct (JSON_parse decodedText) as [[| | | | |ms]|]; try done.
    simpl. destruct (member (js "transfer_no") ms) as [v|].
    - destruct (truthy_json v); [done|].
      destruct (member (js "challan_no") ms) as [w|]; [|done].
      by destruct (truthy_json w).
    - destruct (member (js "challan_no") ms) as [w|]; [|done].
      by destruct (truthy_json w). }
  split_and!.
  - done.
  - rewrite E. unfold use_transfer_number.
    by rewrite loadTransferDetails_transferNumber.
  - rewrite E. unfold use_transfer_number, loadTransferDetails.
    repeat case_match; done.
  - intros ms v Hp Hm Hv. unfold scanned_transfer_number.
    by rewrite Hp, Hm, Hv.
  - intros ms w Hp Ht Hm Hw. unfold scanned_transfer_number.
    rewrite Hp, Hm, Hw. simpl in Ht.
    destruct (member (js "transfer_no") ms) as [v|]; [|done].
    simpl in Ht. by rewrite Ht.
  - intros qrData Hp Ht Hc. unfold scanned_transfer_number. rewrite Hp.
    destruct qrData as [| | | | |ms]; try done. simpl in Ht, Hc.
    destruct (member (js "transfer_no") ms) as [v|],
      (member (js "challan_no") ms) as [w|]; simpl in *;
      rewrite ?Ht, ?Hc; done.
  - intros Hp. unfold scanned_transfer_number. by rewrite Hp.
  - intros Hraw. rewrite E, Hraw. unfold use_transfer_number. simpl.
    by destruct (truthy_string (trim decodedText)).
Qed.

End Scanner.

(** ** The claims at work on sample inputs *)

Section Samples.

(** C4 on the two pages of the specification: one order results, with the
    supplier of the first page and the three articles in order. *)
Lemma merge_same_po_number_witness :
  (merge_pages initial_state [sample_page 1 [po_acme]] = Some state_after_acme
   ∧ merge_pos state_after_acme [] = Some state_after_acme
   ∧ allPOs state_after_acme !! 0 = Some po_acme
   ∧ poNum_of po_acme = Some (js "PO1")
   ∧ poNum_of po_other = Some (js "PO1"))
  ∧ (merge_po state_after_acme po_other
     = Some (mkState (<[0 := merge_into po_acme po_other]> [po_acme])
                     {[ js "PO1" := 0 ]})
     ∧ supplier_name (merge_into po_acme po_other) = Some (js "Acme")
     ∧ articles (merge_into po_acme po_other)
       = Some [js "bolt"; js "nut"; js "washer"])
  ∧ mergePageResults [sample_page 1 [po_acme]; sample_page 2 [po_other]]
    = Some [sample_po (Some (js "PO1")) (Some (js "Acme"))
              (Some [js "bolt"; js "nut"; js "washer"])].
Proof.
  split; [|split].
  - repeat split; vm_compute; reflexivity.
  - pose proof (merge_same_po_number [sample_page 1 [po_acme]] [] po_other
                  po_acme state_after_acme state_after_acme 0 (js "PO1"))
      as H.
    destruct H as (H1 & _ & _ & _ & H5 & _);
      try (vm_compute; reflexivity).
    split; [exact H1|]. split; [vm_compute; reflexivity|exact H5].
  - vm_compute. reflexivity.
Defined.

(** A call throws on an entry numbered with an inherited name. *)
Example merge_throws_on_inherited_name :
  mergePageResults
    [sample_page 1 [sample_po (Some (js "constructor")) None
                      (Some [js "bolt"])]]
  = None.
Proof. vm_compute. reflexivity. Qed.

(** C5 as stated fails on an entry without number and without articles:
    after the first page the entry is dropped, the order keeps its empty
    supplier instead of taking the entry's; and as the first entry of a
    call it does not become an order. *)
Lemma orphan_without_articles_is_dropped :
  poNum_of po_supplier_only = None
  ∧ merge_pos initial_state [po_bare] = Some state_after_bare
  ∧ last (allPOs state_after_bare) = Some po_bare
  ∧ merge_po state_after_bare po_supplier_only = Some state_after_bare
  ∧ merge_po state_after_bare po_supplier_only
    ≠ Some (mkState [merge_into po_bare po_supplier_only]
                    (seenPONumbers state_after_bare))
  ∧ supplier_name (merge_into po_bare po_supplier_only) = Some (js "Acme")
  ∧ supplier_name po_bare = None
  ∧ mergePageResults
      [sample_page 1 [po_bare]; sample_page 2 [po_supplier_only]]
    = Some [po_bare]
  ∧ mergePageResults [sample_page 1 [po_supplier_only]] = Some [].
Proof.
  split_and!; try (vm_compute; reflexivity).
  vm_compute. intros H. discriminate H.
Qed.

(** C5, as amended, on the two pages of the specification: an order with
    one article, then an entry without number with two. *)
Lemma merge_orphan_with_articles_witness :
  (poNum_of po_continuation = None ∧ articles_of po_continuation ≠ [])
  ∧ (merge_po state_after_bare po_continuation
     = Some (mkState [merge_into po_bare po_continuation]
                     (seenPONumbers state_after_bare))
     ∧ articles (merge_into po_bare po_continuation)
       = Some [js "bolt"; js "nut"; js "washer"]
     ∧ supplier_name (merge_into po_bare po_continuation) = Some (js "Acme"))
  ∧ mergePageResults
      [sample_page 1 [po_bare]; sample_page 2 [po_continuation]]
    = Some [sample_po (Some (js "PO1")) (Some (js "Acme"))
              (Some [js "bolt"; js "nut"; js "washer"])].
Proof.
  assert (poNum_of po_continuation = None) as H1 by reflexivity.
  assert (articles_of po_continuation ≠ []) as H2 by discriminate.
  split; [|split].
  - by split.
  - destruct (merge_orphan_with_articles state_after_bare po_continuation
                H1 H2) as (E & _ & _).
    split; [exact E|]. split; vm_compute; reflexivity.
  - vm_compute. reflexivity.
Defined.

(** C6 on the output of the two-page merge. *)
Lemma merge_idempotent_witness :
  let pages := [sample_page 1 [po_acme]; sample_page 2 [po_other];
                sample_page 3 [sample_po (Some (js "PO2")) None None]] in
  let out := [merge_into po_acme po_other;
              sample_po (Some (js "PO2")) None (Some [])] in
  let wrapped := map (λ po, sample_page 1 [po]) out in
  (mergePageResults pages = Some out ∧ singleton_pages wrapped out)
  ∧ mergePageResults wrapped = Some out.
Proof.
  intros pages out wrapped.
  assert (mergePageResults pages = Some out) as H1
    by (vm_compute; reflexivity).
  assert (singleton_pages wrapped out) as H2
    by (repeat constructor).
  split; [by split|].
  exact (merge_idempotent pages wrapped out H1 H2).
Defined.

(** C7 on the sample store: the call returns one new purchase order; the
    store it leaves extends the one it found, so the argument reads back as
    before; and the new order reads back as the merger on values says. *)
Lemma merge_is_pure_witness :
  let r := mergePageResults_s 11%positive sample_store in
  (sample_store ⊆ r.2
   ∧ (∀ pages, load_pages sample_store 11%positive = Some pages →
               load_pages r.2 11%positive = Some pages))
  ∧ r.1 = Some [13%positive]
  ∧ sample_store !! 13%positive = None
  ∧ load_pages sample_store 11%positive
    = Some [mkPage (js "job") 1 2
              (Some [sample_po (Some (js "PO1")) (Some (js "Acme"))
                       (Some [js "bolt"])]);
            mkPage (js "job") 2 2
              (Some [mkPO (Some (js " PO1 ")) (Some (js "Other"))
                       (Some (js "Shop")) None None None None None None None
                       None (Some [js "nut"])])]
  ∧ load_po r.2 13%positive
    = Some (mkPO (Some (js "PO1")) (Some (js "Acme")) (Some (js "Shop"))
              None None None None None None None None
              (Some [js "bolt"; js "nut"]))
  ∧ load_po r.2 5%positive = load_po sample_store 5%positive.
Proof.
  intros r.
  destruct (merge_is_pure sample_store 11%positive) as (H1 & _ & H3 & _).
  split; [split; [exact H1 | exact H3]|].
  split_and!; vm_compute; reflexivity.
Defined.

End Samples.

(** ** The bulk actions, line by line *)

Section Bulk.
Implicit Types (s : State) (i : nat).

Lemma line_resolution_matchmap s (m : gmap nat bool) i :
  line_resolution (set_linesMatchMap m s) i
  = match default false (m !! i), linesIssueMap s !! i with
    | false, None => Pending
    | true, None => Acknowledged
    | false, Some iss => Issued iss
    | true, Some iss => AcknowledgedWithIssue iss
    end.
Proof. done. Qed.

(** X25.  "All" over the article lines: a pending line becomes
    acknowledged, every other line, an issued one in particular, stays as
    it is. *)
Lemma acknowledge_all_lines_resolution s i :
  i < totalLines s →
  line_resolution (handleAcknowledgeAllLines s).1 i
  = match line_resolution s i with
    | Pending => Acknowledged
    | r => r
    end.
Proof.
  intros Hi. unfold handleAcknowledgeAllLines. simpl.
  rewrite line_resolution_matchmap, acknowledge_lines_lookup.
  apply Nat.ltb_lt in Hi as ->. simpl.
  unfold line_resolution, line_issued, line_matched.
  destruct (linesIssueMap s !! i) as [iss|] eqn:Hiss.
  - rewrite bool_decide_eq_true_2 by eauto. simpl.
    by destruct (default false (linesMatchMap s !! i)).
  - rewrite bool_decide_eq_false_2 by (by intros [? ?]). simpl.
    by destruct (default false (linesMatchMap s !! i)).
Qed.

(** "All" over the boxes leaves every line as it is. *)
Lemma acknowledge_all_boxes_resolution s i :
  line_resolution (handleAcknowledgeAllBoxes s).1 i = line_resolution s i.
Proof. done. Qed.

Lemma acknowledge_all_boxes_box s (b : Box.t) :
  b ∈ boxes s →
  box_resolution (handleAcknowledgeAllBoxes s).1 b = Acknowledged.
Proof.
  intros Hin. unfold box_resolution, box_matched. simpl.
  by rewrite box_matched_acknowledged.
Qed.

(** "Acknowledge All" marks every line acknowledged, the issued ones too,
    and keeps their issue beside the mark. *)
Lemma acknowledge_all_resolution s i :
  i < totalLines s →
  line_resolution (handleAcknowledgeAll s).1 i
  = match line_resolution s i with
    | Pending | Acknowledged => Acknowledged
    | Issued iss | AcknowledgedWithIssue iss => AcknowledgedWithIssue iss
    end.
Proof.
  intros Hi. unfold handleAcknowledgeAll.
  unfold line_resolution at 1, line_matched. simpl.
  rewrite acknowledge_lines_lookup.
  apply Nat.ltb_lt in Hi as ->. simpl.
  unfold line_resolution, line_matched.
  by destruct (default false (linesMatchMap s !! i)),
       (linesIssueMap s !! i).
Qed.

End Bulk.

(** ** The reconciliation claims at work on sample transfers *)

Section TransferSamples.

(** C1 as stated fails while a confirmation is in flight: the one box is
    acknowledged, nothing is pending, the transfer has an item, and yet the
    button is disabled, because [loading] is set. *)
Lemma gate_closed_while_confirming :
  ∃ s, run_all trace_confirming initial = Some s
       ∧ pendingItems s = 0
       ∧ 0 < totalItems s
       ∧ some_line_acknowledged_with_issue s = false
       ∧ loading s = true
       ∧ confirm_disabled s = true.
Proof.
  eexists. split; [vm_compute; reflexivity|].
  split_and!; vm_compute; (reflexivity || lia).
Qed.

(** C1, as amended, on the state with one acknowledged box: the state is
    reached, nothing is pending, and the button is enabled. *)
Lemma confirm_gate_witness :
  let acts := [LookupResolved transfer_1_0; AcknowledgeBox 11] in
  let s := state_after acts in
  run_clean acts initial = Some s
  ∧ ((0 < pendingItems s → confirm_disabled s = true)
     ∧ (some_line_acknowledged_with_issue s = false →
        (confirm_disabled s = false
         ↔ loading s = false ∧ pendingItems s = 0 ∧ 0 < totalItems s)))
  ∧ confirm_disabled s = false.
Proof.
  intros acts s.
  assert (run_clean acts initial = Some s) as Hr by (vm_compute; reflexivity).
  split; [exact Hr|]. split; [exact (confirm_gate acts s Hr)|].
  vm_compute. reflexivity.
Defined.

(** What C1, as amended, leaves out.  An issue is reported on the first
    line of a transfer, then a transfer of one line is loaded.  That line
    has not been touched, and it reads as issued with the figures of the
    earlier report: nothing counts as pending and the button is enabled.
    The load carries an issue over, so the list of actions is none of
    those the amended claim speaks of. *)
Lemma issue_outlives_load :
  ∃ s, run_all trace_issue_then_load initial = Some s
       ∧ totalItems s = 1
       ∧ line_resolution s 0
         = Issued (Issue.mk (Dec false 5 0) (Dec false 0 0) [])
       ∧ pendingItems s = 0
       ∧ confirm_disabled s = false
       ∧ run_clean trace_issue_then_load initial = None.
Proof.
  eexists. split; [vm_compute; reflexivity|].
  split_and!; vm_compute; reflexivity.
Qed.

(** C2 fails on this input: an issue is reported on the first of two
    lines, then "Acknowledge All" is clicked, which the page offers because
    the second line is pending.  The first line ends up acknowledged and
    carrying the issue; nothing is pending and the confirm button stays
    disabled. *)
Lemma acknowledge_all_after_issue :
  ∃ s,
    run_all (trace_issue_first_line ++ [AcknowledgeAll]) initial = Some s
    ∧ line_resolution s 0
      = AcknowledgedWithIssue (Issue.mk (Dec false 5 0) (Dec false 0 0) [])
    ∧ line_resolution s 1 = Acknowledged
    ∧ pendingItems s = 0
    ∧ loading s = false
    ∧ confirm_disabled s = true.
Proof.
  eexists. split; [vm_compute; reflexivity|].
  split_and!; vm_compute; reflexivity.
Qed.

(** C3 fails on the same input: "Acknowledge All" does not leave the
    issued line as it is, whereas "All" over the lines does. *)
Lemma acknowledge_all_touches_issued_line :
  let s := state_after trace_issue_first_line in
  let iss := Issue.mk (Dec false 5 0) (Dec false 0 0) [] in
  run_all trace_issue_first_line initial = Some s
  ∧ line_resolution s 0 = Issued iss
  ∧ line_resolution s 1 = Pending
  ∧ offered AcknowledgeAll s = true
  ∧ line_resolution (handleAcknowledgeAll s).1 0 = AcknowledgedWithIssue iss
  ∧ line_matched (handleAcknowledgeAll s).1 0 = true
  ∧ offered AcknowledgeAllLines s = true
  ∧ line_resolution (handleAcknowledgeAllLines s).1 0 = Issued iss
  ∧ line_resolution (handleAcknowledgeAllLines s).1 1 = Acknowledged.
Proof.
  intros s iss. split_and!; vm_compute; reflexivity.
Qed.

(** C9 on the blank form: the issue form of the line is open with both
    numeric fields blank; submitting it leaves the state as it is and the
    line pending. *)
Lemma submit_issue_rejected_witness :
  let s := state_after trace_blank_form in
  (isNaN (parseFloat (IssueForm.actual_qty (issueForm s))) = true
   ∧ isNaN (parseFloat (IssueForm.actual_total_weight (issueForm s))) = true)
  ∧ (IssueForm.actual_qty (issueForm s) = []
     ∧ IssueForm.actual_total_weight (issueForm s) = []
     ∧ offered (SubmitIssue 0) s = true
     ∧ line_resolution s 0 = Pending)
  ∧ (handleSubmitIssue 0 s = (s, [Toast "Error" true])
     ∧ line_resolution (handleSubmitIssue 0 s).1 0 = line_resolution s 0
     ∧ linesMatchMap (handleSubmitIssue 0 s).1 = linesMatchMap s
     ∧ linesIssueMap (handleSubmitIssue 0 s).1 = linesIssueMap s).
Proof.
  intros s.
  assert (isNaN (parseFloat (IssueForm.actual_qty (issueForm s))) = true)
    as H1 by (vm_compute; reflexivity).
  assert (isNaN (parseFloat (IssueForm.actual_total_weight (issueForm s)))
          = true) as H2 by (vm_compute; reflexivity).
  split; [by split|]. split.
  - split_and!; vm_compute; reflexivity.
  - exact (submit_issue_rejected s 0 H1 H2).
Defined.

(** C8 on the scenario of the specification: two boxes acknowledged, an
    issue on the one line with quantity 5, weight 0 and no remark.  The
    confirm button is enabled and one request goes out, with two box
    records and one issued pseudo-box. *)
Lemma confirm_payload_witness :
  let s := state_after trace_scenario in
  transferData s = Some transfer_2_1
  ∧ confirm_disabled s = false
  ∧ (∃ body,
       handleConfirmReceipt sample_now s
       = (set_loading true s, [CreateTransferIn body])
       ∧ Receipt.grn_number body = js "GRN-20260305140709"
       ∧ Receipt.scanned_boxes body
         = [scanned_box (sample_box 11 1); scanned_box (sample_box 12 2);
            pseudo_box (sample_line "Sugar" 10) 0 false
              (issue_object (Dec false 5 0) (Dec false 0 0) None)]
       ∧ map Scanned.box_number (Receipt.scanned_boxes body)
         = [js "1"; js "2"; js "ART-1"]
       ∧ map Scanned.is_matched (Receipt.scanned_boxes body)
         = [true; true; false]
       ∧ map Scanned.gross_weight (Receipt.scanned_boxes body)
         = [Some (Dec false 52005 (-1)); Some (Dec false 52005 (-1));
            Some (Dec false 125 (-1))]).
Proof.
  intros s.
  assert (transferData s = Some transfer_2_1) as Ht
    by (vm_compute; reflexivity).
  split; [exact Ht|]. split; [vm_compute; reflexivity|].
  destruct (confirm_payload sample_now s transfer_2_1 Ht)
    as (body & Hrun & Hlist & _).
  exists body. split; [exact Hrun|].
  assert (body = receipt sample_now transfer_2_1 s) as ->.
  { unfold handleConfirmReceipt in Hrun. rewrite Ht in Hrun.
    by injection Hrun as <-. }
  split_and!; vm_compute; reflexivity.
Defined.

(** C10 as stated fails on the text [{"transfer_no":""}]: it parses as
    JSON that contains [transfer_no], yet the transfer number becomes the
    scanned text, not the value under the name. *)
Lemma scan_with_empty_transfer_no :
  let s := set_showScanner true initial in
  JSON_parse qr_empty_transfer_no
  = Some (JObj [(js "transfer_no", JStr [])])
  ∧ get_property (JObj [(js "transfer_no", JStr [])]) (js "transfer_no")
    = Value (JStr [])
  ∧ transferNumber (handleTransferQRScan qr_empty_transfer_no s).1
    = JStr qr_empty_transfer_no
  ∧ transferNumber (handleTransferQRScan qr_empty_transfer_no s).1
    ≠ JStr []
  ∧ (handleTransferQRScan qr_empty_transfer_no s).2
    = [GetTransferByNumber qr_empty_transfer_no].
Proof.
  intros s. split_and!; try (vm_compute; reflexivity).
  vm_compute. intros H. discriminate H.
Qed.

(** C10, as amended, on a text whose [transfer_no] is zero and whose
    [challan_no] is a name: the challan number is used and looked up. *)
Lemma scan_uses_transfer_number_witness :
  let s := set_showScanner true initial in
  handleTransferQRScan qr_challan_only s
  = use_transfer_number (scanned_transfer_number qr_challan_only)
      (set_showScanner false s)
  ∧ scanned_transfer_number qr_challan_only = JStr (js "CH-9")
  ∧ (handleTransferQRScan qr_challan_only s).2
    = [GetTransferByNumber (js "CH-9")].
Proof.
  intros s.
  destruct (scan_uses_transfer_number qr_challan_only s) as (E & _).
  split; [exact E|]. split; vm_compute; reflexivity.
Defined.

End TransferSamples.

(** ** More about the merger *)

Section MergeMore.
Context {A : Type}.
Implicit Types (po existing prev : PO A) (st : merge_state A).

Lemma flat_map_insert_app {T U} (f : T → list U) (l : list T) i x y extra :
  l !! i = Some x → f y = f x ++ extra →
  flat_map f (<[i := y]> l) ≡ₚ flat_map f l ++ extra.
Proof.
  intros Hi Hy. revert i Hi.
  induction l as [|z l IH]; intros [|i] Hi; simpl in *; try done.
  - injection Hi as ->. rewrite Hy.
    rewrite <- !app_assoc. apply Permutation_app_head, Permutation_app_comm.
  - rewrite <- app_assoc. apply Permutation_app_head. by apply IH.
Qed.

Lemma flat_articles_insert (l : list (PO A)) i existing po :
  l !! i = Some existing →
  flat_map articles_of (<[i := merge_into existing po]> l)
  ≡ₚ flat_map articles_of l ++ articles_of po.
Proof.
  intros Hi. eapply flat_map_insert_app; [done|].
  apply articles_of_merge_into.
Qed.

Lemma turn_articles st po st' :
  turn st po st' →
  flat_map articles_of (allPOs st')
  ≡ₚ flat_map articles_of (allPOs st) ++ articles_of po.
Proof.
  intros [Hk Ha|prev Hk Ha Hp|Hk Ha Hnil|k i existing Hk Hs He|k Hk Hs Hp];
    cbn [allPOs].
  - rewrite Ha. by rewrite app_nil_r.
  - by apply flat_articles_insert.
  - rewrite Hnil. cbn. by rewrite app_nil_r.
  - by apply flat_articles_insert.
  - rewrite flat_map_app. cbn. by rewrite app_nil_r.
Qed.

Lemma merge_pos_articles pos st st' :
  merge_pos st pos = Some st' →
  flat_map articles_of (allPOs st')
  ≡ₚ flat_map articles_of (allPOs st) ++ flat_map articles_of pos.
Proof.
  revert st. induction pos as [|po pos IH]; intros st; simpl.
  - intros [= <-]. by rewrite app_nil_r.
  - destruct (merge_po st po) as [st1|] eqn:H1; [|done].
    intros H2. eapply perm_trans; [by apply IH|].
    rewrite app_assoc. apply Permutation_app_tail.
    apply turn_articles. by apply merge_po_turn.
Qed.

Lemma merge_articles_perm
    (pages : list (PageExtractResponse A)) (out : list (PO A)) :
  mergePageResults pages = Some out →
  flat_map articles_of out ≡ₚ flat_map articles_of (entries pages).
Proof.
  unfold mergePageResults. rewrite merge_pages_entries.
  destruct (merge_pos initial_state (entries pages)) as [st|] eqn:Hm; [|done].
  intros [= <-]. by apply (merge_pos_articles _ _ _ Hm).
Qed.

(** X1. Whenever the merger returns, the articles of the purchase orders
    it returns are the articles of the entries of the pages, each as often
    as the pages have it: no article is lost and none is doubled. *)
Theorem merge_keeps_every_article
    (pages : list (PageExtractResponse A)) (out : list (PO A)) :
  mergePageResults pages = Some out →
  flat_map articles_of out ≡ₚ flat_map articles_of (entries pages).
Proof.
  unfold mergePageResults. rewrite merge_pages_entries.
  destruct (merge_pos initial_state (entries pages)) as [st|] eqn:Hm; [|done].
  intros [= <-]. by apply (merge_pos_articles _ _ _ Hm).
Qed.

Lemma numbered_insert (l : list (PO A)) i x y k :
  l !! i = Some x → poNum_of y = poNum_of x →
  numbered (<[i := y]> l) k ↔ numbered l k.
Proof.
  intros Hi Hy.
  assert (i < length l)%nat as Hlt by (by eapply lookup_lt_Some).
  split; intros (j & p & Hj & Hp).
  - destruct (decide (i = j)) as [<-|Hne].
    + rewrite list_lookup_insert_eq in Hj by done. injection Hj as <-.
      exists i, x. split; [done|congruence].
    + rewrite list_lookup_insert_ne in Hj by done. by exists j, p.
  - destruct (decide (i = j)) as [<-|Hne].
    + exists i, y. rewrite list_lookup_insert_eq by done.
      split; [done|]. congruence.
    + exists j, p. by rewrite list_lookup_insert_ne.
Qed.

Lemma numbered_snoc (l : list (PO A)) y k :
  numbered (l ++ [y]) k ↔ numbered l k ∨ poNum_of y = Some k.
Proof.
  split.
  - intros (j & p & Hj & Hp).
    apply lookup_app_Some in Hj as [Hj|[_ Hj]]; [left; by exists j, p|].
    apply list_lookup_singleton_Some in Hj as [_ <-]. by right.
  - intros [(j & p & Hj & Hp)|Hy].
    + exists j, p. split; [by apply lookup_app_l_Some|done].
    + exists (length l), y. split; [|done].
      rewrite lookup_app_r by lia. by rewrite Nat.sub_diag.
Qed.

Lemma turn_numbers st po st' k :
  merge_inv st → turn st po st' →
  numbered (allPOs st') k ↔ numbered (allPOs st) k ∨ poNum_of po = Some k.
Proof.
  intros Hinv
    [Hk Ha|prev Hk Ha Hp|Hk Ha Hnil|k' i existing Hk Hs He|k' Hk Hs Hp];
    cbn [allPOs].
  - rewrite Hk. split; [by left|by intros [?|?]].
  - rewrite numbered_insert by (done || apply poNum_of_merge_into).
    rewrite Hk. split; [by left|by intros [?|?]].
  - rewrite Hnil, Hk. split.
    + intros (j & p & Hj & Hp). apply list_lookup_singleton_Some in Hj as [_ <-].
      rewrite poNum_of_fresh_copy in Hp. congruence.
    + intros [(j & p & Hj & _)|?]; [|done]. by rewrite lookup_nil in Hj.
  - rewrite numbered_insert by (done || apply poNum_of_merge_into).
    split; [by left|]. intros [?|Hpo]; [done|].
    destruct (inv_seen st Hinv k' i Hs) as (p & Hp & Hkp).
    exists i, p. split; [done|]. congruence.
  - rewrite numbered_snoc, poNum_of_fresh_copy. done.
Qed.

Lemma merge_pos_numbers pos st st' k :
  merge_inv st → merge_pos st pos = Some st' →
  numbered (allPOs st') k
  ↔ numbered (allPOs st) k ∨ ∃ po, po ∈ pos ∧ poNum_of po = Some k.
Proof.
  revert st. induction pos as [|po pos IH]; intros st Hinv; simpl.
  - intros [= <-]. split; [by left|]. intros [?|(po & Hin & _)]; [done|].
    by apply elem_of_nil in Hin.
  - destruct (merge_po st po) as [st1|] eqn:H1; [|done].
    intros H2. rewrite (IH st1) by eauto using merge_po_inv.
    rewrite (turn_numbers st po st1) by eauto using merge_po_turn.
    split.
    + intros [[?|Hpo]|(po' & Hin & Hk)]; [by left| |].
      * right. exists po. split; [by left|done].
      * right. exists po'. split; [by right|done].
    + intros [?|(po' & Hin & Hk)]; [by left; left|].
      apply elem_of_cons in Hin as [->|Hin]; [by left; right|].
      right. by exists po'.
Qed.

(** X2. Whenever the merger returns, the numbers of the purchase orders
    it returns are the trimmed numbers of the entries of the pages, no two
    returned orders have the same number, and only the first returned
    order can be without a number. *)
Theorem one_purchase_order_per_number
    (pages : list (PageExtractResponse A)) (out : list (PO A)) :
  mergePageResults pages = Some out →
  (∀ k, (∃ po, po ∈ entries pages ∧ poNum_of po = Some k)
        ↔ (∃ i p, out !! i = Some p ∧ poNum_of p = Some k))
  ∧ (∀ i j p q k, out !! i = Some p → out !! j = Some q →
        poNum_of p = Some k → poNum_of q = Some k → i = j)
  ∧ (∀ i p, out !! i = Some p → poNum_of p = None → i = 0%nat).
Proof.
  unfold mergePageResults. rewrite merge_pages_entries.
  destruct (merge_pos initial_state (entries pages)) as [st|] eqn:Hm; [|done].
  intros [= <-].
  assert (merge_inv st) as Hinv by eauto using merge_pos_inv, initial_inv.
  split_and!.
  - intros k.
    pose proof (merge_pos_numbers _ _ _ k initial_inv Hm) as Hn.
    unfold numbered in Hn. rewrite Hn. split; [by right|].
    intros [(j & p & Hj & _)|?]; [|done]. by simpl in Hj.
  - intros i j p q k Hi Hj Hp Hq.
    pose proof (inv_keyed st Hinv i p k Hi Hp) as E1.
    pose proof (inv_keyed st Hinv j q k Hj Hq) as E2.
    congruence.
  - intros i p Hi Hp. by destruct (inv_orphan st Hinv i p Hi Hp).
Qed.

Lemma merge_pos_throws pos st po k :
  merge_inv st → po ∈ pos → poNum_of po = Some k →
  inObjectPrototype k = true → merge_pos st pos = None.
Proof.
  revert st. induction pos as [|po' pos IH]; intros st Hinv Hin Hk Hp.
  - by apply elem_of_nil in Hin.
  - simpl. destruct (merge_po st po') as [st1|] eqn:H1; [|done].
    apply elem_of_cons in Hin as [<-|Hin].
    + by rewrite (merge_po_throws st po k) in H1.
    + apply IH; eauto using merge_po_inv.
Qed.

Lemma merge_throws_iff (pages : list (PageExtractResponse A)) :
  mergePageResults pages = None
  ↔ ∃ po k, po ∈ entries pages ∧ poNum_of po = Some k
            ∧ inObjectPrototype k = true.
Proof.
  split.
  - intros Hnone.
    set (bad := λ po : PO A,
           match poNum_of po with
           | Some k => inObjectPrototype k
           | None => false
           end).
    destruct (existsb bad (entries pages)) eqn:Hex.
    + apply existsb_exists in Hex as (po & Hin & Hbad). unfold bad in Hbad.
      destruct (poNum_of po) as [k|] eqn:Hk; [|done].
      exists po, k. by rewrite list_elem_of_In.
    + destruct (mergePageResults_returns pages) as [out Hout]; [|congruence].
      intros po k Hin Hk. destruct (inObjectPrototype k) eqn:Hp; [|done].
      assert (existsb bad (entries pages) = true) as Hex'; [|congruence].
      apply existsb_exists. exists po. split; [by apply list_elem_of_In|].
      unfold bad. by rewrite Hk.
  - intros (po & k & Hin & Hk & Hp). unfold mergePageResults.
    rewrite merge_pages_entries.
    by rewrite (merge_pos_throws _ _ po k initial_inv Hin Hk Hp).
Qed.

Lemma merge_pos_noise pos st :
  (∀ po, po ∈ pos → poNum_of po = None ∧ articles_of po = []) →
  merge_pos st pos = Some st.
Proof.
  induction pos as [|po pos IH]; intros Hn; simpl; [done|].
  destruct (Hn po) as [Hk Ha]; [by left|].
  unfold merge_po. rewrite Hk, Ha. simpl. apply IH.
  intros po' Hin. apply Hn. by right.
Qed.

Lemma merge_empty_iff (pages : list (PageExtractResponse A)) :
  mergePageResults pages = Some []
  ↔ ∀ po, po ∈ entries pages → poNum_of po = None ∧ articles_of po = [].
Proof.
  unfold mergePageResults. rewrite merge_pages_entries. split.
  - destruct (merge_pos initial_state (entries pages)) as [st|] eqn:Hm; [|done].
    intros [= Hnil] po Hin. split.
    + destruct (poNum_of po) as [k|] eqn:Hk; [|done]. exfalso.
      pose proof (merge_pos_numbers _ _ _ k initial_inv Hm) as Hn.
      destruct Hn as [_ Hn].
      destruct Hn as (j & p & Hj & _); [right; by exists po|].
      rewrite Hnil in Hj. by rewrite lookup_nil in Hj.
    + pose proof (merge_pos_articles _ _ _ Hm) as Hp.
      rewrite Hnil in Hp. simpl in Hp. symmetry in Hp.
      apply Permutation_nil_r in Hp.
      destruct (articles_of po) as [|a l] eqn:Ha; [done|]. exfalso.
      assert (a ∈ flat_map articles_of (entries pages)) as Hin'.
      { apply list_elem_of_In, in_flat_map. exists po.
        split; [by apply list_elem_of_In|]. rewrite Ha. by left. }
      rewrite Hp in Hin'. by apply elem_of_nil in Hin'.
  - intros Hn. by rewrite merge_pos_noise.
Qed.

(** X3. The merger throws exactly when some entry is numbered, after
    trimming, with a name that every object inherits, such as
    [constructor] or [toString]. *)
Theorem merge_throws_on_inherited_names
    (pages : list (PageExtractResponse A)) :
  mergePageResults pages = None
  ↔ ∃ po k, po ∈ entries pages ∧ poNum_of po = Some k
            ∧ inObjectPrototype k = true.
Proof. apply merge_throws_iff. Qed.

(** X4. The merger returns no purchase order exactly when no entry of any
    page has a number or an article. *)
Theorem merge_is_empty_iff_all_noise
    (pages : list (PageExtractResponse A)) :
  mergePageResults pages = Some []
  ↔ ∀ po, po ∈ entries pages → poNum_of po = None ∧ articles_of po = [].
Proof. apply merge_empty_iff. Qed.

End MergeMore.

(** ** The page of a new inward entry *)

Section NewInwardFacts.
Import NewInward.

Lemma merge_pages_skip_failed {A} job_id total (g : nat → nat)
    (results : list (option (PageExtractResponse A))) (st : merge_state A) :
  merge_pages st
    (imap (λ i r,
             match r with
             | Some pageResult => pageResult
             | None => PageMerger.mkPage job_id (g i) total (Some [])
             end) results)
  = merge_pages st (omap id results).
Proof.
  revert g st. induction results as [|r results IH]; intros g st; [done|].
  rewrite imap_cons. destruct r as [page|]; simpl.
  - destruct (merge_page st page) as [st'|]; [|done].
    apply (IH (g ∘ S)).
  - apply (IH (g ∘ S)).
Qed.

(** X5. A page whose extraction failed never aborts the extraction: the
    outcome is the merge of the pages that were extracted. *)
Theorem failed_pages_are_skipped job_id total
    (results : list (option (PageExtractResponse ArticleExtract.t))) :
  mergePageResults (pageResults job_id total results)
  = mergePageResults (omap id results).
Proof.
  unfold mergePageResults, pageResults.
  by rewrite (merge_pages_skip_failed job_id total (λ i, i + 1)%nat).
Qed.

Lemma merge_one_has_articles (results : list (PageExtractResponse ArticleExtract.t))
    (out : list (PO ArticleExtract.t)) i p :
  mergePageResults results = Some out → out !! i = Some p →
  is_Some (PageMerger.articles p).
Proof.
  unfold mergePageResults.
  destruct (merge_pages initial_state results) as [st|] eqn:Hm; [|done].
  intros [= <-] Hi.
  assert (merge_inv st) as Hinv by eauto using merge_pages_inv, initial_inv.
  by eapply inv_articles.
Qed.

(** X6. Once the pages are in, the page reports that no purchase order was
    found exactly when no entry of any page has a number or an article,
    and an error of the engine exactly when some entry is numbered with a
    name that every object inherits. *)
Theorem extraction_reports (results : list (PageExtractResponse ArticleExtract.t))
    (s : State) :
  extractError s = None →
  let s' := (handleExtract_merge results s).1 in
  (extractError s' = Some (Message "No purchase orders found in the PDF")
   ↔ ∀ po, po ∈ entries results → poNum_of po = None ∧ articles_of po = [])
  ∧ (extractError s' = Some TypeErrorMessage
     ↔ ∃ po k, po ∈ entries results ∧ poNum_of po = Some k
               ∧ inObjectPrototype k = true).
Proof.
  intros Hs s'. subst s'.
  rewrite <- merge_empty_iff, <- merge_throws_iff.
  unfold handleExtract_merge.
  destruct (mergePageResults results) as [[|data [|data' pos]]|] eqn:Hm;
    cbn [extraction_failed fst extractError].
  - split; split; done.
  - destruct (merge_one_has_articles results [data] 0 data Hm eq_refl)
      as [arts ->]. cbn [fst extractError]. rewrite Hs.
    split; split; done.
  - cbn [fst extractError]. rewrite Hs. split; split; done.
  - split; split; done.
Qed.

Lemma length_flat_map_perm {T} (l k : list T) : l ≡ₚ k → length l = length k.
Proof. apply Permutation_length. Qed.

(** X7. When the pages merge into one purchase order, the review step
    lists every article of every page: one idle row for each, under the
    descriptions the pages gave, and one SKU lookup is started for each
    row. *)
Theorem review_lists_every_article
    (results : list (PageExtractResponse ArticleExtract.t))
    (data : PO ArticleExtract.t) (s : State) :
  mergePageResults results = Some [data] →
  let r := handleExtract_merge results s in
  step r.1 = review
  ∧ form r.1 = review_form data
  ∧ length (articles r.1) = length (flat_map articles_of (entries results))
  ∧ map (λ a, prop a "item_description") (articles r.1)
    ≡ₚ map ArticleExtract.item_description
         (flat_map articles_of (entries results))
  ∧ Forall (λ a, prop a "skuStatus" = SStr (js "idle")) (articles r.1)
  ∧ r.2 = imap (λ idx a, LookupSKU idx (prop a "item_description"))
            (articles r.1).
Proof.
  intros Hm r. subst r. unfold handleExtract_merge. rewrite Hm.
  destruct (merge_one_has_articles results [data] 0 data Hm eq_refl)
    as [arts Harts]. rewrite Harts. cbn [fst snd step form articles].
  pose proof (merge_articles_perm results [data] Hm) as Hp.
  cbn [flat_map] in Hp. rewrite app_nil_r in Hp.
  unfold articles_of at 1 in Hp. rewrite Harts in Hp. cbn [default] in Hp.
  split_and!; try done.
  - rewrite length_map. by apply Permutation_length.
  - rewrite map_map. rewrite <- Hp. done.
  - apply Forall_forall. intros a Ha.
    apply list_elem_of_In, in_map_iff in Ha as (x & <- & _). done.
  - rewrite imap_fmap. by apply imap_ext.
Qed.

(** *** Transaction numbers *)

Lemma below_100 (n : N) : (n < 100)%N → n ∈ map N.of_nat (seq 0 100).
Proof.
  intros Hn. apply list_elem_of_In, in_map_iff. exists (N.to_nat n).
  split; [lia|]. apply in_seq. lia.
Qed.

Lemma length_pad2 (n : N) : (n < 100)%N → length (pad2 n) = 2%nat.
Proof.
  intros Hn.
  assert (forallb (λ m, (length (pad2 m) =? 2)%nat) (map N.of_nat (seq 0 100))
          = true) as Hall by (by vm_compute).
  rewrite forallb_forall in Hall.
  apply Nat.eqb_eq, Hall, list_elem_of_In. by apply below_100.
Qed.

Lemma pad2_inj (n m : N) :
  (n < 100)%N → (m < 100)%N → pad2 n = pad2 m → n = m.
Proof.
  intros Hn Hm Heq.
  assert (forallb (λ a, forallb (λ b, implb (bool_decide (pad2 a = pad2 b))
                                        (a =? b)%N)
                          (map N.of_nat (seq 0 100)))
            (map N.of_nat (seq 0 100)) = true) as Hall by (by vm_compute).
  rewrite forallb_forall in Hall.
  specialize (Hall n). rewrite forallb_forall in Hall.
  specialize (Hall (proj1 (list_elem_of_In _ _) (below_100 n Hn)) m
                (proj1 (list_elem_of_In _ _) (below_100 m Hm))).
  rewrite bool_decide_eq_true_2 in Hall by done. by apply N.eqb_eq.
Qed.

(** X8. Two readings of the clock that differ in any field, down to the
    second, give different transaction numbers. *)
Theorem generateTxnNo_inj (d d' : Date) :
  clock_reading d → clock_reading d' →
  generateTxnNo d = generateTxnNo d' → d = d'.
Proof.
  intros (Hmo & Hda & Hh & Hmi & Hs) (Hmo' & Hda' & Hh' & Hmi' & Hs').
  destruct d as [y mo da h mi se], d' as [y' mo' da' h' mi' se'].
  unfold generateTxnNo. cbn [year month date hours minutes seconds] in *.
  intros Heq. apply app_inv_head in Heq.
  apply app_inj_2 in Heq as [Hy Heq];
    [|rewrite !length_app, !length_pad2 by lia; done].
  apply app_inj_1 in Heq as [H1 Heq]; [|by rewrite !length_pad2 by lia].
  apply app_inj_1 in Heq as [H2 Heq]; [|by rewrite !length_pad2 by lia].
  apply app_inj_1 in Heq as [H3 Heq]; [|by rewrite !length_pad2 by lia].
  apply app_inj_1 in Heq as [H4 H5]; [|by rewrite !length_pad2 by lia].
  apply decimal_inj in Hy. apply pad2_inj in H1, H2, H3, H4, H5; try lia.
  f_equal; lia.
Qed.

(** *** The request of the review step *)

Lemma imap_map_seq {T U} (f : nat → T → U) (g : U → nat) (l : list T) k :
  (∀ i x, g (f i x) = (i + 1)%nat) →
  map g (imap (λ i, f (k + i)%nat) l) = seq (k + 1) (length l).
Proof.
  intros Hg. revert k. induction l as [|x l IH]; intros k; [done|].
  rewrite imap_cons. cbn [map length seq]. rewrite Hg. f_equal; [lia|].
  change (S (k + 1)) with (S k + 1)%nat.
  rewrite <- (IH (S k)). f_equal. apply imap_ext. intros i y _. simpl.
  f_equal. lia.
Qed.

Lemma map_imap_pointwise {T U V} (f : nat → T → U) (g : U → V) (h : T → V)
    (l : list T) :
  (∀ i x, g (f i x) = h x) → map g (imap f l) = map h l.
Proof.
  intros Hg. revert f Hg. induction l as [|x l IH]; intros f Hg; [done|].
  rewrite imap_cons. cbn [map]. rewrite Hg. f_equal. apply IH.
  intros i y. apply Hg.
Qed.

(** X9. The request of the review step is consistent: every article and
    every box carries the transaction number of the transaction, there is
    one article and one box for each row, the boxes are numbered 1, 2, ...
    in the order of the rows, and each box is described as its article. *)
Theorem submit_payload_is_consistent (company : jsstring) (now : Date)
    (entryDate : jsstring) (s : State) :
  let p := handleSubmit_payload company now entryDate s in
  let txnNo := Transaction.transaction_no (CreateInwardPayload.transaction p) in
  txnNo = generateTxnNo now
  ∧ length (CreateInwardPayload.articles p) = length (articles s)
  ∧ Forall (λ a, InwardArticle.transaction_no a = txnNo)
      (CreateInwardPayload.articles p)
  ∧ Forall (λ b, InwardBox.transaction_no b = txnNo)
      (CreateInwardPayload.boxes p)
  ∧ map InwardBox.box_number (CreateInwardPayload.boxes p)
    = seq 1 (length (articles s))
  ∧ map InwardBox.article_description (CreateInwardPayload.boxes p)
    = map InwardArticle.item_description (CreateInwardPayload.articles p).
Proof.
  intros p txnNo. subst p txnNo. unfold handleSubmit_payload.
  cbn [CreateInwardPayload.transaction CreateInwardPayload.articles
       CreateInwardPayload.boxes Transaction.transaction_no].
  split_and!.
  - done.
  - by rewrite length_map.
  - apply Forall_forall. intros a Ha.
    by apply list_elem_of_In, in_map_iff in Ha as (x & <- & _).
  - apply Forall_forall. intros b Hb.
    apply list_elem_of_lookup in Hb as (i & Hi).
    rewrite list_lookup_imap in Hi.
    destruct (articles s !! i) as [a|]; [|done]. by injection Hi as <-.
  - apply (imap_map_seq
             (λ idx a, InwardBox.mk (generateTxnNo now)
                         (prop a "item_description") (idx + 1))
             InwardBox.box_number (articles s) 0). done.
  - rewrite map_map. by apply map_imap_pointwise.
Qed.

(** *** Rows addressed by their position *)

Lemma filteri_from_all {T} (f : T → nat → bool) (l : list T) k :
  (∀ i x, l !! i = Some x → f x (k + i)%nat = true) →
  filteri_from f k l = l.
Proof.
  revert k. induction l as [|x l IH]; intros k Hf; simpl; [done|].
  specialize (Hf 0%nat x eq_refl) as Hx. rewrite Nat.add_0_r in Hx.
  rewrite Hx. f_equal. apply IH. intros i y Hy.
  replace (S k + i)%nat with (k + S i)%nat by lia. by apply Hf.
Qed.

Lemma filteri_from_delete {T} (l : list T) (index k : nat) :
  filteri_from (λ _ i, negb (i =? k + index)%nat) k l = delete index l.
Proof.
  revert index k. induction l as [|x l IH]; intros index k; simpl; [done|].
  destruct index as [|index].
  - rewrite Nat.add_0_r, Nat.eqb_refl. simpl.
    apply filteri_from_all. intros i y _.
    apply negb_true_iff, Nat.eqb_neq. lia.
  - assert ((k =? k + S index)%nat = false) as -> by (apply Nat.eqb_neq; lia).
    simpl. f_equal. rewrite <- (IH index (S k)).
    apply filteri_from_ext. intros i y _. do 2 f_equal. lia.
Qed.

Lemma filter_out_delete {T} (index : nat) (l : list T) :
  filter_out index l = delete index l.
Proof. apply (filteri_from_delete l index 0). Qed.

Lemma lookup_map_at {T} (index : nat) (f : T → T) (l : list T) (j : nat) :
  map_at index f l !! j
  = (if (j =? index)%nat then f else id) <$> l !! j.
Proof.
  unfold map_at. rewrite list_lookup_imap.
  destruct (l !! j); simpl; [|done]. by destruct (j =? index)%nat.
Qed.

(** X10. Removing a purchase order moves the later ones up by one place,
    and the record of which orders are expanded moves with them: the order
    now at a place is expanded exactly if it was before the removal. *)
Theorem removeEditablePO_keeps_expansion (poIdx : nat)
    (pos : list EditablePO.t) (expanded : gset nat) (j : nat) :
  let was := if (j <? poIdx)%nat then j else S j in
  (removeEditablePO poIdx (pos, expanded)).1 !! j = pos !! was
  ∧ (j ∈ (removeEditablePO poIdx (pos, expanded)).2 ↔ was ∈ expanded).
Proof.
  intros was. subst was. unfold removeEditablePO. cbn [fst snd]. split.
  - rewrite filter_out_delete.
    destruct (j <? poIdx)%nat eqn:Hj.
    + apply Nat.ltb_lt in Hj. by apply list_lookup_delete_lt.
    + apply Nat.ltb_ge in Hj. by apply list_lookup_delete_ge.
  - rewrite elem_of_set_omap. split.
    + intros (idx & Hin & Hf).
      destruct (idx <? poIdx)%nat eqn:H1.
      * injection Hf as <-. by rewrite H1.
      * destruct (poIdx <? idx)%nat eqn:H2; [|done]. injection Hf as <-.
        apply Nat.ltb_lt in H2.
        assert ((idx - 1 <? poIdx)%nat = false) as -> by (apply Nat.ltb_ge; lia).
        by replace (S (idx - 1)) with idx by lia.
    + destruct (j <? poIdx)%nat eqn:Hj; intros Hin.
      * exists j. by rewrite Hj.
      * exists (S j). split; [done|]. apply Nat.ltb_ge in Hj.
        assert ((S j <? poIdx)%nat = false) as -> by (apply Nat.ltb_ge; lia).
        assert ((poIdx <? S j)%nat = true) as -> by (apply Nat.ltb_lt; lia).
        f_equal. lia.
Qed.

(** X11. A SKU lookup marks and answers the row at the position it was
    started for, whatever row stands there by then: when the row was
    removed in the meantime, the loading mark, the answer or the failure
    lands on the row that followed it, and every other row stays as it
    is. *)
Theorem lookup_answer_lands_by_position (index : nat) (result : SkuLookup.t)
    (message : jsstring) (rows : list ArticleFields) (j : nat) :
  let row := rows !! (if (j <? index)%nat then j else S j) in
  let at_index := λ f : ArticleFields → ArticleFields,
    (if (j =? index)%nat then f else id) <$> row in
  lookupSKU index (removeArticle index rows) !! j = at_index loading_row
  ∧ lookupSKU_resolved index result (removeArticle index rows) !! j
    = at_index (if truthy (SkuLookup.sku_id result) then resolved_row result
                else error_row no_matching_sku)
  ∧ lookupSKU_rejected index message (removeArticle index rows) !! j
    = at_index (error_row message).
Proof.
  intros row at_index. subst row at_index.
  unfold lookupSKU, lookupSKU_resolved, lookupSKU_rejected, removeArticle.
  rewrite filter_out_delete.
  assert (delete index rows !! j
          = rows !! (if (j <? index)%nat then j else S j)) as Hd.
  { destruct (j <? index)%nat eqn:Hj.
    - apply Nat.ltb_lt in Hj. by apply list_lookup_delete_lt.
    - apply Nat.ltb_ge in Hj. by apply list_lookup_delete_ge. }
  split_and!.
  - by rewrite lookup_map_at, Hd.
  - destruct (truthy (SkuLookup.sku_id result)); by rewrite lookup_map_at, Hd.
  - by rewrite lookup_map_at, Hd.
Qed.

End NewInwardFacts.

(** ** The list of inward records *)

Section InwardListFacts.
Import InwardList.
Implicit Types (s : InwardList.State).

Lemma truthy_string_nil (x : jsstring) : truthy_string x = false ↔ x = [].
Proof. by destruct x. Qed.

Lemma nonempty_Some (x y : jsstring) : nonempty x = Some y → x = y ∧ y ≠ [].
Proof.
  unfold nonempty. destruct x; [done|]. simpl. by intros [= <-].
Qed.

(** X12. The two dates of a search request are the two dates of the
    filter, and they are in order whenever both are valid dates: the from
    date is never later than the to date.  A search for blanks alone,
    without dates, is the request of the plain listing. *)
Theorem search_dates_are_ordered (time_value : jsstring → option Z) s :
  let p := InwardList.handleSearch time_value s in
  ((from_date p, to_date p) = (nonempty (fromDate s), nonempty (toDate s))
   ∨ (from_date p, to_date p) = (nonempty (toDate s), nonempty (fromDate s)))
  ∧ (∀ a b x y, from_date p = Some a → to_date p = Some b →
       time_value a = Some x → time_value b = Some y → (x ≤ y)%Z)
  ∧ (trim (searchQuery s) = [] → fromDate s = [] → toDate s = [] →
     p = fetchData s).
Proof.
  intros p. subst p. unfold InwardList.handleSearch. cbn [from_date to_date].
  split_and!.
  - unfold normalized.
    destruct (truthy_string (fromDate s) && truthy_string (toDate s)
              && later time_value (fromDate s) (toDate s));
      cbn [fst snd]; by (left + right).
  - unfold normalized.
    destruct (truthy_string (fromDate s)) eqn:Hf; cbn [andb];
      [destruct (truthy_string (toDate s)) eqn:Ht; cbn [andb];
       [destruct (later time_value (fromDate s) (toDate s)) eqn:Hl|]|];
      cbn [fst snd].
    + intros a b x y [<- _]%nonempty_Some [<- _]%nonempty_Some Ha Hb.
      unfold later in Hl. rewrite Ha, Hb in Hl. apply Z.ltb_lt in Hl. lia.
    + intros a b x y [<- _]%nonempty_Some [<- _]%nonempty_Some Ha Hb.
      unfold later in Hl. rewrite Ha, Hb in Hl. apply Z.ltb_ge in Hl. lia.
    + intros a b x y _ [<- Hb]%nonempty_Some. by apply truthy_string_nil in Ht.
    + intros a b x y [<- Ha]%nonempty_Some. by apply truthy_string_nil in Hf.
  - intros Hq Hf Ht. unfold normalized, fetchData. by rewrite Hq, Hf, Ht.
Qed.

(** X13. The button that clears the filters is disabled exactly when
    clearing would change nothing but the page shown. *)
Theorem clear_disabled_iff s :
  clear_disabled s = true ↔ clearFilters s = handlePageChange 1 s.
Proof.
  unfold clear_disabled, hasFilters, clearFilters, handlePageChange.
  rewrite !andb_true_iff, negb_true_iff, !orb_false_iff,
    !bool_decide_eq_true, !truthy_string_nil.
  split.
  - intros [[[[-> ->] ->] ->] ->]. done.
  - intros [= <- <- <- <- <-]. done.
Qed.

Lemma totalPages_spec s d :
  data s = Some d →
  ∃ r, (0 ≤ r < 20)%Z ∧ (total d = 20 * totalPages s - r)%Z.
Proof.
  intros Hd. unfold totalPages, itemsPerPage. rewrite Hd.
  exists ((- total d) mod 20)%Z. split; [by apply Z.mod_pos_bound|].
  pose proof (Z.div_mod (- total d) 20). lia.
Qed.

Lemma page_buttons_window_all s (p : Z) :
  p ∈ page_buttons s
  ↔ (Z.max 1 (currentPage s - 2) ≤ p)%Z
    ∧ (p ≤ Z.max 1 (currentPage s - 2) + 4)%Z ∧ (p ≤ totalPages s)%Z.
Proof.
  unfold page_buttons. rewrite list_elem_of_omap.
  set (first := Z.max 1 (currentPage s - 2)). split.
  - intros (i & Hi & Hp). apply elem_of_seq in Hi.
    destruct (totalPages s <? first + Z.of_nat i)%Z eqn:Hc; [done|].
    injection Hp as <-. apply Z.ltb_ge in Hc. lia.
  - intros (H1 & H2 & H3). exists (Z.to_nat (p - first)). split.
    + apply elem_of_seq. lia.
    + rewrite Z2Nat.id by lia.
      replace (first + (p - first))%Z with p by lia.
      assert ((totalPages s <? p)%Z = false) as -> by (apply Z.ltb_ge; lia).
      done.
Qed.

(** X14. The numbered buttons are the pages from two before the current
    one, or from the first, up to four pages further or to the last page,
    whichever comes first; when the current page exists it is among
    them. *)
Theorem page_buttons_window s :
  let first := Z.max 1 (currentPage s - 2) in
  (∀ p, p ∈ page_buttons s
        ↔ (first ≤ p)%Z ∧ (p ≤ first + 4)%Z ∧ (p ≤ totalPages s)%Z)
  ∧ ((1 ≤ currentPage s)%Z → (currentPage s ≤ totalPages s)%Z →
     currentPage s ∈ page_buttons s).
Proof.
  intros first. split; [intros p; apply page_buttons_window_all|].
  intros H1 H2. apply page_buttons_window_all. lia.
Qed.

(** X15. While the current page exists, every click on the pagination
    strip leads to a page that exists. *)
Theorem pagination_stays_in_range s (p : Z) :
  (1 ≤ currentPage s)%Z → (currentPage s ≤ totalPages s)%Z →
  p ∈ page_targets s → (1 ≤ p)%Z ∧ (p ≤ totalPages s)%Z.
Proof.
  intros H1 H2. unfold page_targets.
  destruct (pagination_shown s); [|by intros ?%elem_of_nil].
  rewrite !elem_of_app. intros [Hp|[Hp|Hp]].
  - unfold previous_disabled in Hp.
    destruct (currentPage s <=? 1)%Z eqn:Hc; simpl in Hp;
      [by apply elem_of_nil in Hp|].
    destruct (isSearching s); [by apply elem_of_nil in Hp|].
    apply list_elem_of_singleton in Hp as ->. apply Z.leb_gt in Hc. lia.
  - destruct (isSearching s); [by apply elem_of_nil in Hp|].
    apply (proj1 (page_buttons_window_all s p)) in Hp. lia.
  - unfold next_disabled in Hp.
    destruct (totalPages s <=? currentPage s)%Z eqn:Hc; simpl in Hp;
      [by apply elem_of_nil in Hp|].
    destruct (isSearching s); [by apply elem_of_nil in Hp|].
    apply list_elem_of_singleton in Hp as ->. apply Z.leb_gt in Hc. lia.
Qed.

(** X16. On a page that exists, the range shown names at least one and at
    most twenty records of the total; short of the last page it ends where
    the range of the next page begins, and on the last page it ends at the
    total. *)
Theorem showing_ranges_tile s (d : InwardListResponse) :
  data s = Some d →
  (1 ≤ currentPage s)%Z → (currentPage s ≤ totalPages s)%Z →
  (1 ≤ showing_from s)%Z ∧ (showing_from s ≤ showing_to s)%Z
  ∧ (showing_to s ≤ total d)%Z
  ∧ (showing_to s - showing_from s < 20)%Z
  ∧ ((currentPage s < totalPages s)%Z →
       showing_from (handlePageChange (currentPage s + 1) s)
       = (showing_to s + 1)%Z)
  ∧ (currentPage s = totalPages s → showing_to s = total d).
Proof.
  intros Hd H1 H2. destruct (totalPages_spec s d Hd) as (r & Hr & Ht).
  unfold showing_from, showing_to, handlePageChange, itemsPerPage.
  rewrite Hd. cbn [currentPage]. lia.
Qed.

Lemma is_alphanumeric_underscore : is_alphanumeric 95 = false.
Proof. done. Qed.

(** X17. In the name of the exported file, the search text is replaced
    unit by unit: the result is as long as the text, holds nothing but
    letters, digits and underscores, and is the text itself when that
    holds nothing else; replacing again changes nothing. *)
Theorem replace_non_alphanumeric_is_safe (q : jsstring) :
  length (replace_non_alphanumeric q) = length q
  ∧ Forall (λ c, is_alphanumeric c = true ∨ c = 95%N)
      (replace_non_alphanumeric q)
  ∧ (Forall (λ c, is_alphanumeric c = true) q →
     replace_non_alphanumeric q = q)
  ∧ replace_non_alphanumeric (replace_non_alphanumeric q)
    = replace_non_alphanumeric q.
Proof.
  unfold replace_non_alphanumeric. split_and!.
  - apply length_map.
  - induction q as [|c q IH]; simpl; constructor; [|done].
    destruct (is_alphanumeric c) eqn:Hc; auto.
  - induction 1 as [|c q Hc _ IH]; simpl; [done|]. by rewrite Hc, IH.
  - rewrite map_map. apply map_ext. intros c.
    destruct (is_alphanumeric c) eqn:Hc; [by rewrite Hc|done].
Qed.

(** X18. The export asks for the records the list shows whenever the
    search text has no blanks around it and the two dates, if both are
    given, are in order. *)
Theorem export_matches_search (time_value : jsstring → option Z) s :
  trim (searchQuery s) = searchQuery s →
  later time_value (fromDate s) (toDate s) = false →
  let p := InwardList.handleSearch time_value s in
  handleDownloadAll_params s = mkExport (search p) (from_date p) (to_date p).
Proof.
  intros Ht Hl p. subst p.
  unfold handleDownloadAll_params, InwardList.handleSearch, normalized.
  cbn [search from_date to_date]. rewrite Ht, Hl, andb_false_r. done.
Qed.

End InwardListFacts.

(** ** More about the reconciliation page *)

Section ReconciliationMore.
Implicit Types (s : State) (i : nat).

Lemma run_all_exclusive (acts : list action) s s' :
  AcknowledgeAll ∉ acts → exclusive s → run_all acts s = Some s' →
  exclusive s'.
Proof.
  revert s. induction acts as [|a acts IH]; intros s Hnot Hex; simpl.
  - by intros [= <-].
  - destruct (offered a s) eqn:Hoff; [|done].
    apply IH.
    + intros Hin. apply Hnot. by right.
    + apply run_exclusive; [|done|done]. intros ->. apply Hnot. by left.
Qed.

(** X19. As long as "Acknowledge All" is not used, no article line is ever
    at once acknowledged and issued: whatever else the operator and the
    network do, each line is pending, acknowledged or issued. *)
Theorem lines_stay_exclusive_without_acknowledge_all
    (acts : list action) s i :
  AcknowledgeAll ∉ acts → run_all acts initial = Some s →
  line_resolution s i = Pending
  ∨ line_resolution s i = Acknowledged
  ∨ ∃ iss, line_resolution s i = Issued iss.
Proof.
  intros Hnot Hrun.
  assert (exclusive s) as Hex.
  { apply (run_all_exclusive acts initial); [done| |done].
    intros j Hm _. by vm_compute in Hm. }
  specialize (Hex i). unfold line_resolution, line_issued in *.
  destruct (line_matched s i), (linesIssueMap s !! i) as [iss|]; eauto.
  exfalso. apply Hex; [done|]. apply bool_decide_eq_true_2. eauto.
Qed.

(** X20. Loading a transfer makes every box and every article line
    pending, except that an issue reported before the load stays: the line
    at the position of an earlier issue starts out as issued, with the
    earlier figures. *)
Theorem load_keeps_reported_issues (response : Transfer.t) s :
  let s' := (loadTransferDetails_resolved response s).1 in
  (∀ b : Box.t, box_resolution s' b = Pending)
  ∧ (∀ i, line_resolution s' i
          = match linesIssueMap s !! i with
            | Some iss => Issued iss
            | None => Pending
            end)
  ∧ transferData s' = Some response.
Proof.
  intros s'. subst s'. unfold loadTransferDetails_resolved. cbn [fst].
  split_and!.
  - intros b. unfold box_resolution, box_matched. simpl.
    by rewrite boxMap_lookup.
  - intros i. unfold line_resolution, line_matched. simpl.
    by rewrite lineMap_lookup.
  - done.
Qed.

(** *** Boxes grouped by article *)

Lemma group_fold (bs : list Box.t) (groups : gmap jsstring (list Box.t))
    (k : jsstring) :
  fold_left
    (λ groups b,
       <[article_key b := default [] (groups !! article_key b) ++ [b]]> groups)
    bs groups !! k
  = match List.filter (λ b, bool_decide (article_key b = k)) bs with
    | [] => groups !! k
    | l => Some (default [] (groups !! k) ++ l)
    end.
Proof.
  revert groups. induction bs as [|b bs IH]; intros groups; simpl; [done|].
  rewrite IH. case_bool_decide as Hk.
  - subst k. rewrite lookup_insert_eq. simpl.
    destruct (List.filter _ bs) as [|b' l]; [done|].
    by rewrite <- app_assoc.
  - by rewrite lookup_insert_ne.
Qed.

Lemma groupedBoxes_lookup s (k : jsstring) :
  default [] (groupedBoxes s !! k)
  = List.filter (λ b, bool_decide (article_key b = k)) (boxes s).
Proof.
  unfold groupedBoxes, boxes.
  destruct (transferData s) as [t|]; [|by rewrite lookup_empty].
  destruct (Transfer.boxes t) as [bs|]; [|by rewrite lookup_empty].
  rewrite group_fold, lookup_empty. simpl.
  by destruct (List.filter _ bs).
Qed.

(** X21. On a page that renders, the groups of boxes partition the boxes
    by article: the group of a name lists, in their order, exactly the
    boxes whose article, or [Unknown Article] for want of one, is that
    name, and there is a group exactly for the names that some box has. *)
Theorem boxes_grouped_by_article s (k : jsstring) :
  Forall (λ b, inObjectPrototype (article_key b) = false) (boxes s) →
  default [] (groupedBoxes s !! k)
  = List.filter (λ b, bool_decide (article_key b = k)) (boxes s)
  ∧ (is_Some (groupedBoxes s !! k) ↔ ∃ b, b ∈ boxes s ∧ article_key b = k).
Proof.
  intros _. split; [apply groupedBoxes_lookup|].
  unfold groupedBoxes, boxes.
  destruct (transferData s) as [t|];
    [|rewrite lookup_empty; split;
      [by intros [? ?]|by intros (b & ?%elem_of_nil & _)]].
  destruct (Transfer.boxes t) as [bs|];
    [|rewrite lookup_empty; split;
      [by intros [? ?]|by intros (b & ?%elem_of_nil & _)]].
  rewrite group_fold, lookup_empty. simpl.
  destruct (List.filter _ bs) as [|b l] eqn:Hf.
  - split; [by intros [? ?]|]. intros (b & Hb & Hk).
    assert (b ∈ List.filter (λ b, bool_decide (article_key b = k)) bs) as Hin.
    { apply list_elem_of_In, filter_In. split; [by apply list_elem_of_In|].
      by apply bool_decide_eq_true_2. }
    rewrite Hf in Hin. by apply elem_of_nil in Hin.
  - split; [|by eexists]. intros _. exists b.
    assert (b ∈ List.filter (λ b, bool_decide (article_key b = k)) bs) as Hin
      by (rewrite Hf; by left).
    apply list_elem_of_In, filter_In in Hin as [Hin Hk].
    split; [by apply list_elem_of_In|]. by apply bool_decide_eq_true in Hk.
Qed.

(** X22. On a page that renders, the button of an article acknowledges
    exactly the boxes filed under that article: a box is acknowledged
    afterwards if it was before or if it shares its [id] with a box of the
    article; the lines and everything else stay as they are. *)
Theorem article_boxes_acknowledged (articleName : jsstring) s :
  Forall (λ b, inObjectPrototype (article_key b) = false) (boxes s) →
  inObjectPrototype articleName = false →
  let s' := (handleAcknowledgeArticleBoxes articleName s).1 in
  (∀ id, box_matched s' id
         = box_matched s id
           || existsb (λ b, (Box.id b =? id)%Z
                            && bool_decide (article_key b = articleName))
                (boxes s))
  ∧ linesMatchMap s' = linesMatchMap s
  ∧ linesIssueMap s' = linesIssueMap s
  ∧ transferData s' = transferData s.
Proof.
  intros _ _ s'. subst s'. unfold handleAcknowledgeArticleBoxes.
  rewrite groupedBoxes_lookup.
  set (l := List.filter (λ b, bool_decide (article_key b = articleName))
              (boxes s)).
  assert (∀ id, existsb (λ b, (Box.id b =? id)%Z
                              && bool_decide (article_key b = articleName))
                  (boxes s)
                = bool_decide (id ∈ map Box.id l)) as Hex.
  { intros id. subst l. induction (boxes s) as [|b bs IH]; simpl; [done|].
    rewrite IH. destruct (decide (article_key b = articleName)) as [Hk|Hk].
    - rewrite !(bool_decide_eq_true_2 (article_key b = articleName)) by done.
      rewrite andb_true_r. cbn [map].
      destruct (Z.eqb_spec (Box.id b) id) as [Heq|Hne]; simpl.
      + symmetry. apply bool_decide_eq_true_2, elem_of_cons. by left.
      + apply bool_decide_ext. rewrite elem_of_cons. split; [by right|].
        by intros [?|?].
    - rewrite !(bool_decide_eq_false_2 (article_key b = articleName)) by done.
      by rewrite andb_false_r. }
  destruct (length l =? 0)%nat eqn:Hlen; cbn [fst].
  - apply Nat.eqb_eq, nil_length_inv in Hlen. split_and!; try done.
    intros id. rewrite Hex, Hlen. simpl. by rewrite orb_false_r.
  - split_and!; try done. intros id. unfold box_matched. simpl.
    rewrite acknowledge_boxes_lookup, Hex.
    case_bool_decide; simpl; [by rewrite orb_true_r|by rewrite orb_false_r].
Qed.

(** X23. A report with at least one figure makes the line issued, whatever
    it was before: the figures are those of the form, a field that is no
    number counting as zero and the remark trimmed; an earlier
    acknowledgement of the line is withdrawn, the form is closed, and every
    other line and every box stays as it was. *)
Theorem submit_issue_accepted s i :
  let actualQty := parseFloat (IssueForm.actual_qty (issueForm s)) in
  let actualWeight := parseFloat (IssueForm.actual_total_weight (issueForm s)) in
  isNaN actualQty && isNaN actualWeight = false →
  let s' := (handleSubmitIssue i s).1 in
  line_resolution s' i
  = Issued (Issue.mk (if isNaN actualQty then Dec false 0 0 else actualQty)
              (if isNaN actualWeight then Dec false 0 0 else actualWeight)
              (trim (IssueForm.remarks (issueForm s))))
  ∧ (∀ j, j ≠ i → line_resolution s' j = line_resolution s j)
  ∧ (∀ b : Box.t, box_resolution s' b = box_resolution s b)
  ∧ issueOpenIndex s' = None
  ∧ issueForm s' = IssueForm.blank.
Proof.
  intros actualQty actualWeight Hok s'. subst s'.
  unfold handleSubmitIssue. fold actualQty actualWeight. rewrite Hok.
  cbn [fst]. split_and!; try done.
  - unfold line_resolution, line_matched. simpl.
    by rewrite lookup_delete_eq, lookup_insert_eq.
  - intros j Hj. unfold line_resolution, line_matched. simpl.
    by rewrite lookup_delete_ne, lookup_insert_ne.
Qed.

End ReconciliationMore.

(** ** The page that matches boxes by scanning *)

Section ScanFacts.
Import TransferInScan.
Implicit Types (s : TransferInScan.State) (o : gmap jsstring bool)
  (b : Box.t) (bs : list Box.t) (k : jsstring).

Lemma read_write_flag o k k' v :
  k' ≠ js "__proto__" →
  read_flag (write_flag k v o) k'
  = if bool_decide (k = k') then v else read_flag o k'.
Proof.
  intros Hk'. unfold write_flag, read_flag.
  case_bool_decide as Hp.
  - case_bool_decide as Hkk; [congruence|done].
  - case_bool_decide as Hkk.
    + subst. by rewrite lookup_insert_eq.
    + by rewrite lookup_insert_ne.
Qed.

Lemma read_fold_write (test : Box.t → bool) bs o k :
  k ≠ js "__proto__" →
  read_flag (fold_left (λ m b, if test b then write_flag (box_key b) true m
                               else m) bs o) k
  = read_flag o k || existsb (λ b, bool_decide (box_key b = k) && test b) bs.
Proof.
  intros Hk. revert o. induction bs as [|b bs IH]; intros o; simpl.
  - by rewrite orb_false_r.
  - rewrite IH. destruct (test b); simpl.
    + rewrite read_write_flag by done.
      case_bool_decide; simpl; [by rewrite orb_true_r|done].
    + by rewrite andb_false_r.
Qed.

Lemma transMatch_empty b : transMatch [] b = false.
Proof. done. Qed.

Lemma batchMatch_empty b : batchMatch [] b = false.
Proof. done. Qed.

Lemma mark_matches_none scannedBatch scannedTransNo bs o :
  scannedBatch = [] ∨ scannedTransNo = [] →
  mark_matches scannedBatch scannedTransNo bs o = o
  ∧ foundMatch scannedBatch scannedTransNo bs = false.
Proof.
  intros Hempty.
  assert (∀ b, batchMatch scannedBatch b && transMatch scannedTransNo b = false)
    as Hno.
  { intros b. destruct Hempty as [->| ->]; [done|].
    by rewrite transMatch_empty, andb_false_r. }
  unfold mark_matches, foundMatch. split.
  - revert o. induction bs as [|b bs IH]; intros o; simpl; [done|].
    by rewrite Hno.
  - induction bs as [|b bs IH]; simpl; [done|]. by rewrite Hno.
Qed.

(** X26. With a transfer and its boxes loaded, a scan that carries a batch
    or a transaction number marks exactly the boxes whose trimmed batch
    and transaction number both equal the scanned ones, both being
    non-empty; a mark once set stays, and no lookup is sent. *)
Theorem scan_marks_exact_matches (decodedText : jsstring) s (t : Transfer.t) bs
    (scannedBatch scannedTransNo : jsstring) :
  transferData s = Some t → Transfer.boxes t = Some bs →
  scan_data decodedText = (scannedBatch, scannedTransNo) →
  scannedBatch ≠ [] ∨ scannedTransNo ≠ [] →
  let r := handleQRScanSuccess decodedText s in
  (∀ k, k ≠ js "__proto__" →
        read_flag (boxesMatchMap r.1) k
        = read_flag (boxesMatchMap s) k
          || existsb (λ b, bool_decide (box_key b = k)
                           && (batchMatch scannedBatch b
                               && transMatch scannedTransNo b)) bs)
  ∧ transferData r.1 = transferData s
  ∧ showScanner r.1 = false ∧ showBoxScanner r.1 = false
  ∧ r.2 = [if foundMatch scannedBatch scannedTransNo bs
           then Toast "✓ Box Matched" false
           else Toast "✗ No Match" true].
Proof.
  intros Ht Hbs Hscan Hne r. subst r. unfold handleQRScanSuccess.
  rewrite Ht, Hbs, Hscan.
  assert (truthy_string scannedBatch || truthy_string scannedTransNo = true)
    as ->.
  { destruct Hne as [Hne|Hne]; [destruct scannedBatch|destruct scannedTransNo];
      try done. by rewrite orb_true_r. }
  cbn [fst snd boxesMatchMap transferData showScanner showBoxScanner].
  split_and!; try done.
  intros k Hk. unfold mark_matches. by apply read_fold_write.
Qed.

Lemma scan_data_plain (decodedText : jsstring) :
  JSON_parse decodedText = None → scan_data decodedText = (trim decodedText, []).
Proof. unfold scan_data. by intros ->. Qed.

(** X27. With a transfer and its boxes loaded, a scan that lacks the batch
    or the transaction number matches no box: the marks stay as they are
    and the operator is told that nothing matched.  A text that is not
    JSON is such a scan, so a plain label never matches. *)
Theorem scan_without_both_numbers_matches_nothing (decodedText : jsstring) s
    (t : Transfer.t) bs :
  transferData s = Some t → Transfer.boxes t = Some bs →
  ((scan_data decodedText).1 = [] ∧ (scan_data decodedText).2 ≠ [])
  ∨ ((scan_data decodedText).1 ≠ [] ∧ (scan_data decodedText).2 = [])
  ∨ (JSON_parse decodedText = None ∧ trim decodedText ≠ []) →
  handleQRScanSuccess decodedText s
  = (mkScan (transferNumber s) (loading s) (transferData s) false false
       (boxesMatchMap s) (boxCondition s) (conditionRemarks s),
     [Toast "✗ No Match" true]).
Proof.
  intros Ht Hbs Hcase. unfold handleQRScanSuccess. rewrite Ht, Hbs.
  destruct (scan_data decodedText) as [scannedBatch scannedTransNo] eqn:Hscan.
  cbn [fst snd] in Hcase.
  assert ((scannedBatch = [] ∧ scannedTransNo ≠ [])
          ∨ (scannedBatch ≠ [] ∧ scannedTransNo = [])) as Hcase'.
  { destruct Hcase as [?|[?|[Hp Hne]]]; [by left|by right|].
    rewrite (scan_data_plain _ Hp) in Hscan. injection Hscan as <- <-.
    by right. }
  assert (truthy_string scannedBatch || truthy_string scannedTransNo = true)
    as ->.
  { destruct Hcase' as [[_ Hne]|[Hne _]];
      [destruct scannedTransNo|destruct scannedBatch]; try done.
    by rewrite orb_true_r. }
  destruct (mark_matches_none scannedBatch scannedTransNo bs (boxesMatchMap s))
    as [-> ->]; [|done].
  destruct Hcase' as [[? _]|[_ ?]]; auto.
Qed.

Lemma read_initialMap bs k :
  k ≠ js "__proto__" →
  read_flag (initialMap bs) k
  = if existsb (λ b, bool_decide (box_key b = k)) bs then false
    else inObjectPrototype k.
Proof.
  intros Hk. unfold initialMap.
  assert (∀ o, read_flag (fold_left (λ m b, write_flag (box_key b) false m) bs o) k
               = if existsb (λ b, bool_decide (box_key b = k)) bs then false
                 else read_flag o k) as Hgen.
  { induction bs as [|b bs IH]; intros o; simpl; [done|].
    rewrite IH. rewrite read_write_flag by done.
    destruct (existsb _ bs); [by rewrite orb_true_r|].
    rewrite orb_false_r. by case_bool_decide. }
  rewrite Hgen. by unfold read_flag; rewrite lookup_empty.
Qed.

(** X28. Right after a transfer is loaded none of its boxes is matched and
    the receipt cannot be confirmed, as long as no box goes by the name
    [__proto__]. *)
Theorem nothing_matched_after_load (response : Transfer.t) s :
  let s' := (TransferInScan.loadTransferDetails_resolved response s).1 in
  Forall (λ b, box_key b ≠ js "__proto__") (TransferInScan.boxes s') →
  (∀ b, b ∈ TransferInScan.boxes s' → matched s' b = false)
  ∧ TransferInScan.confirm_disabled s' = true.
Proof.
  intros s' Hkeys. subst s'.
  unfold TransferInScan.loadTransferDetails_resolved in *.
  unfold TransferInScan.boxes, matched, TransferInScan.confirm_disabled in *.
  cbn [fst transferData boxesMatchMap loading] in *.
  set (bs := default [] (Transfer.boxes response)) in *.
  assert (∀ b, b ∈ bs → read_flag (initialMap bs) (box_key b) = false) as Hall.
  { intros b Hb. rewrite Forall_forall in Hkeys.
    rewrite read_initialMap by auto.
    assert (existsb (λ b', bool_decide (box_key b' = box_key b)) bs = true)
      as ->; [|done].
    apply existsb_exists. exists b. split; [by apply list_elem_of_In|].
    by apply bool_decide_eq_true_2. }
  split; [done|].
  unfold TransferInScan.boxes. cbn [transferData]. fold bs.
  destruct bs as [|b bs'] eqn:Hbs; [done|].
  cbn [length Nat.eqb orb existsb]. unfold matched at 1.
  cbn [boxesMatchMap]. rewrite Hall by (by left). done.
Qed.

(** X29. When the page lets the operator confirm, the request carries one
    record for every box of the transfer, in their order, each marked as
    matched. *)
Theorem confirm_sends_every_box (y mo d h mi se : Date) s (t : Transfer.t) :
  transferData s = Some t →
  TransferInScan.confirm_disabled s = false →
  ∃ body,
    (TransferInScan.handleConfirmReceipt y mo d h mi se s).2
    = [PostTransferIn body]
    ∧ Receipt.scanned_boxes body = map scanned_box (TransferInScan.boxes s)
    ∧ (0 < length (Receipt.scanned_boxes body))%nat
    ∧ Forall (λ r, Scanned.is_matched r = true) (Receipt.scanned_boxes body).
Proof.
  intros Ht Hd. unfold TransferInScan.handleConfirmReceipt. rewrite Ht.
  eexists. split; [done|]. cbn [Receipt.scanned_boxes].
  unfold TransferInScan.confirm_disabled in Hd.
  apply orb_false_iff in Hd as [Hd Hall].
  apply orb_false_iff in Hd as [_ Hlen]. apply Nat.eqb_neq in Hlen.
  assert (List.filter (matched s) (TransferInScan.boxes s)
          = TransferInScan.boxes s) as Hf.
  { generalize dependent (TransferInScan.boxes s). intros l _.
    induction l as [|b l IH]; simpl; [done|]. intros Hall.
    apply orb_false_iff in Hall as [Hb Hall]. apply negb_false_iff in Hb.
    rewrite Hb. f_equal. by apply IH. }
  unfold scannedBoxes. rewrite Hf. split_and!.
  - done.
  - rewrite length_map. lia.
  - apply Forall_forall. intros r Hr.
    by apply list_elem_of_In, in_map_iff in Hr as (b & <- & _).
Qed.

Lemma use_transfer_number_not_invalid (v : json) s :
  (use_transfer_number v s).2 ≠ [Toast "Invalid QR Code" true].
Proof.
  unfold use_transfer_number, TransferInScan.loadTransferDetails.
  destruct v; try done. cbn [transferNumber].
  by destruct (truthy_string (trim s0)).
Qed.

(** X30. Without a transfer loaded, a scan is turned down as an invalid
    code exactly when its text is JSON other than [null] that has no
    truthy [transfer_no] and no truthy [challan_no]; nothing else the
    scan can be is turned down. *)
Theorem scan_is_invalid_iff (decodedText : jsstring) s :
  transferData s = None →
  (handleQRScanSuccess decodedText s).2 = [Toast "Invalid QR Code" true]
  ↔ ∃ qrData, JSON_parse decodedText = Some qrData ∧ qrData ≠ JNull
      ∧ truthy_read (get_property qrData (js "transfer_no")) = false
      ∧ truthy_read (get_property qrData (js "challan_no")) = false.
Proof.
  intros Ht. unfold handleQRScanSuccess. rewrite Ht.
  unfold scan_transfer_number.
  set (s1 := mkScan _ _ _ _ _ _ _ _).
  destruct (JSON_parse decodedText) as [qrData|] eqn:Hp.
  - assert (get_property qrData (js "transfer_no") ≠ Threw → qrData ≠ JNull)
      as Hnn by (by intros Hn ->).
    split.
    + intros He. exists qrData.
      destruct (get_property qrData (js "transfer_no")) as [| |v] eqn:H1.
      * by apply use_transfer_number_not_invalid in He.
      * split_and!; [done|by apply Hnn|done|].
        destruct (get_property qrData (js "challan_no")) as [| |w]; try done.
        simpl. destruct (truthy_json w); [|done].
        by apply use_transfer_number_not_invalid in He.
      * destruct (truthy_json v) eqn:Hv;
          [by apply use_transfer_number_not_invalid in He|].
        split_and!; [done|by apply Hnn|done|].
        destruct (get_property qrData (js "challan_no")) as [| |w]; try done.
        simpl. destruct (truthy_json w); [|done].
        by apply use_transfer_number_not_invalid in He.
    + intros (qr & [= <-] & Hnull & H1 & H2).
      destruct (get_property qrData (js "transfer_no")) as [| |v] eqn:E1.
      * destruct qrData as [| | | | |ms]; try done.
        simpl in E1. by destruct (member _ ms).
      * destruct (get_property qrData (js "challan_no")) as [| |w]; try done.
        simpl in H2. by rewrite H2.
      * simpl in H1. rewrite H1.
        destruct (get_property qrData (js "challan_no")) as [| |w]; try done.
        simpl in H2. by rewrite H2.
  - split.
    + intros He. by apply use_transfer_number_not_invalid in He.
    + by intros (qr & ? & _).
Qed.

End ScanFacts.

(** ** The added statements on sample data *)

Section MoreSamples.

(** The merge of order PO1 with its second page and an order PO2 keeps
    the three articles of the two pages of PO1. *)
Lemma merge_keeps_every_article_witness :
  let pages := [sample_page 1 [po_acme]; sample_page 2 [po_other];
                sample_page 3 [sample_po (Some (js "PO2")) None None]] in
  let out := [merge_into po_acme po_other;
              sample_po (Some (js "PO2")) None (Some [])] in
  mergePageResults pages = Some out
  ∧ flat_map articles_of out ≡ₚ flat_map articles_of (entries pages).
Proof.
  intros pages out.
  assert (mergePageResults pages = Some out) as H1
    by (vm_compute; reflexivity).
  split; [exact H1|]. exact (merge_keeps_every_article pages out H1).
Defined.

Lemma one_purchase_order_per_number_witness :
  let pages := [sample_page 1 [po_acme; po_continuation];
                sample_page 2 [po_other]] in
  let out := [merge_into (merge_into po_acme po_continuation) po_other] in
  mergePageResults pages = Some out
  ∧ ((∀ k, (∃ po, po ∈ entries pages ∧ poNum_of po = Some k)
           ↔ (∃ i p, out !! i = Some p ∧ poNum_of p = Some k))
     ∧ (∀ i j p q k, out !! i = Some p → out !! j = Some q →
           poNum_of p = Some k → poNum_of q = Some k → i = j)
     ∧ (∀ i p, out !! i = Some p → poNum_of p = None → i = 0%nat)).
Proof.
  intros pages out.
  assert (mergePageResults pages = Some out) as H1
    by (vm_compute; reflexivity).
  split; [exact H1|]. exact (one_purchase_order_per_number pages out H1).
Defined.

(** *** The page of a new inward entry *)

(** The second of three pages failed: the review step lists the three
    articles of the other two. *)
Lemma extraction_reports_witness :
  let results := NewInward.pageResults (js "job") 3 NewInward.sample_results in
  let s' := (NewInward.handleExtract_merge results NewInward.initial).1 in
  NewInward.extractError NewInward.initial = None
  ∧ ((NewInward.extractError s'
      = Some (NewInward.Message "No purchase orders found in the PDF")
      ↔ ∀ po, po ∈ entries results →
              poNum_of po = None ∧ articles_of po = [])
     ∧ (NewInward.extractError s' = Some NewInward.TypeErrorMessage
        ↔ ∃ po k, po ∈ entries results ∧ poNum_of po = Some k
                  ∧ inObjectPrototype k = true))
  ∧ NewInward.extractError s' = None.
Proof.
  intros results s'. split; [reflexivity|]. split.
  - exact (extraction_reports results NewInward.initial eq_refl).
  - vm_compute. reflexivity.
Defined.

Lemma review_lists_every_article_witness :
  let results := NewInward.pageResults (js "job") 3 NewInward.sample_results in
  let data :=
    merge_into
      (NewInward.sample_order (Some (js "PO1"))
         [NewInward.sample_article "bolt" 5])
      (NewInward.sample_order None
         [NewInward.sample_article "nut" 2;
          NewInward.sample_article "washer" 1]) in
  let r := NewInward.handleExtract_merge results NewInward.initial in
  mergePageResults results = Some [data]
  ∧ (NewInward.step r.1 = NewInward.review
     ∧ NewInward.form r.1 = NewInward.review_form data
     ∧ length (NewInward.articles r.1)
       = length (flat_map articles_of (entries results))
     ∧ map (λ a, NewInward.prop a "item_description") (NewInward.articles r.1)
       ≡ₚ map NewInward.ArticleExtract.item_description
            (flat_map articles_of (entries results))
     ∧ Forall (λ a, NewInward.prop a "skuStatus" = SStr (js "idle"))
         (NewInward.articles r.1)
     ∧ r.2 = imap (λ idx a, NewInward.LookupSKU idx
                              (NewInward.prop a "item_description"))
               (NewInward.articles r.1))
  ∧ NewInward.articles r.1 = NewInward.sample_rows.
Proof.
  intros results data r.
  assert (mergePageResults results = Some [data]) as H1
    by (vm_compute; reflexivity).
  split; [exact H1|]. split.
  - exact (review_lists_every_article results data NewInward.initial H1).
  - vm_compute. reflexivity.
Defined.

Lemma generateTxnNo_inj_witness :
  NewInward.clock_reading sample_now
  ∧ NewInward.generateTxnNo sample_now = js "TR-20260305140709"
  ∧ (NewInward.generateTxnNo sample_now = NewInward.generateTxnNo sample_now →
     sample_now = sample_now).
Proof.
  assert (NewInward.clock_reading sample_now) as Hc
    by (unfold NewInward.clock_reading; simpl; lia).
  split; [exact Hc|]. split; [vm_compute; reflexivity|].
  exact (generateTxnNo_inj sample_now sample_now Hc Hc).
Defined.

(** *** The list of inward records *)

Lemma pagination_stays_in_range_witness :
  let s := InwardList.sample_state in
  (1 ≤ InwardList.currentPage s)%Z
  ∧ (InwardList.currentPage s ≤ InwardList.totalPages s)%Z
  ∧ InwardList.page_targets s = [2; 1; 2; 3; 4; 5; 4]%Z
  ∧ ((1 ≤ 5)%Z ∧ (5 ≤ InwardList.totalPages s)%Z).
Proof.
  intros s.
  assert (1 ≤ InwardList.currentPage s)%Z as H1 by (vm_compute; discriminate).
  assert (InwardList.currentPage s ≤ InwardList.totalPages s)%Z as H2
    by (vm_compute; discriminate).
  assert (InwardList.page_targets s = [2; 1; 2; 3; 4; 5; 4]%Z) as H3
    by (vm_compute; reflexivity).
  split; [exact H1|]. split; [exact H2|]. split; [exact H3|].
  apply (pagination_stays_in_range s 5 H1 H2).
  rewrite H3. do 5 right. left.
Defined.

Lemma showing_ranges_tile_witness :
  let s := InwardList.sample_state in
  let d := InwardList.mkResponse 95 (repeat (js "TR-1") 20) in
  (InwardList.data s = Some d
   ∧ (1 ≤ InwardList.currentPage s)%Z
   ∧ (InwardList.currentPage s ≤ InwardList.totalPages s)%Z)
  ∧ ((1 ≤ InwardList.showing_from s)%Z
     ∧ (InwardList.showing_from s ≤ InwardList.showing_to s)%Z
     ∧ (InwardList.showing_to s ≤ InwardList.total d)%Z
     ∧ (InwardList.showing_to s - InwardList.showing_from s < 20)%Z
     ∧ ((InwardList.currentPage s < InwardList.totalPages s)%Z →
          InwardList.showing_from
            (InwardList.handlePageChange (InwardList.currentPage s + 1) s)
          = (InwardList.showing_to s + 1)%Z)
     ∧ (InwardList.currentPage s = InwardList.totalPages s →
        InwardList.showing_to s = InwardList.total d)).
Proof.
  intros s d.
  assert (1 ≤ InwardList.currentPage s)%Z as H1 by (vm_compute; discriminate).
  assert (InwardList.currentPage s ≤ InwardList.totalPages s)%Z as H2
    by (vm_compute; discriminate).
  split; [by split_and!|].
  exact (showing_ranges_tile s d eq_refl H1 H2).
Defined.

(** Dates are compared as the numbers their digits spell. *)
Lemma export_matches_search_witness :
  let time_value := λ t : jsstring,
    Some (Z.of_N (read_digits (List.filter is_digit t) 0 0).1.1) in
  let s := InwardList.mkList None (js "bolt") (js "2026-01-05")
             (js "2026-02-01") InwardList.entry_date InwardList.desc false 1 in
  let p := InwardList.handleSearch time_value s in
  (trim (InwardList.searchQuery s) = InwardList.searchQuery s
   ∧ InwardList.later time_value (InwardList.fromDate s) (InwardList.toDate s)
     = false)
  ∧ InwardList.handleDownloadAll_params s
    = InwardList.mkExport (InwardList.search p) (InwardList.from_date p)
        (InwardList.to_date p).
Proof.
  intros time_value s p.
  assert (trim (InwardList.searchQuery s) = InwardList.searchQuery s) as H1
    by (vm_compute; reflexivity).
  assert (InwardList.later time_value (InwardList.fromDate s)
            (InwardList.toDate s) = false) as H2
    by (vm_compute; reflexivity).
  split; [by split|]. exact (export_matches_search time_value s H1 H2).
Defined.

(** *** The reconciliation page *)

Lemma not_acknowledge_all_issue_trace : AcknowledgeAll ∉ trace_issue_first_line.
Proof.
  unfold trace_issue_first_line. intros H.
  repeat (apply elem_of_cons in H as [H|H]; [discriminate H|]).
  by apply elem_of_nil in H.
Defined.

Lemma lines_stay_exclusive_witness :
  let s := state_after trace_issue_first_line in
  ((AcknowledgeAll ∉ trace_issue_first_line)
   ∧ run_all trace_issue_first_line initial = Some s)
  ∧ (line_resolution s 0 = Pending
     ∨ line_resolution s 0 = Acknowledged
     ∨ ∃ iss, line_resolution s 0 = Issued iss)
  ∧ line_resolution s 0 = Issued (Issue.mk (Dec false 5 0) (Dec false 0 0) []).
Proof.
  intros s.
  assert (run_all trace_issue_first_line initial = Some s) as Hrun
    by (vm_compute; reflexivity).
  split; [split; [exact not_acknowledge_all_issue_trace|exact Hrun]|].
  split.
  - exact (lines_stay_exclusive_without_acknowledge_all
             trace_issue_first_line s 0 not_acknowledge_all_issue_trace Hrun).
  - vm_compute. reflexivity.
Defined.

Lemma confirm_enabled_one_record_each_witness :
  let s := state_after trace_scenario in
  (run_clean trace_scenario initial = Some s ∧ confirm_disabled s = false)
  ∧ (pendingItems s = 0%nat
     ∧ some_line_acknowledged_with_issue s = false
     ∧ allScannedBoxes s
       ≡ₚ map scanned_box (boxes s) ++ imap (line_record s) (lines s))
  ∧ totalItems s = 3%nat.
Proof.
  intros s.
  assert (run_clean trace_scenario initial = Some s) as Hr
    by (vm_compute; reflexivity).
  assert (confirm_disabled s = false) as Hd by (vm_compute; reflexivity).
  split; [by split|]. split.
  - exact (confirm_enabled_one_record_each trace_scenario s Hr Hd).
  - vm_compute. reflexivity.
Defined.

Lemma acknowledge_all_lines_resolution_witness :
  let s := state_after trace_issue_first_line in
  (0 < totalLines s)%nat
  ∧ line_resolution (handleAcknowledgeAllLines s).1 0
    = match line_resolution s 0 with
      | Pending => Acknowledged
      | r => r
      end
  ∧ line_resolution s 0 = Issued (Issue.mk (Dec false 5 0) (Dec false 0 0) []).
Proof.
  intros s.
  assert (0 < totalLines s)%nat as Hi by (vm_compute; lia).
  split; [exact Hi|]. split.
  - exact (acknowledge_all_lines_resolution s 0 Hi).
  - vm_compute. reflexivity.
Defined.

Lemma transfer_2_1_renders :
  Forall (λ b, inObjectPrototype (article_key b) = false)
    (boxes (state_after [LookupResolved transfer_2_1])).
Proof. repeat constructor. Defined.

Lemma boxes_grouped_by_article_witness :
  let s := state_after [LookupResolved transfer_2_1] in
  Forall (λ b, inObjectPrototype (article_key b) = false) (boxes s)
  ∧ (default [] (groupedBoxes s !! js "Rice 5kg")
     = List.filter (λ b, bool_decide (article_key b = js "Rice 5kg")) (boxes s)
     ∧ (is_Some (groupedBoxes s !! js "Rice 5kg")
        ↔ ∃ b, b ∈ boxes s ∧ article_key b = js "Rice 5kg"))
  ∧ default [] (groupedBoxes s !! js "Rice 5kg")
    = [sample_box 11 1; sample_box 12 2].
Proof.
  intros s. split; [exact transfer_2_1_renders|]. split.
  - exact (boxes_grouped_by_article s (js "Rice 5kg") transfer_2_1_renders).
  - vm_compute. reflexivity.
Defined.

Lemma article_boxes_acknowledged_witness :
  let s := state_after [LookupResolved transfer_2_1] in
  let s' := (handleAcknowledgeArticleBoxes (js "Rice 5kg") s).1 in
  (Forall (λ b, inObjectPrototype (article_key b) = false) (boxes s)
   ∧ inObjectPrototype (js "Rice 5kg") = false)
  ∧ ((∀ id, box_matched s' id
            = box_matched s id
              || existsb (λ b, (Box.id b =? id)%Z
                               && bool_decide (article_key b = js "Rice 5kg"))
                   (boxes s))
     ∧ linesMatchMap s' = linesMatchMap s
     ∧ linesIssueMap s' = linesIssueMap s
     ∧ transferData s' = transferData s)
  ∧ matchedBoxes s' = 2%nat.
Proof.
  intros s s'.
  assert (inObjectPrototype (js "Rice 5kg") = false) as Hn
    by (vm_compute; reflexivity).
  split; [split; [exact transfer_2_1_renders|exact Hn]|]. split.
  - exact (article_boxes_acknowledged (js "Rice 5kg") s
             transfer_2_1_renders Hn).
  - vm_compute. reflexivity.
Defined.

(** Only the quantity is filled in: the weight is recorded as zero. *)
Lemma submit_issue_accepted_witness :
  let s := state_after [LookupResolved transfer_0_2; OpenIssue 0;
                        TypeIssueForm input_actual_qty (js "5");
                        TypeIssueForm input_actual_total_weight [];
                        TypeIssueForm input_remarks (js " torn bag ")] in
  let s' := (handleSubmitIssue 0 s).1 in
  isNaN (parseFloat (IssueForm.actual_qty (issueForm s)))
  && isNaN (parseFloat (IssueForm.actual_total_weight (issueForm s))) = false
  ∧ (line_resolution s' 0
     = Issued (Issue.mk
                 (if isNaN (parseFloat (IssueForm.actual_qty (issueForm s)))
                  then Dec false 0 0
                  else parseFloat (IssueForm.actual_qty (issueForm s)))
                 (if isNaN (parseFloat
                              (IssueForm.actual_total_weight (issueForm s)))
                  then Dec false 0 0
                  else parseFloat (IssueForm.actual_total_weight (issueForm s)))
                 (trim (IssueForm.remarks (issueForm s))))
     ∧ (∀ j, j ≠ 0%nat → line_resolution s' j = line_resolution s j)
     ∧ (∀ b : Box.t, box_resolution s' b = box_resolution s b)
     ∧ issueOpenIndex s' = None
     ∧ issueForm s' = IssueForm.blank)
  ∧ line_resolution s' 0
    = Issued (Issue.mk (Dec false 5 0) (Dec false 0 0) (js "torn bag")).
Proof.
  intros s s'.
  assert (isNaN (parseFloat (IssueForm.actual_qty (issueForm s)))
          && isNaN (parseFloat (IssueForm.actual_total_weight (issueForm s)))
          = false) as Hok by (vm_compute; reflexivity).
  split; [exact Hok|]. split.
  - exact (submit_issue_accepted s 0 Hok).
  - vm_compute. reflexivity.
Defined.

(** *** The page that matches boxes by scanning *)

Lemma scan_marks_exact_matches_witness :
  let s := TransferInScan.sample_loaded in
  let r := TransferInScan.handleQRScanSuccess TransferInScan.qr_box s in
  (TransferInScan.transferData s = Some transfer_2_1
   ∧ Transfer.boxes transfer_2_1 = Some [sample_box 11 1; sample_box 12 2]
   ∧ TransferInScan.scan_data TransferInScan.qr_box
     = (js "B-17", js "TR-0042")
   ∧ (js "B-17" ≠ [] ∨ js "TR-0042" ≠ []))
  ∧ ((∀ k, k ≠ js "__proto__" →
           TransferInScan.read_flag (TransferInScan.boxesMatchMap r.1) k
           = TransferInScan.read_flag (TransferInScan.boxesMatchMap s) k
             || existsb (λ b, bool_decide (TransferInScan.box_key b = k)
                              && (TransferInScan.batchMatch (js "B-17") b
                                  && TransferInScan.transMatch (js "TR-0042") b))
                  [sample_box 11 1; sample_box 12 2])
     ∧ TransferInScan.transferData r.1 = TransferInScan.transferData s
     ∧ TransferInScan.showScanner r.1 = false
     ∧ TransferInScan.showBoxScanner r.1 = false
     ∧ r.2 = [if TransferInScan.foundMatch (js "B-17") (js "TR-0042")
                   [sample_box 11 1; sample_box 12 2]
              then TransferInScan.Toast "✓ Box Matched" false
              else TransferInScan.Toast "✗ No Match" true])
  ∧ TransferInScan.confirm_disabled r.1 = false.
Proof.
  intros s r.
  assert (TransferInScan.scan_data TransferInScan.qr_box
          = (js "B-17", js "TR-0042")) as Hscan by (vm_compute; reflexivity).
  assert (js "B-17" ≠ [] ∨ js "TR-0042" ≠ []) as Hne by (by left).
  split; [by split_and!|]. split.
  - exact (scan_marks_exact_matches TransferInScan.qr_box s transfer_2_1
             [sample_box 11 1; sample_box 12 2] (js "B-17") (js "TR-0042")
             eq_refl eq_refl Hscan Hne).
  - vm_compute. reflexivity.
Defined.

(** A plain label, the batch of both boxes, matches neither. *)
Lemma scan_without_both_numbers_witness :
  let s := TransferInScan.sample_loaded in
  (TransferInScan.transferData s = Some transfer_2_1
   ∧ Transfer.boxes transfer_2_1 = Some [sample_box 11 1; sample_box 12 2]
   ∧ JSON_parse (js "B-17") = None ∧ trim (js "B-17") ≠ [])
  ∧ TransferInScan.handleQRScanSuccess (js "B-17") s
    = (TransferInScan.mkScan (TransferInScan.transferNumber s)
         (TransferInScan.loading s) (TransferInScan.transferData s) false false
         (TransferInScan.boxesMatchMap s) (TransferInScan.boxCondition s)
         (TransferInScan.conditionRemarks s),
       [TransferInScan.Toast "✗ No Match" true]).
Proof.
  intros s.
  assert (JSON_parse (js "B-17") = None) as Hp by (vm_compute; reflexivity).
  assert (trim (js "B-17") ≠ []) as Hne by (by vm_compute).
  split; [by split_and!|].
  exact (scan_without_both_numbers_matches_nothing (js "B-17") s transfer_2_1
           [sample_box 11 1; sample_box 12 2] eq_refl eq_refl
           (or_intror (or_intror (conj Hp Hne)))).
Defined.

Lemma nothing_matched_after_load_witness :
  let s' := (TransferInScan.loadTransferDetails_resolved transfer_2_1
               TransferInScan.initial).1 in
  Forall (λ b, TransferInScan.box_key b ≠ js "__proto__")
    (TransferInScan.boxes s')
  ∧ ((∀ b, b ∈ TransferInScan.boxes s' → TransferInScan.matched s' b = false)
     ∧ TransferInScan.confirm_disabled s' = true).
Proof.
  intros s'.
  assert (Forall (λ b, TransferInScan.box_key b ≠ js "__proto__")
            (TransferInScan.boxes s')) as Hk.
  { repeat constructor; by vm_compute. }
  split; [exact Hk|].
  exact (nothing_matched_after_load transfer_2_1 TransferInScan.initial Hk).
Defined.

Lemma confirm_sends_every_box_witness :
  let s := (TransferInScan.handleQRScanSuccess TransferInScan.qr_box
              TransferInScan.sample_loaded).1 in
  (TransferInScan.transferData s = Some transfer_2_1
   ∧ TransferInScan.confirm_disabled s = false)
  ∧ ∃ body,
      (TransferInScan.handleConfirmReceipt sample_now sample_now sample_now
         sample_now sample_now sample_now s).2
      = [TransferInScan.PostTransferIn body]
      ∧ TransferInScan.Receipt.scanned_boxes body
        = map TransferInScan.scanned_box (TransferInScan.boxes s)
      ∧ (0 < length (TransferInScan.Receipt.scanned_boxes body))%nat
      ∧ Forall (λ r, TransferInScan.Scanned.is_matched r = true)
          (TransferInScan.Receipt.scanned_boxes body).
Proof.
  intros s.
  assert (TransferInScan.confirm_disabled s = false) as Hd
    by (vm_compute; reflexivity).
  split; [by split|].
  exact (confirm_sends_every_box sample_now sample_now sample_now sample_now
           sample_now sample_now s transfer_2_1 eq_refl Hd).
Defined.

(** The text [{}] is turned down. *)
Lemma scan_is_invalid_iff_witness :
  TransferInScan.transferData TransferInScan.initial = None
  ∧ ((TransferInScan.handleQRScanSuccess (js "{}") TransferInScan.initial).2
     = [TransferInScan.Toast "Invalid QR Code" true]
     ↔ ∃ qrData, JSON_parse (js "{}") = Some qrData ∧ qrData ≠ JNull
         ∧ truthy_read (get_property qrData (js "transfer_no")) = false
         ∧ truthy_read (get_property qrData (js "challan_no")) = false)
  ∧ (TransferInScan.handleQRScanSuccess (js "{}") TransferInScan.initial).2
    = [TransferInScan.Toast "Invalid QR Code" true].
Proof.
  split; [reflexivity|]. split.
  - exact (scan_is_invalid_iff (js "{}") TransferInScan.initial eq_refl).
  - vm_compute. reflexivity.
Defined.

End MoreSamples.
